(** * Yojimbo serialization directives (yojimbo_serialize.h)

    A shallow embedding of the unified read/write/measure serialize
    helpers of the Yojimbo network library, and the properties of its
    integer, string, delta, ack-relative and sequence-relative codecs.

    The header is generic in the stream (template <typename Stream>).
    The embedding keeps that shape: every directive is a function of a
    [Stream] dictionary, and is run in a state-and-error monad over the
    stream's state.  The three stream engines live in yojimbo_stream.h,
    which is outside this header; they are modelled from the written
    contract of the bit stream and are marked as such. *)

From Stdlib Require Import ZArith List Bool Lia.
From Stdlib.Strings Require Import Byte.
Import ListNotations.
Local Open Scope Z_scope.

(** ** Outcomes of a serialize routine *)

(** A serialize routine returns [true] ([Done], with the new contents of
    its by-reference arguments), returns [false] ([Failed], the decode
    failure of the read path), trips a [yojimbo_assert] ([Aborted]), or
    touches memory outside a caller's buffer ([OutOfBounds]). *)
Inductive outcome (A : Type) : Type :=
| Done (a : A)
| Failed
| Aborted
| OutOfBounds.

Arguments Done {A} a.
Arguments Failed {A}.
Arguments Aborted {A}.
Arguments OutOfBounds {A}.

(** The monad of a routine that threads a stream of type [S]. *)
Definition M (S A : Type) : Type := S -> outcome (A * S).

Definition ret {S A : Type} (a : A) : M S A := fun s => Done (a, s).

Definition bind {S A B : Type} (c : M S A) (k : A -> M S B) : M S B :=
  fun s =>
    match c s with
    | Done (a, s') => k a s'
    | Failed => Failed
    | Aborted => Aborted
    | OutOfBounds => OutOfBounds
    end.

(** [return false;] *)
Definition return_false {S A : Type} : M S A := fun _ => Failed.

(** Modelled from the spec: [yojimbo_assert] is defined in yojimbo_config.h,
    which is not part of this header; a violated assertion is a fatal
    programming error. *)
Definition yojimbo_assert {S : Type} (cond : bool) : M S unit :=
  fun s => if cond then Done (tt, s) else Aborted.

Declare Scope serialize_scope.
Delimit Scope serialize_scope with ser.
Notation "x <- c ;; k" := (bind c (fun x => k))
  (at level 61, c at next level, right associativity) : serialize_scope.
Notation "c ;;; k" := (bind c (fun _ => k))
  (at level 61, right associativity) : serialize_scope.
Local Open Scope serialize_scope.

(** ** Machine integers *)

(** The integer types the header stores values in.  A value is a [Z];
    a conversion to a type wraps it as C++ does. *)
Inductive ctype : Type := int32_t | uint32_t | uint16_t.

Definition wrap_unsigned (w z : Z) : Z := z mod 2 ^ w.
Definition wrap_signed (w z : Z) : Z := (z + 2 ^ (w - 1)) mod 2 ^ w - 2 ^ (w - 1).

Definition cast (t : ctype) (z : Z) : Z :=
  match t with
  | int32_t => wrap_signed 32 z
  | uint32_t => wrap_unsigned 32 z
  | uint16_t => wrap_unsigned 16 z
  end.

Definition in_type (t : ctype) (z : Z) : Prop :=
  match t with
  | int32_t => - 2 ^ 31 <= z < 2 ^ 31
  | uint32_t => 0 <= z < 2 ^ 32
  | uint16_t => 0 <= z < 2 ^ 16
  end.

(** The width in bits of a type. *)
Definition width (t : ctype) : Z :=
  match t with
  | int32_t => 32
  | uint32_t => 32
  | uint16_t => 16
  end.

(** ** Bits *)

(** The low [n] bits of [v], least significant first. *)
Fixpoint to_bits (n : nat) (v : Z) : list bool :=
  match n with
  | O => []
  | S k => Z.odd v :: to_bits k (Z.div2 v)
  end.

Fixpoint from_bits (l : list bool) : Z :=
  match l with
  | [] => 0
  | b :: r => Z.b2z b + 2 * from_bits r
  end.

Definition byte_bits (b : byte) : list bool :=
  let '(b0, (b1, (b2, (b3, (b4, (b5, (b6, b7))))))) := Byte.to_bits b in
  [b0; b1; b2; b3; b4; b5; b6; b7].

Fixpoint bytes_bits (data : list byte) : list bool :=
  match data with
  | [] => []
  | b :: r => byte_bits b ++ bytes_bits r
  end.

(** Takes [n] bytes off the front of a bit list; [None] when fewer than
    [8 * n] bits are left. *)
Fixpoint take_bytes (n : nat) (l : list bool) : option (list byte * list bool) :=
  match n with
  | O => Some ([], l)
  | S k =>
      match l with
      | b0 :: b1 :: b2 :: b3 :: b4 :: b5 :: b6 :: b7 :: r =>
          match take_bytes k r with
          | Some (bs, rest) =>
              Some (Byte.of_bits (b0, (b1, (b2, (b3, (b4, (b5, (b6, b7))))))) :: bs, rest)
          | None => None
          end
      | _ => None
      end
  end.

(** Modelled from the spec: [bits_required] is declared in yojimbo_bitpack.h,
    which is not part of this header; the bounded-integer primitive uses the
    minimum number of bits needed to represent the range [min,max], that is
    the bit length of [max - min]. *)
Definition bits_required (min max : Z) : Z :=
  if min =? max then 0 else Z.log2 (max - min) + 1.

(** ** The stream interface *)

(** What the directives use of a stream: the two mode flags and the five
    primitives.  By-reference arguments come back in the result. *)
Record Stream (S : Type) : Type := {
  IsWriting : bool;
  IsReading : bool;
  SerializeInteger : Z -> Z -> Z -> M S Z;
  SerializeBits : Z -> Z -> M S Z;
  SerializeBytes : list byte -> Z -> M S (list byte);
  SerializeAlign : M S unit;
  SerializeCheck : M S unit
}.

Arguments IsWriting {S} _.
Arguments IsReading {S} _.
Arguments SerializeInteger {S} _ _ _ _.
Arguments SerializeBits {S} _ _ _.
Arguments SerializeBytes {S} _ _ _.
Arguments SerializeAlign {S} _.
Arguments SerializeCheck {S} _.

(** ** The directives of yojimbo_serialize.h *)

Section Directives.

Context {S : Type} (stream : Stream S).

(** [serialize_int( stream, value, min, max )], for a [value] of type [T]. *)
Definition serialize_int (T : ctype) (value min max : Z) : M S Z :=
  yojimbo_assert (min <? max) ;;;
  int32_value <-
    (if IsWriting stream then
       yojimbo_assert (value >=? min) ;;;
       yojimbo_assert (value <=? max) ;;;
       ret (cast int32_t value)
     else ret 0) ;;
  int32_value <- SerializeInteger stream int32_value min max ;;
  if IsReading stream then
    let value := cast T int32_value in
    if (value <? min) || (value >? max) then return_false else ret value
  else ret value.

(** [serialize_bits( stream, value, bits )], for a [value] of type [T]. *)
Definition serialize_bits (T : ctype) (value bits : Z) : M S Z :=
  yojimbo_assert (bits >? 0) ;;;
  yojimbo_assert (bits <=? 32) ;;;
  let uint32_value := if IsWriting stream then cast uint32_t value else 0 in
  uint32_value <- SerializeBits stream uint32_value bits ;;
  if IsReading stream then ret (cast T uint32_value) else ret value.

(** [serialize_bool( stream, value )]. *)
Definition serialize_bool (value : bool) : M S bool :=
  let uint32_bool_value :=
    if IsWriting stream then (if value then 1 else 0) else 0 in
  uint32_bool_value <- serialize_bits uint32_t uint32_bool_value 1 ;;
  if IsReading stream then ret (negb (uint32_bool_value =? 0)) else ret value.

(** [serialize_float_internal].  A float is carried as its four-byte
    pattern, which is all [memcpy] looks at.  [int_value] is left
    uninitialised by the source outside write mode, where no stream reads
    it; it is 0 here.  The pattern is copied back when reading even if
    the stream reports a failure, and the stream's result is returned. *)
Definition serialize_float_internal (value : Z) : M S Z :=
  let int_value := if IsWriting stream then value else 0 in
  int_value <- SerializeBits stream int_value 32 ;;
  if IsReading stream then ret int_value else ret value.

(** [serialize_float( stream, value )]. *)
Definition serialize_float (value : Z) : M S Z :=
  serialize_float_internal value.

(** [serialize_uint32( stream, value )]. *)
Definition serialize_uint32 (T : ctype) (value : Z) : M S Z :=
  serialize_bits T value 32.

(** [serialize_uint64_internal]. *)
Definition serialize_uint64_internal (value : Z) : M S Z :=
  let lo := if IsWriting stream then Z.land value 0xFFFFFFFF else 0 in
  let hi := if IsWriting stream then Z.shiftr value 32 else 0 in
  lo <- serialize_bits uint32_t lo 32 ;;
  hi <- serialize_bits uint32_t hi 32 ;;
  if IsReading stream then ret (Z.lor (Z.shiftl hi 32) lo) else ret value.

(** [serialize_uint64( stream, value )]. *)
Definition serialize_uint64 (value : Z) : M S Z :=
  serialize_uint64_internal value.

(** [serialize_double_internal].  A double is carried as its eight-byte
    pattern: the union reads the same bytes as a [uint64_t]. *)
Definition serialize_double_internal (value : Z) : M S Z :=
  let tmp := if IsWriting stream then value else 0 in
  tmp <- serialize_uint64 tmp ;;
  if IsReading stream then ret tmp else ret value.

(** [serialize_double( stream, value )]. *)
Definition serialize_double (value : Z) : M S Z :=
  serialize_double_internal value.

(** [serialize_bytes_internal] and [serialize_bytes( stream, data, bytes )]. *)
Definition serialize_bytes_internal (data : list byte) (bytes : Z) : M S (list byte) :=
  SerializeBytes stream data bytes.

Definition serialize_bytes (data : list byte) (bytes : Z) : M S (list byte) :=
  serialize_bytes_internal data bytes.

(** [strlen]: the index of the first zero byte, [None] when the scan
    leaves the buffer. *)
Fixpoint strlen (string : list byte) : option Z :=
  match string with
  | [] => None
  | c :: r =>
      if Byte.eqb c x00 then Some 0
      else match strlen r with
           | Some n => Some (n + 1)
           | None => None
           end
  end.

Definition c_strlen (string : list byte) : M S Z :=
  fun s => match strlen string with
           | Some n => Done (n, s)
           | None => OutOfBounds
           end.

(** [string[index] = c]. *)
Definition store (string : list byte) (index : Z) (c : byte) : M S (list byte) :=
  fun s =>
    if (0 <=? index) && (index <? Z.of_nat (length string)) then
      Done (firstn (Z.to_nat index) string ++ c :: skipn (Datatypes.S (Z.to_nat index)) string, s)
    else OutOfBounds.

(** [serialize_string_internal]; [string] is the caller's buffer. *)
Definition serialize_string_internal (string : list byte) (buffer_size : Z)
  : M S (list byte) :=
  length <-
    (if IsWriting stream then
       n <- c_strlen string ;;
       let length := cast int32_t n in
       yojimbo_assert (length <? buffer_size - 1) ;;;
       ret length
     else ret 0) ;;
  length <- serialize_int int32_t length 0 (buffer_size - 1) ;;
  string <- serialize_bytes string length ;;
  if IsReading stream then store string length x00 else ret string.

(** [serialize_string( stream, string, buffer_size )]. *)
Definition serialize_string (string : list byte) (buffer_size : Z)
  : M S (list byte) :=
  serialize_string_internal string buffer_size.

(** [serialize_align( stream )] and [serialize_check( stream )]. *)
Definition serialize_align : M S unit := SerializeAlign stream.
Definition serialize_check : M S unit := SerializeCheck stream.

End Directives.

(** ** The delta, ack-relative and sequence-relative codecs *)

Section RelativeCodecs.

Context {S : Type} (stream : Stream S).

(** [serialize_int_relative_internal], at [T = uint32_t], the type the
    header instantiates it with.  Returns the new [current]. *)
Definition serialize_int_relative_internal (previous current : Z) : M S Z :=
  difference <-
    (if IsWriting stream then
       yojimbo_assert (previous <? current) ;;;
       ret (cast uint32_t (current - previous))
     else ret 0) ;;
  let oneBit := if IsWriting stream then difference =? 1 else false in
  oneBit <- serialize_bool stream oneBit ;;
  if oneBit then
    (if IsReading stream then ret (cast uint32_t (previous + 1)) else ret current)
  else
  let twoBits := if IsWriting stream then difference <=? 6 else false in
  twoBits <- serialize_bool stream twoBits ;;
  if twoBits then
    difference <- serialize_int stream uint32_t difference 2 6 ;;
    (if IsReading stream then ret (cast uint32_t (previous + difference)) else ret current)
  else
  let fourBits := if IsWriting stream then difference <=? 23 else false in
  fourBits <- serialize_bool stream fourBits ;;
  if fourBits then
    difference <- serialize_int stream uint32_t difference 7 23 ;;
    (if IsReading stream then ret (cast uint32_t (previous + difference)) else ret current)
  else
  let eightBits := if IsWriting stream then difference <=? 280 else false in
  eightBits <- serialize_bool stream eightBits ;;
  if eightBits then
    difference <- serialize_int stream uint32_t difference 24 280 ;;
    (if IsReading stream then ret (cast uint32_t (previous + difference)) else ret current)
  else
  let twelveBits := if IsWriting stream then difference <=? 4377 else false in
  twelveBits <- serialize_bool stream twelveBits ;;
  if twelveBits then
    difference <- serialize_int stream uint32_t difference 281 4377 ;;
    (if IsReading stream then ret (cast uint32_t (previous + difference)) else ret current)
  else
  let sixteenBits := if IsWriting stream then difference <=? 69914 else false in
  sixteenBits <- serialize_bool stream sixteenBits ;;
  if sixteenBits then
    difference <- serialize_int stream uint32_t difference 4378 69914 ;;
    (if IsReading stream then ret (cast uint32_t (previous + difference)) else ret current)
  else
  let value := cast uint32_t current in
  value <- serialize_uint32 stream uint32_t value ;;
  if IsReading stream then ret value else ret current.

(** [serialize_int_relative( stream, previous, current )]. *)
Definition serialize_int_relative (previous current : Z) : M S Z :=
  serialize_int_relative_internal previous current.

(** [serialize_ack_relative_internal].  Returns the new [ack]. *)
Definition serialize_ack_relative_internal (sequence ack : Z) : M S Z :=
  state <-
    (if IsWriting stream then
       let ack_delta :=
         if ack <? sequence then cast int32_t (sequence - ack)
         else cast int32_t (sequence + 65536 - ack) in
       yojimbo_assert (ack_delta >? 0) ;;;
       yojimbo_assert (cast uint16_t (sequence - ack_delta) =? ack) ;;;
       ret (ack_delta, ack_delta <=? 64)
     else ret (0, false)) ;;
  let ack_delta := fst state in
  let ack_in_range := snd state in
  ack_in_range <- serialize_bool stream ack_in_range ;;
  if ack_in_range then
    ack_delta <- serialize_int stream int32_t ack_delta 1 64 ;;
    (if IsReading stream then ret (cast uint16_t (sequence - ack_delta)) else ret ack)
  else
    serialize_bits stream uint16_t ack 16.

(** [serialize_ack_relative( stream, sequence, ack )]. *)
Definition serialize_ack_relative (sequence ack : Z) : M S Z :=
  serialize_ack_relative_internal sequence ack.

(** The unwrapped [b] of the write branch of the sequence-relative codec. *)
Definition lifted (sequence1 sequence2 : Z) : Z :=
  cast uint32_t (sequence2 + (if sequence1 >? sequence2 then 65536 else 0)).

(** [serialize_sequence_relative_internal].  Returns the new [sequence2]:
    the write branch works on a local copy and leaves it alone, the other
    branch assigns it. *)
Definition serialize_sequence_relative_internal (sequence1 sequence2 : Z) : M S Z :=
  if IsWriting stream then
    let a := cast uint32_t sequence1 in
    let b := lifted sequence1 sequence2 in
    _ <- serialize_int_relative a b ;;
    ret sequence2
  else
    let a := cast uint32_t sequence1 in
    let b := 0 in
    b <- serialize_int_relative a b ;;
    let b := if b >=? 65536 then cast uint32_t (b - 65536) else b in
    ret (cast uint16_t b).

(** [serialize_sequence_relative( stream, sequence1, sequence2 )]. *)
Definition serialize_sequence_relative (sequence1 sequence2 : Z) : M S Z :=
  serialize_sequence_relative_internal sequence1 sequence2.

End RelativeCodecs.

(** ** The three stream engines *)

(** The state of a read stream: how many bits have been consumed, and the
    bits still to come. *)
Record reader : Type := { bits_read : Z; unread : list bool }.

(** The number of padding bits that bring a stream at bit [n] to the next
    byte boundary. *)
Definition align_bits (n : Z) : Z := (8 - n mod 8) mod 8.

Definition consume (n : nat) (r : reader) : reader :=
  {| bits_read := bits_read r + Z.of_nat n; unread := skipn n (unread r) |}.

Fixpoint starts_with (pattern l : list bool) : bool :=
  match pattern, l with
  | [], _ => true
  | p :: ps, b :: r => Bool.eqb p b && starts_with ps r
  | _ :: _, [] => false
  end.

Section Streams.

(** The sentinel of the integrity check: a fixed pattern that the written
    contract does not spell out. *)
Variable check_pattern : list bool.

(** Modelled from the spec: the write engine of yojimbo_stream.h, which is
    not part of this header.  The bounded-integer primitive writes
    [value - min] on the minimum number of bits for the range, the bit-run
    primitive the low [bits] bits of the value, the byte primitive the raw
    bytes, alignment pads to a byte boundary and the check writes the
    sentinel.  The state is the list of bits written so far. *)
Definition WriteStream : Stream (list bool) := {|
  IsWriting := true;
  IsReading := false;
  SerializeInteger := fun value min max s =>
    Done (value, s ++ to_bits (Z.to_nat (bits_required min max))
                              (cast uint32_t (value - min)));
  SerializeBits := fun value bits s =>
    Done (value, s ++ to_bits (Z.to_nat bits) value);
  SerializeBytes := fun data bytes s =>
    if bytes >? Z.of_nat (length data) then OutOfBounds
    else Done (data, s ++ bytes_bits (firstn (Z.to_nat bytes) data));
  SerializeAlign := fun s =>
    Done (tt, s ++ repeat false (Z.to_nat (align_bits (Z.of_nat (length s)))));
  SerializeCheck := fun s => Done (tt, s ++ check_pattern)
|}.

(** Modelled from the spec: the read engine of yojimbo_stream.h.  Every
    primitive fails when the stream holds too few bits; the bounded-integer
    primitive delivers [min] plus the bits read, in an [int32_t], without
    looking at [max]; the byte primitive fills the front of the caller's
    buffer; alignment skips the padding and the check compares the
    sentinel. *)
Definition ReadStream : Stream reader := {|
  IsWriting := false;
  IsReading := true;
  SerializeInteger := fun _ min max r =>
    let n := Z.to_nat (bits_required min max) in
    if (length (unread r) <? n)%nat then Failed
    else Done (cast int32_t (min + from_bits (firstn n (unread r))), consume n r);
  SerializeBits := fun _ bits r =>
    let n := Z.to_nat bits in
    if (length (unread r) <? n)%nat then Failed
    else Done (from_bits (firstn n (unread r)), consume n r);
  SerializeBytes := fun data bytes r =>
    match take_bytes (Z.to_nat bytes) (unread r) with
    | None => Failed
    | Some (content, _) =>
        if bytes >? Z.of_nat (length data) then OutOfBounds
        else Done (content ++ skipn (Z.to_nat bytes) data,
                   consume (8 * Z.to_nat bytes) r)
    end;
  SerializeAlign := fun r =>
    let n := Z.to_nat (align_bits (bits_read r)) in
    if (length (unread r) <? n)%nat then Failed else Done (tt, consume n r);
  SerializeCheck := fun r =>
    if starts_with check_pattern (unread r)
    then Done (tt, consume (length check_pattern) r)
    else Failed
|}.

(** Modelled from the spec: the measure engine of yojimbo_stream.h, with
    its is-writing flag left as a parameter.  It only counts the bits each
    primitive takes in the write engine: the minimum number of bits of the
    range, the width of a bit-run, eight bits a byte, the padding to the
    next byte boundary, the length of the sentinel.  The state is the
    count. *)
Definition MeasureStreamWith (writing : bool) : Stream Z := {|
  IsWriting := writing;
  IsReading := false;
  SerializeInteger := fun value min max n =>
    Done (value, n + Z.of_nat (Z.to_nat (bits_required min max)));
  SerializeBits := fun value bits n => Done (value, n + Z.of_nat (Z.to_nat bits));
  SerializeBytes := fun data bytes n =>
    Done (data, n + 8 * Z.of_nat (Z.to_nat bytes));
  SerializeAlign := fun n => Done (tt, n + align_bits n);
  SerializeCheck := fun n => Done (tt, n + Z.of_nat (length check_pattern))
|}.

(** Modelled from the spec: the measure engine with the flags the contract
    of the bit stream gives it, is-writing and is-reading both false. *)
Definition MeasureStream : Stream Z := MeasureStreamWith false.

End Streams.

(** ** The address directive and serializable objects *)

Section Objects.

(** The address collaborator of yojimbo_address.h, which is not part of
    this header: the address type, its validity test, its formatter (the
    contents of the buffer after [ToString( buffer, size )]), its parser
    (the constructor from a string buffer) and the length constant. *)
Variable Address : Type.
Variable IsValid : Address -> bool.
Variable ToString : Address -> list byte -> Z -> list byte.
Variable Parse : list byte -> Address.
Variable MaxAddressLength : Z.

(** The indeterminate first contents of the stack buffer of
    [serialize_address_internal]. *)
Variable stack_buffer : list byte.

Context {S : Type} (stream : Stream S).

(** [serialize_address_internal]. *)
Definition serialize_address_internal (address : Address) : M S Address :=
  buffer <-
    (if IsWriting stream then
       yojimbo_assert (IsValid address) ;;;
       ret (ToString address stack_buffer MaxAddressLength)
     else ret stack_buffer) ;;
  buffer <- serialize_string stream buffer MaxAddressLength ;;
  if IsReading stream then
    let address := Parse buffer in
    if negb (IsValid address) then return_false else ret address
  else ret address.

(** [serialize_address( stream, value )]. *)
Definition serialize_address (value : Address) : M S Address :=
  serialize_address_internal value.

(** One directive call of a serialize routine, with the current contents
    of the members it is applied to. *)
Inductive field : Type :=
| f_int (T : ctype) (value min max : Z)
| f_bits (T : ctype) (value bits : Z)
| f_bool (value : bool)
| f_float (value : Z)
| f_uint32 (T : ctype) (value : Z)
| f_uint64 (value : Z)
| f_double (value : Z)
| f_bytes (data : list byte) (bytes : Z)
| f_string (string : list byte) (buffer_size : Z)
| f_align
| f_check
| f_address (value : Address)
| f_int_relative (previous current : Z)
| f_ack_relative (sequence ack : Z)
| f_sequence_relative (sequence1 sequence2 : Z).

(** A serializable object: the directive calls of its [Serialize] routine
    in order, a nested object being a [serialize_object] call. *)
Inductive object : Type :=
| o_end
| o_field (f : field) (rest : object)
| o_object (inner rest : object).

Definition serialize_field (f : field) : M S field :=
  match f with
  | f_int T value min max =>
      value <- serialize_int stream T value min max ;; ret (f_int T value min max)
  | f_bits T value bits =>
      value <- serialize_bits stream T value bits ;; ret (f_bits T value bits)
  | f_bool value =>
      value <- serialize_bool stream value ;; ret (f_bool value)
  | f_float value =>
      value <- serialize_float stream value ;; ret (f_float value)
  | f_uint32 T value =>
      value <- serialize_uint32 stream T value ;; ret (f_uint32 T value)
  | f_uint64 value =>
      value <- serialize_uint64 stream value ;; ret (f_uint64 value)
  | f_double value =>
      value <- serialize_double stream value ;; ret (f_double value)
  | f_bytes data bytes =>
      data <- serialize_bytes stream data bytes ;; ret (f_bytes data bytes)
  | f_string string buffer_size =>
      string <- serialize_string stream string buffer_size ;;
      ret (f_string string buffer_size)
  | f_align => serialize_align stream ;;; ret f_align
  | f_check => serialize_check stream ;;; ret f_check
  | f_address value =>
      value <- serialize_address value ;; ret (f_address value)
  | f_int_relative previous current =>
      current <- serialize_int_relative stream previous current ;;
      ret (f_int_relative previous current)
  | f_ack_relative sequence ack =>
      ack <- serialize_ack_relative stream sequence ack ;;
      ret (f_ack_relative sequence ack)
  | f_sequence_relative sequence1 sequence2 =>
      sequence2 <- serialize_sequence_relative stream sequence1 sequence2 ;;
      ret (f_sequence_relative sequence1 sequence2)
  end.

(** [object.Serialize( stream )]; [serialize_object( stream, object )] is
    the same call on a member. *)
Fixpoint Serialize (o : object) : M S object :=
  match o with
  | o_end => ret o_end
  | o_field f rest =>
      f <- serialize_field f ;;
      rest <- Serialize rest ;;
      ret (o_field f rest)
  | o_object inner rest =>
      inner <- Serialize inner ;;
      rest <- Serialize rest ;;
      ret (o_object inner rest)
  end.

Definition serialize_object (o : object) : M S object := Serialize o.

End Objects.

Arguments f_int {Address}.
Arguments f_bits {Address}.
Arguments f_bool {Address}.
Arguments f_float {Address}.
Arguments f_uint32 {Address}.
Arguments f_uint64 {Address}.
Arguments f_double {Address}.
Arguments f_bytes {Address}.
Arguments f_string {Address}.
Arguments f_align {Address}.
Arguments f_check {Address}.
Arguments f_address {Address}.
Arguments f_int_relative {Address}.
Arguments f_ack_relative {Address}.
Arguments f_sequence_relative {Address}.
Arguments o_end {Address}.
Arguments o_field {Address}.
Arguments o_object {Address}.

(** ** Closed forms and tables used by the statements *)

(** The bits the writer emits for a difference: the closed form of the
    write path of [serialize_int_relative_internal]. *)
Definition delta_bits (difference current : Z) : list bool :=
  if difference =? 1 then [true]
  else if difference <=? 6 then [false; true] ++ to_bits 3 (difference - 2)
  else if difference <=? 23 then [false; false; true] ++ to_bits 5 (difference - 7)
  else if difference <=? 280 then
    [false; false; false; true] ++ to_bits 9 (difference - 24)
  else if difference <=? 4377 then
    [false; false; false; false; true] ++ to_bits 13 (difference - 281)
  else if difference <=? 69914 then
    [false; false; false; false; false; true] ++ to_bits 17 (difference - 4378)
  else [false; false; false; false; false; false] ++ to_bits 32 current.

(** The table of the delta codec as the specification gives it: the range
    [lo,hi] of the difference, the number of flags consumed up to and
    including the matching one, and the width of the payload. *)
Record bucket : Type := row {
  range_lo : Z;
  range_hi : Z;
  flag_count : nat;
  payload_width : nat
}.

Definition bucket_table : list bucket :=
  [ row 1 1 1 0; row 2 6 2 3; row 7 23 3 5; row 24 280 4 9;
    row 281 4377 5 13; row 4378 69914 6 17 ].


(** The delta of the ack-relative codec as the specification words it. *)
Definition ack_delta (sequence ack : Z) : Z :=
  if ack <? sequence then sequence - ack else sequence + 65536 - ack.

(** The bits the ack-relative writer emits: the closed form of the write
    path of [serialize_ack_relative_internal]. *)
Definition ack_bits (sequence ack : Z) : list bool :=
  if (1 <=? ack_delta sequence ack) && (ack_delta sequence ack <=? 64)
  then [true] ++ to_bits 6 (ack_delta sequence ack - 1)
  else [false] ++ to_bits 16 ack.

(** The text a string buffer holds: its bytes up to the first zero byte. *)
Fixpoint c_string (buffer : list byte) : list byte :=
  match buffer with
  | [] => []
  | c :: r => if Byte.eqb c x00 then [] else c :: c_string r
  end.

(** The bits the string writer emits for the text of a buffer: the length
    as a bounded integer of [0, buffer_size - 1], then the bytes. *)
Definition string_bits (buffer : list byte) (buffer_size : Z) : list bool :=
  to_bits (Z.to_nat (bits_required 0 (buffer_size - 1)))
          (Z.of_nat (length (c_string buffer)))
  ++ bytes_bits (c_string buffer).

(** ** Valid objects, directives and values *)

Section Validity.

Variable Address : Type.
Variable IsValid : Address -> bool.
Variable ToString : Address -> list byte -> Z -> list byte.
Variable Parse : list byte -> Address.
Variable MaxAddressLength : Z.
Variable stack_buffer : list byte.

(** The write-side preconditions of a directive call: the assertions of
    its write path hold, the value is one of its type, and the bytes it
    sends are inside the caller's buffer. *)
Definition valid_field (f : field Address) : Prop :=
  match f with
  | f_int T value min max =>
      min < max /\ min <= value <= max
      /\ in_type int32_t min /\ in_type int32_t max /\ in_type T value
  | f_bits T value bits => 0 < bits <= 32 /\ in_type T value
  | f_bool _ => True
  | f_float value => in_type uint32_t value
  | f_uint32 T value => in_type T value
  | f_uint64 value => 0 <= value < 2 ^ 64
  | f_double value => 0 <= value < 2 ^ 64
  | f_bytes data bytes => 0 <= bytes <= Z.of_nat (length data)
  | f_string string buffer_size =>
      buffer_size <= 2 ^ 31
      /\ exists n, strlen string = Some n /\ n < buffer_size - 1
  | f_align => True
  | f_check => True
  | f_address value =>
      IsValid value = true /\ MaxAddressLength <= 2 ^ 31
      /\ exists n, strlen (ToString value stack_buffer MaxAddressLength) = Some n
                   /\ n < MaxAddressLength - 1
  | f_int_relative previous current =>
      0 <= previous /\ previous < current /\ current < 2 ^ 32
  | f_ack_relative sequence ack =>
      in_type uint16_t sequence /\ in_type uint16_t ack
  | f_sequence_relative sequence1 sequence2 =>
      in_type uint16_t sequence1 /\ in_type uint16_t sequence2
      /\ sequence1 <> sequence2
  end.

Fixpoint valid_object (o : object Address) : Prop :=
  match o with
  | o_end => True
  | o_field f rest => valid_field f /\ valid_object rest
  | o_object inner rest => valid_object inner /\ valid_object rest
  end.

(** What a value needs beyond validity to come back from the bits: a
    bit-run value fits its width (or the width is 32), and the address
    collaborator parses the text of an address back into it, in a stack
    buffer of [MaxAddressLength] bytes. *)
Definition decodable (f : field Address) : Prop :=
  match f with
  | f_bits T value bits => 0 <= value < 2 ^ bits \/ bits = 32
  | f_address value =>
      Z.of_nat (length stack_buffer) = MaxAddressLength
      /\ forall buffer,
           c_string buffer = c_string (ToString value stack_buffer MaxAddressLength) ->
           Parse buffer = value
  | _ => True
  end.

(** A directive call without the value it carries. *)
Inductive directive : Type :=
| d_int (T : ctype) (min max : Z)
| d_bits (T : ctype) (bits : Z)
| d_bool
| d_float
| d_uint32 (T : ctype)
| d_uint64
| d_double
| d_bytes (bytes : Z)
| d_string (buffer_size : Z)
| d_align
| d_check
| d_address
| d_int_relative (previous : Z)
| d_ack_relative (sequence : Z)
| d_sequence_relative (sequence1 : Z).

Definition directive_of (f : field Address) : directive :=
  match f with
  | f_int T _ min max => d_int T min max
  | f_bits T _ bits => d_bits T bits
  | f_bool _ => d_bool
  | f_float _ => d_float
  | f_uint32 T _ => d_uint32 T
  | f_uint64 _ => d_uint64
  | f_double _ => d_double
  | f_bytes _ bytes => d_bytes bytes
  | f_string _ buffer_size => d_string buffer_size
  | f_align => d_align
  | f_check => d_check
  | f_address _ => d_address
  | f_int_relative previous _ => d_int_relative previous
  | f_ack_relative sequence _ => d_ack_relative sequence
  | f_sequence_relative sequence1 _ => d_sequence_relative sequence1
  end.

(** The value a directive call carries: an integer (a float or a double
    is its bit pattern), a boolean, the bytes a byte-run sends or the text
    of a string buffer, or an address. *)
Inductive value : Type :=
| v_int (z : Z)
| v_bool (b : bool)
| v_bytes (l : list byte)
| v_address (a : Address)
| v_none.

Definition value_of (f : field Address) : value :=
  match f with
  | f_int _ v _ _ => v_int v
  | f_bits _ v _ => v_int v
  | f_bool b => v_bool b
  | f_float v => v_int v
  | f_uint32 _ v => v_int v
  | f_uint64 v => v_int v
  | f_double v => v_int v
  | f_bytes data bytes => v_bytes (firstn (Z.to_nat bytes) data)
  | f_string string _ => v_bytes (c_string string)
  | f_align => v_none
  | f_check => v_none
  | f_address a => v_address a
  | f_int_relative _ current => v_int current
  | f_ack_relative _ ack => v_int ack
  | f_sequence_relative _ sequence2 => v_int sequence2
  end.

(** The buffers a reader passes are large enough: a byte-run buffer holds
    the bytes asked for, a string buffer has [buffer_size] bytes. *)
Definition reader_ready (f : field Address) : Prop :=
  match f with
  | f_bytes data bytes => bytes <= Z.of_nat (length data)
  | f_string string buffer_size => Z.of_nat (length string) = buffer_size
  | _ => True
  end.

(** The directives whose write path sends a number of bits that does not
    depend on a test made under the is-writing flag. *)
Definition static_field (f : field Address) : bool :=
  match f with
  | f_string _ _ => false
  | f_address _ => false
  | f_int_relative _ _ => false
  | f_ack_relative _ _ => false
  | f_sequence_relative _ _ => false
  | _ => true
  end.

Fixpoint static_object (o : object Address) : bool :=
  match o with
  | o_end => true
  | o_field f rest => static_field f && static_object rest
  | o_object inner rest => static_object inner && static_object rest
  end.

End Validity.

Arguments v_int {Address}.
Arguments v_bool {Address}.
Arguments v_bytes {Address}.
Arguments v_address {Address}.
Arguments v_none {Address}.

(** A measuring routine agrees with a writing routine when, wherever the
    writer returns true, the measurer started at the writer's bit count
    returns true with the same values and the writer's new bit count. *)
Definition agree {X : Type} (cw : M (list bool) X) (cm : M Z X) : Prop :=
  forall s x s',
    cw s = Done (x, s') ->
    cm (Z.of_nat (length s)) = Done (x, Z.of_nat (length s')).

(** An address collaborator for the examples: an address is a byte, valid
    when it is not zero, and its text is that byte. *)
Definition example_IsValid (a : byte) : bool := negb (Byte.eqb a x00).
Definition example_ToString (a : byte) (buffer : list byte) (size : Z) : list byte :=
  a :: repeat x00 (Z.to_nat size - 1).
Definition example_Parse (buffer : list byte) : byte := hd x00 buffer.

(** ** The read and write macros *)

(** The macros of the header that read only or write only.  They live in a
    module of their own: their names are those of lemmas below. *)
Module ReadWrite.

Section ReadWriteMacros.

Context {S : Type} (stream : Stream S).

(** An [int] bound in a comparison with a variable of type [T]: against an
    [unsigned int] the bound is converted to [unsigned int]; a narrower
    variable is promoted to [int] and the bound stays as it is. *)
Definition converted (T : ctype) (bound : Z) : Z :=
  match T with
  | uint32_t => cast uint32_t bound
  | _ => bound
  end.

(** [read_bits( stream, value, bits )], for a [value] of type [T]. *)
Definition read_bits (T : ctype) (bits : Z) : M S Z :=
  yojimbo_assert (bits >? 0) ;;;
  yojimbo_assert (bits <=? 32) ;;;
  uint32_value <- SerializeBits stream 0 bits ;;
  ret (cast T uint32_value).

(** [read_int( stream, value, min, max )], for a [value] of type [T] and
    bounds of type [int]; the bounds are compared without the 64-bit casts
    of [serialize_int]. *)
Definition read_int (T : ctype) (min max : Z) : M S Z :=
  yojimbo_assert (min <? max) ;;;
  int32_value <- SerializeInteger stream 0 min max ;;
  let value := cast T int32_value in
  if (value <? converted T min) || (value >? converted T max)
  then return_false else ret value.

(** [read_bool( stream, value )], which is [read_bits( stream, value, 1 )]
    into a [bool]: the [uint32_t] read is converted to [bool]. *)
Definition read_bool : M S bool :=
  yojimbo_assert (1 >? 0) ;;;
  yojimbo_assert (1 <=? 32) ;;;
  uint32_value <- SerializeBits stream 0 1 ;;
  ret (negb (cast uint32_t uint32_value =? 0)).

(** [write_bits( stream, value, bits )]. *)
Definition write_bits (value bits : Z) : M S unit :=
  yojimbo_assert (bits >? 0) ;;;
  yojimbo_assert (bits <=? 32) ;;;
  let uint32_value := cast uint32_t value in
  SerializeBits stream uint32_value bits ;;; ret tt.

(** [write_int( stream, value, min, max )], for a [value] of type [T] and
    bounds of type [int]. *)
Definition write_int (T : ctype) (value min max : Z) : M S unit :=
  yojimbo_assert (min <? max) ;;;
  yojimbo_assert (value >=? converted T min) ;;;
  yojimbo_assert (value <=? converted T max) ;;;
  let int32_value := cast int32_t value in
  SerializeInteger stream int32_value min max ;;; ret tt.

End ReadWriteMacros.

End ReadWrite.

(** ** Objects of one shape *)

Section Shapes.

Variable Address : Type.
Variable ToString : Address -> list byte -> Z -> list byte.
Variable Parse : list byte -> Address.
Variable MaxAddressLength : Z.
Variable stack_buffer : list byte.

(** Two objects whose serialize routines make the same directive calls. *)
Fixpoint same_shape (o o0 : object Address) : Prop :=
  match o, o0 with
  | o_end, o_end => True
  | o_field f rest, o_field f0 rest0 =>
      directive_of Address f0 = directive_of Address f /\ same_shape rest rest0
  | o_object inner rest, o_object inner0 rest0 =>
      same_shape inner inner0 /\ same_shape rest rest0
  | _, _ => False
  end.

(** The values of an object, in the order of its directive calls. *)
Fixpoint values_of (o : object Address) : list (value Address) :=
  match o with
  | o_end => []
  | o_field f rest => value_of Address f :: values_of rest
  | o_object inner rest => values_of inner ++ values_of rest
  end.

Fixpoint decodable_object (o : object Address) : Prop :=
  match o with
  | o_end => True
  | o_field f rest =>
      decodable Address ToString Parse MaxAddressLength stack_buffer f
      /\ decodable_object rest
  | o_object inner rest => decodable_object inner /\ decodable_object rest
  end.

Fixpoint reader_ready_object (o : object Address) : Prop :=
  match o with
  | o_end => True
  | o_field f rest => reader_ready Address f /\ reader_ready_object rest
  | o_object inner rest => reader_ready_object inner /\ reader_ready_object rest
  end.

(** What the read path needs of a directive call, whatever the stream
    holds: the parameters pass the assertions made in read mode and the
    buffers have the size the call says. *)
Definition readable_field (f : field Address) : Prop :=
  match f with
  | f_int _ _ min max => min < max
  | f_bits _ _ bits => 0 < bits <= 32
  | f_bytes data bytes => bytes <= Z.of_nat (length data)
  | f_string string buffer_size =>
      1 < buffer_size /\ Z.of_nat (length string) = buffer_size
  | f_address _ =>
      1 < MaxAddressLength /\ Z.of_nat (length stack_buffer) = MaxAddressLength
  | _ => True
  end.

Fixpoint readable_object (o : object Address) : Prop :=
  match o with
  | o_end => True
  | o_field f rest => readable_field f /\ readable_object rest
  | o_object inner rest => readable_object inner /\ readable_object rest
  end.

End Shapes.

(** ** The virtual serialize functions *)

Section VirtualSerialize.

Variable check_pattern : list bool.
Variable Address : Type.
Variable IsValid : Address -> bool.
Variable ToString : Address -> list byte -> Z -> list byte.
Variable Parse : list byte -> Address.
Variable MaxAddressLength : Z.
Variable stack_buffer : list byte.

(** [YOJIMBO_VIRTUAL_SERIALIZE_FUNCTIONS]: the three overrides of
    [SerializeInternal], each a call of the templated [Serialize]. *)
Definition SerializeInternal_read (o : object Address) : M reader (object Address) :=
  Serialize Address IsValid ToString Parse MaxAddressLength stack_buffer
            (ReadStream check_pattern) o.

Definition SerializeInternal_write (o : object Address)
  : M (list bool) (object Address) :=
  Serialize Address IsValid ToString Parse MaxAddressLength stack_buffer
            (WriteStream check_pattern) o.

Definition SerializeInternal_measure (o : object Address) : M Z (object Address) :=
  Serialize Address IsValid ToString Parse MaxAddressLength stack_buffer
            (MeasureStream check_pattern) o.

End VirtualSerialize.

(** ** Predicates on routines *)

(** A routine run from [s] returns true with a result that meets [P], or
    returns false; it trips no assertion and stays inside the buffers. *)
Definition returns {S A : Type} (c : M S A) (s : S) (P : A -> S -> Prop) : Prop :=
  match c s with
  | Done (a, s') => P a s'
  | Failed => True
  | Aborted => False
  | OutOfBounds => False
  end.

(** Every result a routine returns true with meets [P]. *)
Definition yields {S A : Type} (c : M S A) (P : A -> Prop) : Prop :=
  forall s a s', c s = Done (a, s') -> P a.

(** A read stream that lacks the last bits [q] of another. *)
Definition shortened (q : list bool) (full short : reader) : Prop :=
  bits_read full = bits_read short /\ unread full = unread short ++ q.

(** A reading routine that, on a stream cut short, fails or goes on as on
    the full stream. *)
Definition cut_ok {A : Type} (q : list bool) (c : M reader A) : Prop :=
  forall full short a full',
    shortened q full short ->
    c full = Done (a, full') ->
    c short = Failed
    \/ exists short', c short = Done (a, short') /\ shortened q full' short'.

(** * Properties *)

(** ** Bits and machine integers *)

Lemma length_to_bits (n : nat) (v : Z) : length (to_bits n v) = n.
Proof.
  revert v; induction n as [|n IH]; intros v; simpl; [reflexivity|].
  now rewrite IH.
Qed.

Lemma from_bits_to_bits (n : nat) (v : Z) :
  from_bits (to_bits n v) = v mod 2 ^ Z.of_nat n.
Proof.
  revert v; induction n as [|n IH]; intros v.
  - simpl. now rewrite Z.mod_1_r.
  - cbn [to_bits from_bits]. rewrite IH.
    rewrite Nat2Z.inj_succ, Z.pow_succ_r by lia.
    rewrite Z.div2_div.
    assert (0 < 2 ^ Z.of_nat n) by (apply Z.pow_pos_nonneg; lia).
    rewrite Z.rem_mul_r by lia.
    rewrite Zmod_odd. destruct (Z.odd v); simpl Z.b2z; lia.
Qed.

Lemma from_bits_to_bits_small (n : nat) (v : Z) :
  0 <= v < 2 ^ Z.of_nat n -> from_bits (to_bits n v) = v.
Proof.
  intros H. rewrite from_bits_to_bits. now apply Z.mod_small.
Qed.

Lemma from_bits_bound (l : list bool) : 0 <= from_bits l < 2 ^ Z.of_nat (length l).
Proof.
  induction l as [|b l IH].
  - simpl. lia.
  - cbn [from_bits length]. rewrite Nat2Z.inj_succ, Z.pow_succ_r by lia.
    destruct b; simpl Z.b2z; lia.
Qed.

Lemma firstn_exact {A : Type} (l r : list A) : firstn (length l) (l ++ r) = l.
Proof.
  induction l as [|a l IH]; simpl; [now destruct r|]. now rewrite IH.
Qed.

Lemma skipn_exact {A : Type} (l r : list A) : skipn (length l) (l ++ r) = r.
Proof.
  induction l as [|a l IH]; simpl; [reflexivity|]. exact IH.
Qed.

Lemma length_byte_bits (b : byte) : length (byte_bits b) = 8%nat.
Proof.
  unfold byte_bits.
  destruct (Byte.to_bits b) as (b0 & b1 & b2 & b3 & b4 & b5 & b6 & b7).
  reflexivity.
Qed.

Lemma byte_bits_of_bits (b0 b1 b2 b3 b4 b5 b6 b7 : bool) :
  byte_bits (Byte.of_bits (b0, (b1, (b2, (b3, (b4, (b5, (b6, b7)))))))) =
  [b0; b1; b2; b3; b4; b5; b6; b7].
Proof.
  unfold byte_bits. now rewrite Byte.to_bits_of_bits.
Qed.

Lemma length_bytes_bits (data : list byte) :
  length (bytes_bits data) = (8 * length data)%nat.
Proof.
  induction data as [|b r IH]; simpl; [reflexivity|].
  rewrite length_app, length_byte_bits, IH. lia.
Qed.

Lemma take_bytes_bytes_bits (data : list byte) (rest : list bool) :
  take_bytes (length data) (bytes_bits data ++ rest) = Some (data, rest).
Proof.
  induction data as [|b r IH]; [reflexivity|].
  cbn [length bytes_bits]. unfold byte_bits.
  destruct (Byte.to_bits b) as (b0 & b1 & b2 & b3 & b4 & b5 & b6 & b7) eqn:E.
  cbn [app take_bytes]. rewrite IH. rewrite <- E, Byte.of_bits_to_bits. reflexivity.
Qed.

Lemma take_bytes_length (n : nat) (l : list bool) content rest :
  take_bytes n l = Some (content, rest) ->
  length content = n /\ l = bytes_bits content ++ rest.
Proof.
  revert l content rest; induction n as [|n IH]; intros l content rest H.
  - simpl in H. inversion H; subst. split; reflexivity.
  - cbn [take_bytes] in H.
    destruct l as [|b0 [|b1 [|b2 [|b3 [|b4 [|b5 [|b6 [|b7 l]]]]]]]]; try discriminate.
    destruct (take_bytes n l) as [[bs rest']|] eqn:E; [|discriminate].
    injection H as Hc Hr. subst content rest.
    destruct (IH _ _ _ E) as [Hl Hb].
    split; [cbn [length]; now rewrite Hl|].
    change (b0 :: b1 :: b2 :: b3 :: b4 :: b5 :: b6 :: b7 :: l =
            (byte_bits (Byte.of_bits (b0, (b1, (b2, (b3, (b4, (b5, (b6, b7))))))))
             ++ bytes_bits bs) ++ rest').
    rewrite byte_bits_of_bits. cbn [app]. now rewrite Hb.
Qed.

Lemma cast_in_type (T : ctype) (z : Z) : in_type T z -> cast T z = z.
Proof.
  destruct T; unfold in_type, cast, wrap_signed, wrap_unsigned; intros H.
  - change (2 ^ (32 - 1)) with (2 ^ 31). rewrite Z.mod_small; lia.
  - apply Z.mod_small; lia.
  - apply Z.mod_small; lia.
Qed.

Lemma cast_range (T : ctype) (z : Z) : in_type T (cast T z).
Proof.
  destruct T; unfold in_type, cast, wrap_signed, wrap_unsigned.
  - change (2 ^ (32 - 1)) with (2 ^ 31).
    pose proof (Z.mod_pos_bound (z + 2 ^ 31) (2 ^ 32) ltac:(lia)). lia.
  - apply Z.mod_pos_bound; lia.
  - apply Z.mod_pos_bound; lia.
Qed.

Lemma bits_required_bound (min max : Z) :
  min < max ->
  0 < bits_required min max /\ max - min < 2 ^ bits_required min max.
Proof.
  intros H. unfold bits_required.
  destruct (Z.eqb_spec min max) as [->|_]; [lia|].
  pose proof (Z.log2_nonneg (max - min)).
  pose proof (Z.log2_spec (max - min) ltac:(lia)) as [_ Hs].
  rewrite <- Z.add_1_r in Hs. lia.
Qed.

(** ** Running the monad *)

Lemma bind_done {S A B : Type} (c : M S A) (k : A -> M S B) s a s' :
  c s = Done (a, s') -> bind c k s = k a s'.
Proof. unfold bind. now intros ->. Qed.

Lemma bind_ret {S A B : Type} (a : A) (k : A -> M S B) s :
  bind (ret a) k s = k a s.
Proof. reflexivity. Qed.

Lemma bind_same_first {S A B : Type} (c c' : M S A) (k : A -> M S B) s :
  c s = c' s -> bind c k s = bind c' k s.
Proof. unfold bind. now intros ->. Qed.

Lemma assert_true {S B : Type} (b : bool) (k : unit -> M S B) s :
  b = true -> bind (yojimbo_assert b) k s = k tt s.
Proof. intros ->. reflexivity. Qed.

Lemma assert_false {S B : Type} (b : bool) (k : unit -> M S B) s :
  b = false -> bind (yojimbo_assert b) k s = Aborted.
Proof. intros ->. reflexivity. Qed.

Lemma pow2_32 : 2 ^ 32 = 4294967296. Proof. reflexivity. Qed.
Lemma pow2_31 : 2 ^ 31 = 2147483648. Proof. reflexivity. Qed.
Lemma pow2_16 : 2 ^ 16 = 65536. Proof. reflexivity. Qed.

(** Turns the comparisons of a goal into propositions [lia] can use. *)
Ltac zbool :=
  repeat match goal with
    | |- context [?a <? ?b] => destruct (Z.ltb_spec a b)
    | |- context [?a <=? ?b] => destruct (Z.leb_spec a b)
    | |- context [?a >? ?b] => rewrite (Z.gtb_ltb a b)
    | |- context [?a >=? ?b] => rewrite (Z.geb_leb a b)
    | |- context [?a =? ?b] => destruct (Z.eqb_spec a b)
    end.

Ltac unfold_types :=
  unfold in_type, cast, wrap_signed, wrap_unsigned in *;
  change (2 ^ (32 - 1)) with 2147483648 in *;
  change (2 ^ 32) with 4294967296 in *;
  change (2 ^ 31) with 2147483648 in *;
  change (2 ^ 16) with 65536 in *.

Section Engines.

Variable check_pattern : list bool.

Local Abbreviation W := (WriteStream check_pattern).
Local Abbreviation R := (ReadStream check_pattern).
Local Abbreviation MW := (MeasureStreamWith check_pattern).

(** *** The bounded integer, bit-run and boolean directives, by mode *)

Lemma write_int (T : ctype) (value min max : Z) (s : list bool) :
  min < max -> min <= value <= max ->
  in_type int32_t min -> in_type int32_t max ->
  serialize_int W T value min max s =
  Done (value, s ++ to_bits (Z.to_nat (bits_required min max)) (value - min)).
Proof.
  intros Hlt Hv Hmin Hmax. unfold serialize_int.
  rewrite assert_true by lia. cbn [IsWriting IsReading WriteStream].
  unfold bind at 1. rewrite assert_true by lia. rewrite assert_true by lia.
  cbn [ret]. unfold bind. cbn [SerializeInteger WriteStream].
  rewrite (cast_in_type int32_t value) by (unfold_types; lia).
  rewrite cast_in_type by (unfold_types; lia). reflexivity.
Qed.

Lemma write_int_abort (T : ctype) (value min max : Z) (s : list bool) :
  value < min \/ max < value \/ max <= min ->
  serialize_int W T value min max s = Aborted.
Proof.
  intros H. unfold serialize_int.
  destruct (Z.ltb_spec min max) as [Hlt|Hge];
    [rewrite assert_true by reflexivity | now rewrite assert_false].
  cbn [IsWriting WriteStream]. unfold bind at 1.
  destruct (Z.leb_spec min value) as [Hlo|Hlo].
  - rewrite assert_true by lia. rewrite assert_false by lia. reflexivity.
  - rewrite assert_false by lia. reflexivity.
Qed.

(** What the read path of [serialize_int] does with the bits of a stream:
    the payload [p] is taken off, [min] is added, and the sum is accepted
    only inside the range. *)
Lemma read_int (T : ctype) (value0 min max : Z) (n : Z) (p rest : list bool) :
  min < max ->
  length p = Z.to_nat (bits_required min max) ->
  serialize_int R T value0 min max {| bits_read := n; unread := p ++ rest |} =
  let value := cast T (cast int32_t (min + from_bits p)) in
  if (value <? min) || (value >? max) then Failed
  else Done (value, {| bits_read := n + Z.of_nat (length p); unread := rest |}).
Proof.
  intros Hlt Hp. unfold serialize_int.
  rewrite assert_true by lia. cbn [IsWriting IsReading ReadStream].
  rewrite bind_ret. unfold bind. cbn [SerializeInteger ReadStream unread].
  rewrite <- Hp. rewrite length_app.
  replace (length p + length rest <? length p)%nat with false
    by (symmetry; apply Nat.ltb_ge; lia).
  rewrite firstn_exact. unfold consume. cbn [bits_read unread].
  rewrite skipn_exact. cbv zeta.
  destruct ((_ <? min) || (_ >? max)); reflexivity.
Qed.

Lemma read_int_short (T : ctype) (value0 min max : Z) (r : reader) :
  min < max ->
  (length (unread r) < Z.to_nat (bits_required min max))%nat ->
  serialize_int R T value0 min max r = Failed.
Proof.
  intros Hlt Hp. unfold serialize_int.
  rewrite assert_true by lia. cbn [IsWriting IsReading ReadStream].
  rewrite bind_ret. unfold bind. cbn [SerializeInteger ReadStream].
  replace (length (unread r) <? _)%nat with true
    by (symmetry; apply Nat.ltb_lt; lia).
  reflexivity.
Qed.

Lemma write_bits (T : ctype) (value bits : Z) (s : list bool) :
  0 < bits <= 32 ->
  serialize_bits W T value bits s =
  Done (value, s ++ to_bits (Z.to_nat bits) (cast uint32_t value)).
Proof.
  intros H. unfold serialize_bits.
  rewrite assert_true by lia. rewrite assert_true by lia. reflexivity.
Qed.

Lemma read_bits (T : ctype) (value0 bits : Z) (n : Z) (p rest : list bool) :
  0 < bits <= 32 ->
  length p = Z.to_nat bits ->
  serialize_bits R T value0 bits {| bits_read := n; unread := p ++ rest |} =
  Done (cast T (from_bits p),
        {| bits_read := n + Z.of_nat (length p); unread := rest |}).
Proof.
  intros H Hp. unfold serialize_bits.
  rewrite assert_true by lia. rewrite assert_true by lia.
  cbn [IsWriting IsReading ReadStream]. unfold bind.
  cbn [SerializeBits ReadStream unread].
  rewrite <- Hp. rewrite length_app.
  replace (length p + length rest <? length p)%nat with false
    by (symmetry; apply Nat.ltb_ge; lia).
  rewrite firstn_exact. unfold consume. cbn [bits_read unread].
  rewrite skipn_exact. reflexivity.
Qed.

Lemma write_bool (value : bool) (s : list bool) :
  serialize_bool W value s = Done (value, s ++ [value]).
Proof.
  unfold serialize_bool. cbn [IsWriting IsReading WriteStream].
  unfold bind. rewrite write_bits by lia. destruct value; reflexivity.
Qed.

Lemma read_bool (value0 : bool) (n : Z) (b : bool) (rest : list bool) :
  serialize_bool R value0 {| bits_read := n; unread := b :: rest |} =
  Done (b, {| bits_read := n + 1; unread := rest |}).
Proof.
  unfold serialize_bool. cbn [IsWriting IsReading ReadStream].
  unfold bind. change (b :: rest) with ([b] ++ rest).
  rewrite (read_bits uint32_t 0 1 n [b] rest) by (reflexivity || lia).
  destruct b; reflexivity.
Qed.

End Engines.

(** ** The delta codec *)

Ltac side := first [lia | unfold_types; lia | reflexivity].

Section Delta.

Variable check_pattern : list bool.

Local Abbreviation W := (WriteStream check_pattern).
Local Abbreviation R := (ReadStream check_pattern).

Lemma bind_write_bool {B : Type} (b : bool) (k : bool -> M (list bool) B) s :
  bind (serialize_bool W b) k s = k b (s ++ [b]).
Proof. apply bind_done, write_bool. Qed.

Lemma bind_write_int {B : Type} T value min max (k : Z -> M (list bool) B) s :
  min < max -> min <= value <= max ->
  in_type int32_t min -> in_type int32_t max ->
  bind (serialize_int W T value min max) k s =
  k value (s ++ to_bits (Z.to_nat (bits_required min max)) (value - min)).
Proof. intros. apply bind_done, write_int; assumption. Qed.

Lemma bind_read_bool {B : Type} (value0 b : bool) (k : bool -> M reader B) n rest :
  bind (serialize_bool R value0) k {| bits_read := n; unread := b :: rest |} =
  k b {| bits_read := n + 1; unread := rest |}.
Proof. apply bind_done, read_bool. Qed.

Lemma write_int_relative (previous current : Z) (s : list bool) :
  0 <= previous -> previous < current -> current < 2 ^ 32 ->
  serialize_int_relative_internal W previous current s =
  Done (current, s ++ delta_bits (current - previous) current).
Proof.
  intros H0 H1 H2. rewrite pow2_32 in H2.
  unfold serialize_int_relative_internal, delta_bits.
  cbn [IsWriting IsReading WriteStream].
  unfold bind at 1. rewrite assert_true by lia. cbn [ret].
  rewrite (cast_in_type uint32_t (current - previous)) by side.
  rewrite (cast_in_type uint32_t current) by side.
  set (D := current - previous).
  assert (1 <= D < 4294967296) by lia. clearbody D.
  rewrite bind_write_bool.
  destruct (Z.eqb_spec D 1); [reflexivity|].
  rewrite bind_write_bool.
  destruct (Z.leb_spec D 6).
  { rewrite bind_write_int by side. cbn [ret]. rewrite <- !app_assoc. reflexivity. }
  rewrite bind_write_bool.
  destruct (Z.leb_spec D 23).
  { rewrite bind_write_int by side. cbn [ret]. rewrite <- !app_assoc. reflexivity. }
  rewrite bind_write_bool.
  destruct (Z.leb_spec D 280).
  { rewrite bind_write_int by side. cbn [ret]. rewrite <- !app_assoc. reflexivity. }
  rewrite bind_write_bool.
  destruct (Z.leb_spec D 4377).
  { rewrite bind_write_int by side. cbn [ret]. rewrite <- !app_assoc. reflexivity. }
  rewrite bind_write_bool.
  destruct (Z.leb_spec D 69914).
  { rewrite bind_write_int by side. cbn [ret]. rewrite <- !app_assoc. reflexivity. }
  unfold serialize_uint32. unfold bind. rewrite write_bits by lia.
  rewrite (cast_in_type uint32_t current) by side.
  rewrite <- !app_assoc. reflexivity.
Qed.

Lemma write_int_relative_abort (previous current : Z) (s : list bool) :
  current <= previous ->
  serialize_int_relative_internal W previous current s = Aborted.
Proof.
  intros H. unfold serialize_int_relative_internal.
  cbn [IsWriting WriteStream]. unfold bind at 1.
  rewrite assert_false by lia. reflexivity.
Qed.

(** A payload read by [serialize_int] into the [uint32_t] difference. *)
Lemma read_difference (value0 min max n : Z) (p rest : list bool) :
  0 <= min -> min < max -> max < 2 ^ 30 ->
  length p = Z.to_nat (bits_required min max) ->
  serialize_int R uint32_t value0 min max {| bits_read := n; unread := p ++ rest |} =
  if min + from_bits p <=? max
  then Done (min + from_bits p,
             {| bits_read := n + Z.of_nat (length p); unread := rest |})
  else Failed.
Proof.
  intros H0 Hlt Hmax Hp. rewrite read_int by assumption. cbv zeta.
  pose proof (from_bits_bound p) as Hb. rewrite Hp in Hb.
  destruct (bits_required_bound min max Hlt) as [Hpos Hreq].
  rewrite Z2Nat.id in Hb by lia.
  assert (2 ^ bits_required min max <= 2 ^ 30).
  { unfold bits_required in *. destruct (min =? max); [lia|].
    apply Z.pow_le_mono_r; [lia|].
    assert (Z.log2 (max - min) < 30); [|lia].
    apply Z.log2_lt_pow2; lia. }
  change (2 ^ 30) with 1073741824 in *.
  rewrite (cast_in_type int32_t) by side.
  rewrite (cast_in_type uint32_t) by side.
  rewrite Z.gtb_ltb.
  destruct (Z.ltb_spec (min + from_bits p) min); [lia|].
  destruct (Z.ltb_spec max (min + from_bits p)), (Z.leb_spec (min + from_bits p) max);
    try lia; reflexivity.
Qed.

End Delta.

(** Two successful reads that differ only in how the position is written. *)
Ltac same_reader :=
  apply f_equal; apply f_equal2; [reflexivity|];
  apply f_equal2; [lia | reflexivity].

Section DeltaBuckets.

Variable check_pattern : list bool.

Local Abbreviation W := (WriteStream check_pattern).
Local Abbreviation R := (ReadStream check_pattern).

Lemma bind_read_difference {B : Type} (value0 min max n : Z) (p rest : list bool)
      (k : Z -> M reader B) :
  0 <= min -> min < max -> max < 2 ^ 30 ->
  length p = Z.to_nat (bits_required min max) ->
  bind (serialize_int R uint32_t value0 min max) k
       {| bits_read := n; unread := p ++ rest |} =
  if min + from_bits p <=? max
  then k (min + from_bits p)
         {| bits_read := n + Z.of_nat (length p); unread := rest |}
  else Failed.
Proof.
  intros. unfold bind. rewrite (read_difference check_pattern) by assumption.
  destruct (_ <=? _); reflexivity.
Qed.

(** The read path of the delta codec on a stream that opens with the flags
    of a bucket. *)
Lemma read_int_relative_bucket (previous current0 n : Z) (b : bucket)
      (payload rest : list bool) :
  In b bucket_table ->
  length payload = payload_width b ->
  serialize_int_relative_internal R previous current0
    {| bits_read := n;
       unread := repeat false (flag_count b - 1) ++ [true] ++ payload ++ rest |} =
  if range_lo b + from_bits payload <=? range_hi b
  then Done (cast uint32_t (previous + (range_lo b + from_bits payload)),
             {| bits_read := n + Z.of_nat (flag_count b + payload_width b);
                unread := rest |})
  else Failed.
Proof.
  intros Hin Hlen. unfold serialize_int_relative_internal.
  cbn [IsWriting IsReading ReadStream]. rewrite bind_ret. cbv zeta.
  cbn [In bucket_table] in Hin.
  destruct Hin as [<-|[<-|[<-|[<-|[<-|[<-|[]]]]]]];
    cbn [range_lo range_hi flag_count payload_width Nat.sub repeat app] in *;
    repeat rewrite bind_read_bool; cbv iota.
  - destruct payload; [|discriminate]. cbn [from_bits app].
    reflexivity.
  - rewrite bind_read_difference by (first [exact Hlen | side]).
    destruct (_ <=? _); [|reflexivity]. unfold ret. rewrite Hlen.
    same_reader.
  - rewrite bind_read_difference by (first [exact Hlen | side]).
    destruct (_ <=? _); [|reflexivity]. unfold ret. rewrite Hlen.
    same_reader.
  - rewrite bind_read_difference by (first [exact Hlen | side]).
    destruct (_ <=? _); [|reflexivity]. unfold ret. rewrite Hlen.
    same_reader.
  - rewrite bind_read_difference by (first [exact Hlen | side]).
    destruct (_ <=? _); [|reflexivity]. unfold ret. rewrite Hlen.
    same_reader.
  - rewrite bind_read_difference by (first [exact Hlen | side]).
    destruct (_ <=? _); [|reflexivity]. unfold ret. rewrite Hlen.
    same_reader.
Qed.

(** The write path of the delta codec for a difference in a bucket. *)
Lemma write_int_relative_bucket (previous current : Z) (s : list bool) (b : bucket) :
  0 <= previous -> previous < current -> current < 2 ^ 32 ->
  In b bucket_table ->
  range_lo b <= current - previous <= range_hi b ->
  serialize_int_relative_internal W previous current s =
  Done (current,
        s ++ repeat false (flag_count b - 1) ++ [true]
          ++ to_bits (payload_width b) (current - previous - range_lo b)).
Proof.
  intros H0 H1 H2 Hin HD. rewrite write_int_relative by assumption.
  unfold delta_bits. cbn [In bucket_table] in Hin.
  destruct Hin as [<-|[<-|[<-|[<-|[<-|[<-|[]]]]]]];
    cbn [range_lo range_hi flag_count payload_width Nat.sub repeat app] in *;
    zbool; try lia; reflexivity.
Qed.

End DeltaBuckets.

Section DeltaTable.

Variable check_pattern : list bool.

Local Abbreviation W := (WriteStream check_pattern).
Local Abbreviation R := (ReadStream check_pattern).

(** The rows of the table are in increasing order of difference, one
    starting right after the other, so at most one row matches a difference
    and it is the first one the writer's tests reach. *)
Lemma bucket_table_increasing :
  forall i b b', nth_error bucket_table i = Some b ->
                 nth_error bucket_table (Datatypes.S i) = Some b' ->
                 range_lo b <= range_hi b /\ range_lo b' = range_hi b + 1 /\
                 flag_count b' = Datatypes.S (flag_count b).
Proof.
  intros i b b' Hb Hb'.
  do 6 (destruct i as [|i]; [cbn in Hb, Hb'; inversion Hb; inversion Hb'; subst;
                             cbn; lia|]).
  destruct i; discriminate.
Qed.

(** C3: for a difference D = current - previous, previous < current, that
    falls in a row of the bucket table, the writer emits the row's number of
    flags (all false but the last) followed by D minus the low end of the
    row's range on the row's payload width (none for D = 1, then 3, 5, 9,
    13 and 17 bits); the reader, on a stream that opens with the flags of a
    row, takes the row's decoding path: it reads the row's payload width,
    adds the low end of the range and the previous value, and fails when
    that difference leaves the row's range. *)
Theorem delta_bucket_exactness (previous current : Z) (s : list bool) (b : bucket) :
  0 <= previous -> previous < current -> current < 2 ^ 32 ->
  In b bucket_table ->
  range_lo b <= current - previous <= range_hi b ->
  serialize_int_relative W previous current s =
    Done (current,
          s ++ repeat false (flag_count b - 1) ++ [true]
            ++ to_bits (payload_width b) (current - previous - range_lo b))
  /\ forall current0 n payload rest,
       length payload = payload_width b ->
       serialize_int_relative R previous current0
         {| bits_read := n;
            unread := repeat false (flag_count b - 1) ++ [true] ++ payload ++ rest |} =
       if range_lo b + from_bits payload <=? range_hi b
       then Done (cast uint32_t (previous + (range_lo b + from_bits payload)),
                  {| bits_read := n + Z.of_nat (flag_count b + payload_width b);
                     unread := rest |})
       else Failed.
Proof.
  intros H0 H1 H2 Hin HD. split.
  - now apply write_int_relative_bucket.
  - intros. now apply read_int_relative_bucket.
Qed.

(** The fallback of the write path. *)
Lemma write_int_relative_fallback (previous current : Z) (s : list bool) :
  0 <= previous -> current < 2 ^ 32 -> 69914 < current - previous ->
  serialize_int_relative_internal W previous current s =
  Done (current, s ++ repeat false 6 ++ to_bits 32 current).
Proof.
  intros H0 H2 HD. rewrite write_int_relative by lia.
  unfold delta_bits. zbool; try lia. reflexivity.
Qed.

(** C4, amended: for a difference above 69914 the writer emits the six
    flags, all false, and then the current value on 32 bits: 38 bits in
    all. *)
Theorem delta_fallback_cost (previous current : Z) (s : list bool) :
  0 <= previous -> current < 2 ^ 32 -> 69914 < current - previous ->
  serialize_int_relative W previous current s =
    Done (current, s ++ repeat false 6 ++ to_bits 32 current)
  /\ length (repeat false 6 ++ to_bits 32 current) = 38%nat.
Proof.
  intros H0 H2 HD. split.
  - now apply write_int_relative_fallback.
  - rewrite length_app, repeat_length, length_to_bits. reflexivity.
Qed.

End DeltaTable.

(** C3 at the difference 280, the top of the fourth row. *)
Lemma delta_bucket_exactness_witness :
  serialize_int_relative (WriteStream []) 1000 1280 [] =
    Done (1280, [false; false; false; true] ++ to_bits 9 256)
  /\ serialize_int_relative (ReadStream []) 1000 0
       {| bits_read := 0;
          unread := [false; false; false; true] ++ to_bits 9 256 ++ [true] |} =
     Done (1280, {| bits_read := 13; unread := [true] |}).
Proof.
  destruct (delta_bucket_exactness [] 1000 1280 [] (row 24 280 4 9))
    as [Hw Hr]; [lia | lia | reflexivity | | cbn; lia | ].
  - cbn. tauto.
  - split; [exact Hw|].
    exact (Hr 0 0 (to_bits 9 256) [true] eq_refl).
Defined.

(** C4 as stated fails: at previous = 0 and current = 69915 the fallback
    takes 38 bits, not 39. *)
Lemma delta_fallback_not_39_bits :
  serialize_int_relative (WriteStream []) 0 69915 [] =
    Done (69915, repeat false 6 ++ to_bits 32 69915)
  /\ length (repeat false 6 ++ to_bits 32 69915) <> 39%nat.
Proof.
  split; [vm_compute; reflexivity|]. vm_compute. discriminate.
Qed.

(** C4, amended, at previous = 0 and current = 69915. *)
Lemma delta_fallback_cost_witness :
  serialize_int_relative (WriteStream []) 0 69915 [] =
    Done (69915, repeat false 6 ++ to_bits 32 69915)
  /\ length (repeat false 6 ++ to_bits 32 69915) = 38%nat.
Proof.
  apply (delta_fallback_cost [] 0 69915 []); [lia | reflexivity | lia].
Defined.

(** ** Range rejection on the read path *)

Section RangeRejection.

Context {S : Type} (stream : Stream S).

Hypothesis reading : IsReading stream = true.
Hypothesis not_writing : IsWriting stream = false.

(** What [serialize_int] makes of the value the stream delivers. *)
Lemma serialize_int_reading (T : ctype) (value0 min max : Z) (s s' : S) (delivered : Z) :
  min < max ->
  SerializeInteger stream 0 min max s = Done (delivered, s') ->
  serialize_int stream T value0 min max s =
  if (cast T delivered <? min) || (cast T delivered >? max)
  then Failed else Done (cast T delivered, s').
Proof.
  intros Hlt Hd. unfold serialize_int.
  rewrite assert_true by lia. rewrite not_writing, reading.
  rewrite bind_ret. unfold bind. rewrite Hd.
  destruct (_ || _); reflexivity.
Qed.

(** C5, amended: in read mode, with min < max, when the stream's
    bounded-integer primitive delivers an [int32_t] outside [min,max],
    [serialize_int] returns false, for a value kept in a 32-bit variable
    (the kind every call of the header uses) or in any variable that can
    hold the delivered value; whatever the variable, it trips no assertion,
    does not trap, and accepts no value outside [min,max]. *)
Theorem serialize_int_range_rejection
        (T : ctype) (value0 min max : Z) (s s' : S) (delivered : Z) :
  min < max ->
  in_type int32_t min -> in_type int32_t max -> in_type int32_t delivered ->
  SerializeInteger stream 0 min max s = Done (delivered, s') ->
  delivered < min \/ max < delivered ->
  (width T = 32 \/ in_type T delivered ->
   serialize_int stream T value0 min max s = Failed)
  /\ (serialize_int stream T value0 min max s = Failed
      \/ exists value, serialize_int stream T value0 min max s = Done (value, s')
                       /\ min <= value <= max).
Proof.
  intros Hlt Hmin Hmax Hdel Hd Hout.
  rewrite (serialize_int_reading T value0 min max s s' delivered Hlt Hd).
  split.
  - intros HT.
    assert (cast T delivered < min \/ max < cast T delivered) as Hc.
    { destruct HT as [HT|HT].
      - destruct T; try discriminate HT.
        + rewrite cast_in_type by assumption. exact Hout.
        + unfold_types.
          destruct (Z.neg_nonneg_cases delivered) as [Hneg|Hpos].
          * right.
            replace (delivered mod 4294967296) with (delivered + 4294967296); [lia|].
            apply Z.mod_unique with (q := -1); lia.
          * rewrite Z.mod_small by lia. exact Hout.
      - rewrite cast_in_type by assumption. exact Hout. }
    rewrite Z.gtb_ltb.
    destruct (Z.ltb_spec (cast T delivered) min), (Z.ltb_spec max (cast T delivered));
      try reflexivity; lia.
  - rewrite Z.gtb_ltb.
    destruct (Z.ltb_spec (cast T delivered) min), (Z.ltb_spec max (cast T delivered));
      cbn [orb]; auto.
    right. exists (cast T delivered). split; [reflexivity | lia].
Qed.

End RangeRejection.

(** C5 as stated fails for a variable narrower than the delivered value:
    the range test is made on the variable, after the assignment has
    narrowed the value.  For a [uint16_t] variable and the range [0,70000],
    seventeen bits that deliver 70001 are taken as 4465 and the directive
    returns true. *)
Lemma narrowed_value_accepted :
  SerializeInteger (ReadStream []) 0 0 70000
    {| bits_read := 0; unread := to_bits 17 70001 |} =
    Done (70001, {| bits_read := 17; unread := [] |})
  /\ 70000 < 70001
  /\ serialize_int (ReadStream []) uint16_t 0 0 70000
       {| bits_read := 0; unread := to_bits 17 70001 |} =
     Done (4465, {| bits_read := 17; unread := [] |})
  /\ serialize_int (ReadStream []) uint16_t 0 0 70000
       {| bits_read := 0; unread := to_bits 17 70001 |} <> Failed.
Proof.
  assert (serialize_int (ReadStream []) uint16_t 0 0 70000
            {| bits_read := 0; unread := to_bits 17 70001 |} =
          Done (4465, {| bits_read := 17; unread := [] |})) as H
    by (vm_compute; reflexivity).
  split; [vm_compute; reflexivity|]. split; [lia|]. split; [exact H|].
  rewrite H. discriminate.
Qed.

(** C5, amended, on the read engine: three set bits for the range [2,6]
    deliver 9. *)
Lemma serialize_int_range_rejection_witness :
  serialize_int (ReadStream []) uint32_t 0 2 6
    {| bits_read := 0; unread := [true; true; true] |} = Failed.
Proof.
  refine (proj1 (serialize_int_range_rejection (ReadStream []) eq_refl eq_refl
                   uint32_t 0 2 6 {| bits_read := 0; unread := [true; true; true] |}
                   {| bits_read := 3; unread := [] |} 9 _ _ _ _ _ _) _).
  - lia.
  - cbn; lia.
  - cbn; lia.
  - cbn; lia.
  - reflexivity.
  - right; lia.
  - left; reflexivity.
Defined.

(** ** Round trip of the delta codec *)

Section DeltaRoundTrip.

Variable check_pattern : list bool.

Local Abbreviation W := (WriteStream check_pattern).
Local Abbreviation R := (ReadStream check_pattern).

Lemma read_int_relative_fallback (previous current0 n : Z) (payload rest : list bool) :
  length payload = 32%nat ->
  serialize_int_relative_internal R previous current0
    {| bits_read := n; unread := repeat false 6 ++ payload ++ rest |} =
  Done (from_bits payload, {| bits_read := n + 38; unread := rest |}).
Proof.
  intros Hlen. unfold serialize_int_relative_internal.
  cbn [IsWriting IsReading ReadStream]. rewrite bind_ret. cbv zeta.
  cbn [repeat app]. repeat rewrite bind_read_bool; cbv iota.
  unfold serialize_uint32, bind.
  rewrite read_bits by (first [exact Hlen | lia]).
  pose proof (from_bits_bound payload) as Hb. rewrite Hlen in Hb.
  change (2 ^ Z.of_nat 32) with 4294967296 in Hb.
  rewrite cast_in_type by side. unfold ret. rewrite Hlen. same_reader.
Qed.

Lemma length_delta_bits (difference current : Z) :
  (1 <= length (delta_bits difference current) <= 38)%nat.
Proof.
  unfold delta_bits.
  repeat match goal with |- context [if ?c then _ else _] => destruct c end;
    rewrite ?length_app, ?length_to_bits; cbn [length]; lia.
Qed.

Lemma read_int_relative_roundtrip (previous current current0 n : Z) (rest : list bool) :
  0 <= previous -> previous < current -> current < 2 ^ 32 ->
  serialize_int_relative_internal R previous current0
    {| bits_read := n; unread := delta_bits (current - previous) current ++ rest |} =
  Done (current,
        {| bits_read := n + Z.of_nat (length (delta_bits (current - previous) current));
           unread := rest |}).
Proof.
  intros H0 H1 H2. rewrite pow2_32 in H2. unfold delta_bits.
  set (D := current - previous). assert (1 <= D) by lia.
  assert (forall b payload,
             In b bucket_table -> length payload = payload_width b ->
             from_bits payload = D - range_lo b ->
             range_lo b <= D <= range_hi b ->
             serialize_int_relative_internal R previous current0
               {| bits_read := n;
                  unread := (repeat false (flag_count b - 1) ++ [true] ++ payload) ++ rest |} =
             Done (current,
                   {| bits_read :=
                        n + Z.of_nat (length (repeat false (flag_count b - 1)
                                                ++ [true] ++ payload));
                      unread := rest |})) as Hrow.
  { intros b payload Hin Hlen Hval Hrange.
    rewrite <- !app_assoc.
    rewrite (read_int_relative_bucket check_pattern) by assumption.
    rewrite Hval.
    destruct (Z.leb_spec (range_lo b + (D - range_lo b)) (range_hi b)); [|lia].
    rewrite cast_in_type by (unfold D; side).
    rewrite !length_app, repeat_length, Hlen. cbn [length].
    apply f_equal; apply f_equal2; [unfold D; lia|].
    apply f_equal2; [|reflexivity].
    assert (In b bucket_table) as Hin' by assumption.
    cbn [In bucket_table] in Hin'.
    destruct Hin' as [<-|[<-|[<-|[<-|[<-|[<-|[]]]]]]]; cbn; lia. }
  destruct (Z.eqb_spec D 1) as [HD|HD].
  { apply (Hrow (row 1 1 1 0) []); cbn; try tauto; lia. }
  destruct (Z.leb_spec D 6).
  { apply (Hrow (row 2 6 2 3) (to_bits 3 (D - 2)));
      [cbn; tauto | apply length_to_bits
       | rewrite from_bits_to_bits_small; cbn; lia | cbn; lia]. }
  destruct (Z.leb_spec D 23).
  { apply (Hrow (row 7 23 3 5) (to_bits 5 (D - 7)));
      [cbn; tauto | apply length_to_bits
       | rewrite from_bits_to_bits_small; cbn; lia | cbn; lia]. }
  destruct (Z.leb_spec D 280).
  { apply (Hrow (row 24 280 4 9) (to_bits 9 (D - 24)));
      [cbn; tauto | apply length_to_bits
       | rewrite from_bits_to_bits_small; cbn; lia | cbn; lia]. }
  destruct (Z.leb_spec D 4377).
  { apply (Hrow (row 281 4377 5 13) (to_bits 13 (D - 281)));
      [cbn; tauto | apply length_to_bits
       | rewrite from_bits_to_bits_small; cbn; lia | cbn; lia]. }
  destruct (Z.leb_spec D 69914).
  { apply (Hrow (row 4378 69914 6 17) (to_bits 17 (D - 4378)));
      [cbn; tauto | apply length_to_bits
       | rewrite from_bits_to_bits_small; cbn; lia | cbn; lia]. }
  change [false; false; false; false; false; false] with (repeat false 6).
  rewrite <- app_assoc.
  rewrite read_int_relative_fallback by apply length_to_bits.
  rewrite from_bits_to_bits_small by (cbn; lia).
  rewrite length_app, repeat_length, length_to_bits. same_reader.
Qed.

End DeltaRoundTrip.

(** ** The ack-relative codec *)

Lemma ack_delta_range (sequence ack : Z) :
  in_type uint16_t sequence -> in_type uint16_t ack ->
  1 <= ack_delta sequence ack <= 65536.
Proof.
  unfold ack_delta. intros Hs Ha. unfold_types.
  destruct (Z.ltb_spec ack sequence); lia.
Qed.

Lemma ack_delta_inverse (sequence ack : Z) :
  in_type uint16_t sequence -> in_type uint16_t ack ->
  cast uint16_t (sequence - ack_delta sequence ack) = ack.
Proof.
  unfold ack_delta. intros Hs Ha. unfold_types.
  destruct (Z.ltb_spec ack sequence).
  - replace (sequence - (sequence - ack)) with ack by lia.
    apply Z.mod_small; lia.
  - symmetry. apply Z.mod_unique with (q := -1); lia.
Qed.

Section AckRelative.

Variable check_pattern : list bool.

Local Abbreviation W := (WriteStream check_pattern).
Local Abbreviation R := (ReadStream check_pattern).

Lemma write_ack_relative (sequence ack : Z) (s : list bool) :
  in_type uint16_t sequence -> in_type uint16_t ack ->
  serialize_ack_relative_internal W sequence ack s =
  Done (ack, s ++ ack_bits sequence ack).
Proof.
  intros Hs Ha.
  pose proof (ack_delta_range sequence ack Hs Ha) as Hr.
  pose proof (ack_delta_inverse sequence ack Hs Ha) as Hi.
  unfold serialize_ack_relative_internal, ack_bits.
  cbn [IsWriting IsReading WriteStream].
  replace (if ack <? sequence then cast int32_t (sequence - ack)
           else cast int32_t (sequence + 65536 - ack))
    with (ack_delta sequence ack).
  2:{ unfold ack_delta. destruct (ack <? sequence);
      rewrite cast_in_type; try reflexivity; unfold_types; lia. }
  set (delta := ack_delta sequence ack) in *. clearbody delta.
  unfold bind at 1. rewrite assert_true by lia.
  rewrite assert_true by (apply Z.eqb_eq; exact Hi).
  cbn [ret fst snd]. rewrite bind_write_bool.
  destruct (Z.leb_spec 1 delta); [|lia]. cbn [andb].
  destruct (Z.leb_spec delta 64).
  - rewrite bind_write_int by side. unfold ret. rewrite <- app_assoc. reflexivity.
  - rewrite write_bits by lia. rewrite cast_in_type by side.
    rewrite <- app_assoc. reflexivity.
Qed.

Lemma read_ack_relative_in_range (sequence ack0 n : Z) (payload rest : list bool) :
  length payload = 6%nat ->
  serialize_ack_relative_internal R sequence ack0
    {| bits_read := n; unread := [true] ++ payload ++ rest |} =
  Done (cast uint16_t (sequence - (1 + from_bits payload)),
        {| bits_read := n + 7; unread := rest |}).
Proof.
  intros Hlen. unfold serialize_ack_relative_internal.
  cbn [IsWriting IsReading ReadStream]. rewrite bind_ret. cbn [fst snd app].
  rewrite bind_read_bool. cbv iota.
  unfold bind. rewrite read_int by (first [exact Hlen | lia]). cbv zeta.
  pose proof (from_bits_bound payload) as Hb. rewrite Hlen in Hb.
  change (2 ^ Z.of_nat 6) with 64 in Hb.
  rewrite (cast_in_type int32_t (1 + from_bits payload)) by side.
  rewrite (cast_in_type int32_t (1 + from_bits payload)) by side.
  rewrite Z.gtb_ltb.
  destruct (Z.ltb_spec (1 + from_bits payload) 1); [lia|].
  destruct (Z.ltb_spec 64 (1 + from_bits payload)); [lia|].
  cbn [orb]. unfold ret. rewrite Hlen. same_reader.
Qed.

Lemma read_ack_relative_raw (sequence ack0 n : Z) (payload rest : list bool) :
  length payload = 16%nat ->
  serialize_ack_relative_internal R sequence ack0
    {| bits_read := n; unread := [false] ++ payload ++ rest |} =
  Done (from_bits payload, {| bits_read := n + 17; unread := rest |}).
Proof.
  intros Hlen. unfold serialize_ack_relative_internal.
  cbn [IsWriting IsReading ReadStream]. rewrite bind_ret. cbn [fst snd app].
  rewrite bind_read_bool. cbv iota.
  rewrite read_bits by (first [exact Hlen | lia]).
  pose proof (from_bits_bound payload) as Hb. rewrite Hlen in Hb.
  change (2 ^ Z.of_nat 16) with 65536 in Hb.
  rewrite cast_in_type by side. rewrite Hlen. same_reader.
Qed.

Lemma read_ack_relative_roundtrip (sequence ack ack0 n : Z) (rest : list bool) :
  in_type uint16_t sequence -> in_type uint16_t ack ->
  serialize_ack_relative_internal R sequence ack0
    {| bits_read := n; unread := ack_bits sequence ack ++ rest |} =
  Done (ack, {| bits_read := n + Z.of_nat (length (ack_bits sequence ack));
                unread := rest |}).
Proof.
  intros Hs Ha.
  pose proof (ack_delta_range sequence ack Hs Ha) as Hr.
  pose proof (ack_delta_inverse sequence ack Hs Ha) as Hi.
  unfold ack_bits. destruct (Z.leb_spec 1 (ack_delta sequence ack)); [|lia].
  cbn [andb]. destruct (Z.leb_spec (ack_delta sequence ack) 64).
  - rewrite <- app_assoc.
    rewrite read_ack_relative_in_range by apply length_to_bits.
    rewrite from_bits_to_bits_small by (cbn; lia).
    replace (1 + (ack_delta sequence ack - 1)) with (ack_delta sequence ack) by lia.
    rewrite Hi. cbn [app length]. rewrite length_to_bits. same_reader.
  - rewrite <- app_assoc.
    rewrite read_ack_relative_raw by apply length_to_bits.
    rewrite from_bits_to_bits_small by (unfold_types; cbn; lia).
    cbn [app length]. rewrite length_to_bits. same_reader.
Qed.

End AckRelative.

Section AckProperties.

Variable check_pattern : list bool.

Local Abbreviation W := (WriteStream check_pattern).
Local Abbreviation R := (ReadStream check_pattern).

(** C7: for 16-bit [sequence] and [ack], with delta = sequence - ack when
    ack < sequence and sequence + 65536 - ack otherwise, the writer emits a
    true flag and delta as a bounded integer of [1,64] on 6 bits when delta
    is in [1,64], and a false flag and the 16 bits of ack otherwise; the
    reader turns a true flag and a 6-bit delta into sequence - delta modulo
    65536 and a false flag into the 16 bits that follow; reading what was
    written gives ack back. *)
Theorem ack_relative_codec (sequence ack : Z) :
  in_type uint16_t sequence -> in_type uint16_t ack ->
  let delta := if ack <? sequence then sequence - ack else sequence + 65536 - ack in
  (forall s,
      serialize_ack_relative W sequence ack s =
      Done (ack,
            s ++ (if (1 <=? delta) && (delta <=? 64)
                  then [true] ++ to_bits 6 (delta - 1)
                  else [false] ++ to_bits 16 ack)))
  /\ (forall ack0 n payload rest,
         length payload = 6%nat ->
         serialize_ack_relative R sequence ack0
           {| bits_read := n; unread := [true] ++ payload ++ rest |} =
         Done ((sequence - (1 + from_bits payload)) mod 65536,
               {| bits_read := n + 7; unread := rest |}))
  /\ (forall ack0 n payload rest,
         length payload = 16%nat ->
         serialize_ack_relative R sequence ack0
           {| bits_read := n; unread := [false] ++ payload ++ rest |} =
         Done (from_bits payload, {| bits_read := n + 17; unread := rest |}))
  /\ (forall ack0 n rest,
         exists bits,
           serialize_ack_relative W sequence ack [] = Done (ack, bits)
           /\ serialize_ack_relative R sequence ack0
                {| bits_read := n; unread := bits ++ rest |} =
              Done (ack, {| bits_read := n + Z.of_nat (length bits); unread := rest |})).
Proof.
  intros Hs Ha delta. repeat split.
  - intros s. apply write_ack_relative; assumption.
  - intros. now apply read_ack_relative_in_range.
  - intros. now apply read_ack_relative_raw.
  - intros ack0 n rest. exists (ack_bits sequence ack). split.
    + exact (write_ack_relative check_pattern sequence ack [] Hs Ha).
    + apply read_ack_relative_roundtrip; assumption.
Qed.

(** C10: the write path of the ack-relative codec accepts every 16-bit
    pair: the delta it computes is in [1,65536], sequence - delta cut to 16
    bits is ack, so both assertions hold and the call returns true; when
    ack = sequence the delta is 65536, the flag is false, the 16 bits of
    ack follow, and the reader gets ack back. *)
Theorem ack_relative_write_total (sequence ack : Z) :
  in_type uint16_t sequence -> in_type uint16_t ack ->
  1 <= ack_delta sequence ack <= 65536
  /\ (ack_delta sequence ack >? 0) = true
  /\ (cast uint16_t (sequence - ack_delta sequence ack) =? ack) = true
  /\ (forall s, exists bits,
         serialize_ack_relative W sequence ack s = Done (ack, s ++ bits))
  /\ (ack = sequence ->
      ack_delta sequence ack = 65536
      /\ (forall s, serialize_ack_relative W sequence ack s =
                    Done (ack, s ++ [false] ++ to_bits 16 ack))
      /\ forall ack0 n rest,
           serialize_ack_relative R sequence ack0
             {| bits_read := n; unread := ([false] ++ to_bits 16 ack) ++ rest |} =
           Done (ack, {| bits_read := n + 17; unread := rest |})).
Proof.
  intros Hs Ha.
  pose proof (ack_delta_range sequence ack Hs Ha) as Hr.
  pose proof (ack_delta_inverse sequence ack Hs Ha) as Hi.
  split; [exact Hr|]. split; [apply Z.gtb_lt; lia|].
  split; [apply Z.eqb_eq; exact Hi|]. split.
  - intros s. exists (ack_bits sequence ack). now apply write_ack_relative.
  - intros ->.
    assert (ack_delta sequence sequence = 65536) as Hd.
    { unfold ack_delta. rewrite Z.ltb_irrefl. lia. }
    assert (ack_bits sequence sequence = [false] ++ to_bits 16 sequence) as Hbits.
    { unfold ack_bits. rewrite Hd. reflexivity. }
    split; [exact Hd|]. split.
    + intros s. rewrite <- Hbits. now apply write_ack_relative.
    + intros ack0 n rest. rewrite <- Hbits.
      unfold serialize_ack_relative.
      rewrite read_ack_relative_roundtrip by assumption.
      rewrite Hbits. cbn [app length]. rewrite length_to_bits. same_reader.
Qed.

End AckProperties.

(** C7 at the two pairs of the specification: sequence 10 and ack 65530 take
    the in-range path with delta 16, sequence 100 and ack 0 the raw path, and
    both come back. *)
Lemma ack_relative_codec_witness :
  (serialize_ack_relative (WriteStream []) 10 65530 [] =
     Done (65530, [true] ++ to_bits 6 (16 - 1))
   /\ serialize_ack_relative (ReadStream []) 10 0
        {| bits_read := 0; unread := [true] ++ to_bits 6 (16 - 1) ++ [] |} =
      Done (65530, {| bits_read := 7; unread := [] |}))
  /\ (serialize_ack_relative (WriteStream []) 100 0 [] =
        Done (0, [false] ++ to_bits 16 0)
      /\ serialize_ack_relative (ReadStream []) 100 12345
           {| bits_read := 0; unread := [false] ++ to_bits 16 0 ++ [] |} =
         Done (0, {| bits_read := 17; unread := [] |})).
Proof.
  split.
  - destruct (ack_relative_codec [] 10 65530) as (Hw & Hr & _ & _);
      [cbn; lia | cbn; lia |].
    split; [exact (Hw []) | exact (Hr 0 0 (to_bits 6 15) [] eq_refl)].
  - destruct (ack_relative_codec [] 100 0) as (Hw & _ & Hr & _);
      [cbn; lia | cbn; lia |].
    split; [exact (Hw []) | exact (Hr 12345 0 (to_bits 16 0) [] eq_refl)].
Defined.

(** C10 at ack = sequence = 100. *)
Lemma ack_relative_write_total_witness :
  ack_delta 100 100 = 65536
  /\ serialize_ack_relative (WriteStream []) 100 100 [] =
     Done (100, [false] ++ to_bits 16 100).
Proof.
  destruct (ack_relative_write_total [] 100 100) as (_ & _ & _ & _ & Heq);
    [cbn; lia | cbn; lia |].
  destruct (Heq eq_refl) as (Hd & Hw & _).
  split; [exact Hd | exact (Hw [])].
Defined.

(** ** The sequence-relative codec *)

Lemma lifted_value (sequence1 sequence2 : Z) :
  in_type uint16_t sequence1 -> in_type uint16_t sequence2 ->
  lifted sequence1 sequence2 =
  sequence2 + (if sequence1 >? sequence2 then 65536 else 0).
Proof.
  intros H1 H2. unfold lifted. apply cast_in_type.
  rewrite Z.gtb_ltb. destruct (Z.ltb_spec sequence2 sequence1); unfold_types; lia.
Qed.

Lemma lifted_above (sequence1 sequence2 : Z) :
  in_type uint16_t sequence1 -> in_type uint16_t sequence2 ->
  sequence1 <> sequence2 ->
  sequence1 < lifted sequence1 sequence2 < 2 ^ 32
  /\ lifted sequence1 sequence2 - sequence1 <= 65535.
Proof.
  intros H1 H2 Hne. rewrite lifted_value by assumption.
  rewrite Z.gtb_ltb. destruct (Z.ltb_spec sequence2 sequence1); unfold_types; lia.
Qed.

Lemma lifted_equal (sequence : Z) :
  in_type uint16_t sequence -> lifted sequence sequence = sequence.
Proof.
  intros H. rewrite lifted_value by assumption.
  rewrite Z.gtb_ltb, Z.ltb_irrefl. lia.
Qed.

Section SequenceRelative.

Variable check_pattern : list bool.

Local Abbreviation W := (WriteStream check_pattern).
Local Abbreviation R := (ReadStream check_pattern).

Lemma write_sequence_relative (sequence1 sequence2 : Z) (s : list bool) :
  in_type uint16_t sequence1 -> in_type uint16_t sequence2 ->
  sequence1 <> sequence2 ->
  serialize_sequence_relative_internal W sequence1 sequence2 s =
  Done (sequence2,
        s ++ delta_bits (lifted sequence1 sequence2 - sequence1)
                        (lifted sequence1 sequence2)).
Proof.
  intros H1 H2 Hne.
  destruct (lifted_above sequence1 sequence2 H1 H2 Hne) as [Hl _].
  unfold serialize_sequence_relative_internal. cbn [IsWriting WriteStream].
  rewrite (cast_in_type uint32_t sequence1) by side.
  unfold serialize_int_relative, bind.
  rewrite write_int_relative by side. reflexivity.
Qed.

Lemma write_sequence_relative_equal (sequence : Z) (s : list bool) :
  in_type uint16_t sequence ->
  serialize_sequence_relative_internal W sequence sequence s = Aborted.
Proof.
  intros H. unfold serialize_sequence_relative_internal.
  cbn [IsWriting WriteStream].
  rewrite (cast_in_type uint32_t sequence) by side.
  unfold serialize_int_relative, bind.
  rewrite write_int_relative_abort; [reflexivity|].
  rewrite lifted_equal by assumption. lia.
Qed.

Lemma read_sequence_relative_roundtrip
      (sequence1 sequence2 sequence0 n : Z) (rest : list bool) :
  in_type uint16_t sequence1 -> in_type uint16_t sequence2 ->
  sequence1 <> sequence2 ->
  serialize_sequence_relative_internal R sequence1 sequence0
    {| bits_read := n;
       unread := delta_bits (lifted sequence1 sequence2 - sequence1)
                            (lifted sequence1 sequence2) ++ rest |} =
  Done (sequence2,
        {| bits_read :=
             n + Z.of_nat (length (delta_bits (lifted sequence1 sequence2 - sequence1)
                                              (lifted sequence1 sequence2)));
           unread := rest |}).
Proof.
  intros H1 H2 Hne.
  destruct (lifted_above sequence1 sequence2 H1 H2 Hne) as [Hl _].
  unfold serialize_sequence_relative_internal. cbn [IsWriting ReadStream].
  rewrite (cast_in_type uint32_t sequence1) by side.
  unfold serialize_int_relative, bind.
  rewrite read_int_relative_roundtrip by side.
  unfold ret. apply f_equal. apply f_equal2; [|reflexivity].
  rewrite lifted_value by assumption. rewrite Z.gtb_ltb, Z.geb_leb.
  destruct (Z.ltb_spec sequence2 sequence1).
  - destruct (Z.leb_spec 65536 (sequence2 + 65536)); [|unfold_types; lia].
    replace (sequence2 + 65536 - 65536) with sequence2 by lia.
    rewrite (cast_in_type uint32_t) by side. now apply cast_in_type.
  - destruct (Z.leb_spec 65536 (sequence2 + 0)); [unfold_types; lia|].
    replace (sequence2 + 0) with sequence2 by lia. now apply cast_in_type.
Qed.

(** C8: for 16-bit sequence numbers whose lifted value sequence2 + 65536
    (when sequence1 > sequence2) or sequence2 (otherwise) is above
    sequence1, the write path succeeds and the read path, given the same
    sequence1 and the bits written, restores sequence2. *)
Theorem sequence_relative_roundtrip
        (sequence1 sequence2 sequence0 n : Z) (rest : list bool) :
  in_type uint16_t sequence1 -> in_type uint16_t sequence2 ->
  sequence1 < sequence2 + (if sequence1 >? sequence2 then 65536 else 0) ->
  exists bits,
    serialize_sequence_relative W sequence1 sequence2 [] = Done (sequence2, bits)
    /\ serialize_sequence_relative R sequence1 sequence0
         {| bits_read := n; unread := bits ++ rest |} =
       Done (sequence2, {| bits_read := n + Z.of_nat (length bits); unread := rest |}).
Proof.
  intros H1 H2 Hl.
  assert (sequence1 <> sequence2) as Hne.
  { intros ->. rewrite Z.gtb_ltb, Z.ltb_irrefl in Hl. lia. }
  eexists. split.
  - apply (write_sequence_relative sequence1 sequence2 []); assumption.
  - apply read_sequence_relative_roundtrip; assumption.
Qed.

(** C9: the write path of the sequence-relative codec needs sequence1 and
    sequence2 to differ.  When they are equal the lifted value is sequence1
    itself, the assertion previous < current of the delta codec is false and
    the call aborts; when they differ the lifted value is above sequence1
    and the call returns true. *)
Theorem sequence_relative_write_precondition (sequence1 sequence2 : Z) :
  in_type uint16_t sequence1 -> in_type uint16_t sequence2 ->
  (sequence1 = sequence2 ->
   lifted sequence1 sequence2 = sequence1
   /\ (cast uint32_t sequence1 <? lifted sequence1 sequence2) = false
   /\ forall s, serialize_sequence_relative W sequence1 sequence2 s = Aborted)
  /\ (sequence1 <> sequence2 ->
      sequence1 < lifted sequence1 sequence2
      /\ (cast uint32_t sequence1 <? lifted sequence1 sequence2) = true
      /\ forall s, exists bits,
           serialize_sequence_relative W sequence1 sequence2 s =
           Done (sequence2, s ++ bits)).
Proof.
  intros H1 H2. split.
  - intros <-. rewrite lifted_equal by assumption.
    rewrite (cast_in_type uint32_t sequence1) by side.
    split; [reflexivity|]. split; [apply Z.ltb_irrefl|].
    intros s. now apply write_sequence_relative_equal.
  - intros Hne.
    destruct (lifted_above sequence1 sequence2 H1 H2 Hne) as [Hl _].
    rewrite (cast_in_type uint32_t sequence1) by side.
    split; [lia|]. split; [apply Z.ltb_lt; lia|].
    intros s. eexists. now apply write_sequence_relative.
Qed.

End SequenceRelative.

(** C8 at the pair of the specification: sequence1 65530, sequence2 10. *)
Lemma sequence_relative_roundtrip_witness :
  exists bits,
    serialize_sequence_relative (WriteStream []) 65530 10 [] = Done (10, bits)
    /\ serialize_sequence_relative (ReadStream []) 65530 0
         {| bits_read := 0; unread := bits ++ [] |} =
       Done (10, {| bits_read := 0 + Z.of_nat (length bits); unread := [] |}).
Proof.
  apply (sequence_relative_roundtrip [] 65530 10 0 0 []); cbn; lia.
Defined.

(** C9 at sequence1 = sequence2 = 7 and at the pair 7, 8. *)
Lemma sequence_relative_write_precondition_witness :
  serialize_sequence_relative (WriteStream []) 7 7 [] = Aborted
  /\ exists bits, serialize_sequence_relative (WriteStream []) 7 8 [] = Done (8, [] ++ bits).
Proof.
  split.
  - destruct (sequence_relative_write_precondition [] 7 7) as [Heq _];
      [cbn; lia | cbn; lia |].
    destruct (Heq eq_refl) as (_ & _ & Ha). exact (Ha []).
  - destruct (sequence_relative_write_precondition [] 7 8) as [_ Hne];
      [cbn; lia | cbn; lia |].
    destruct (Hne ltac:(lia)) as (_ & _ & Hd). exact (Hd []).
Defined.

(** ** Strings *)

Lemma strlen_c_string (buffer : list byte) (n : Z) :
  strlen buffer = Some n ->
  n = Z.of_nat (length (c_string buffer))
  /\ firstn (Z.to_nat n) buffer = c_string buffer
  /\ buffer = c_string buffer ++ x00 :: skipn (Datatypes.S (Z.to_nat n)) buffer.
Proof.
  revert n; induction buffer as [|c r IH]; intros n H; [discriminate|].
  cbn [strlen c_string] in *.
  destruct (Byte.eqb c x00) eqn:E.
  - inversion H; subst. apply Byte.byte_dec_bl in E. subst c.
    repeat split; reflexivity.
  - destruct (strlen r) as [m|]; [|discriminate].
    inversion H; subst. destruct (IH m eq_refl) as (Hm & Hf & Hb).
    assert (0 <= m) by lia.
    replace (Z.to_nat (m + 1)) with (Datatypes.S (Z.to_nat m)) by lia.
    repeat split.
    + cbn [length]. lia.
    + cbn [firstn]. now rewrite Hf.
    + cbn [skipn app]. f_equal. exact Hb.
Qed.

Lemma strlen_bound (buffer : list byte) (n : Z) :
  strlen buffer = Some n -> 0 <= n < Z.of_nat (length buffer).
Proof.
  intros H. destruct (strlen_c_string buffer n H) as (Hn & _ & Hb).
  apply (f_equal (@length byte)) in Hb. rewrite length_app in Hb.
  cbn [length] in Hb. lia.
Qed.

Lemma c_string_no_nul (buffer tail : list byte) :
  c_string (c_string buffer ++ x00 :: tail) = c_string buffer.
Proof.
  induction buffer as [|c r IH]; [reflexivity|].
  cbn [c_string]. destruct (Byte.eqb c x00) eqn:E; [reflexivity|].
  cbn [app c_string]. rewrite E. now rewrite IH.
Qed.

Lemma strlen_terminated (text tail : list byte) :
  c_string text = text ->
  strlen (text ++ x00 :: tail) = Some (Z.of_nat (length text)).
Proof.
  induction text as [|c r IH]; intros H; [reflexivity|].
  cbn [c_string] in H. cbn [app strlen].
  destruct (Byte.eqb c x00); [discriminate|].
  injection H as H. rewrite (IH H). cbn [length]. f_equal. lia.
Qed.

Lemma c_string_idempotent (buffer : list byte) :
  c_string (c_string buffer) = c_string buffer.
Proof.
  induction buffer as [|c r IH]; [reflexivity|].
  cbn [c_string]. destruct (Byte.eqb c x00) eqn:E; [reflexivity|].
  cbn [c_string]. rewrite E. now rewrite IH.
Qed.

Section Strings.

Variable check_pattern : list bool.

Local Abbreviation W := (WriteStream check_pattern).
Local Abbreviation R := (ReadStream check_pattern).

Lemma write_string (string : list byte) (buffer_size n : Z) (s : list bool) :
  strlen string = Some n -> n < buffer_size - 1 -> buffer_size <= 2 ^ 31 ->
  serialize_string_internal W string buffer_size s =
  Done (string, s ++ string_bits string buffer_size).
Proof.
  intros Hn Hlt Hbs. rewrite pow2_31 in Hbs.
  pose proof (strlen_bound string n Hn) as Hb.
  destruct (strlen_c_string string n Hn) as (Hlen & Hfirst & _).
  unfold serialize_string_internal, string_bits.
  cbn [IsWriting IsReading WriteStream].
  unfold bind at 1. unfold bind at 1. unfold c_strlen at 1. rewrite Hn.
  cbv zeta. rewrite (cast_in_type int32_t n) by side.
  rewrite assert_true by lia. cbn [ret].
  rewrite bind_write_int by side.
  unfold serialize_bytes, serialize_bytes_internal, bind.
  cbn [SerializeBytes WriteStream].
  rewrite Z.gtb_ltb. destruct (Z.ltb_spec (Z.of_nat (length string)) n); [lia|].
  unfold ret. rewrite Hfirst, <- Hlen, Z.sub_0_r, <- app_assoc. reflexivity.
Qed.

Lemma write_string_abort (string : list byte) (buffer_size n : Z) (s : list bool) :
  strlen string = Some n -> buffer_size - 1 <= n -> n < 2 ^ 31 ->
  serialize_string_internal W string buffer_size s = Aborted.
Proof.
  intros Hn Hge Hint. rewrite pow2_31 in Hint.
  pose proof (strlen_bound string n Hn) as Hb.
  unfold serialize_string_internal.
  cbn [IsWriting IsReading WriteStream].
  unfold bind at 1. unfold bind at 1. unfold c_strlen at 1. rewrite Hn.
  cbv zeta. rewrite (cast_in_type int32_t n) by side.
  rewrite assert_false by lia. reflexivity.
Qed.

Lemma read_string (buffer0 : list byte) (buffer_size n : Z)
      (p : list bool) (content : list byte) (rest : list bool) :
  1 < buffer_size -> buffer_size <= 2 ^ 31 ->
  Z.of_nat (length buffer0) = buffer_size ->
  length p = Z.to_nat (bits_required 0 (buffer_size - 1)) ->
  from_bits p = Z.of_nat (length content) ->
  from_bits p <= buffer_size - 1 ->
  serialize_string_internal R buffer0 buffer_size
    {| bits_read := n; unread := p ++ bytes_bits content ++ rest |} =
  Done (content ++ x00 :: skipn (Datatypes.S (length content)) buffer0,
        {| bits_read := n + Z.of_nat (length p + 8 * length content);
           unread := rest |}).
Proof.
  intros Hbs Hmax Hcap Hp Hval Hle. rewrite pow2_31 in Hmax.
  unfold serialize_string_internal.
  cbn [IsWriting IsReading ReadStream]. rewrite bind_ret.
  unfold bind at 1. rewrite read_int by (first [exact Hp | lia]). cbv zeta.
  rewrite Z.add_0_l, Hval.
  rewrite (cast_in_type int32_t (Z.of_nat (length content))) by side.
  rewrite (cast_in_type int32_t (Z.of_nat (length content))) by side.
  rewrite Z.gtb_ltb.
  destruct (Z.ltb_spec (Z.of_nat (length content)) 0); [lia|].
  destruct (Z.ltb_spec (buffer_size - 1) (Z.of_nat (length content))); [lia|].
  cbn [orb]. unfold serialize_bytes, serialize_bytes_internal, bind.
  cbn [SerializeBytes ReadStream unread]. rewrite Nat2Z.id.
  rewrite take_bytes_bytes_bits.
  rewrite Z.gtb_ltb.
  destruct (Z.ltb_spec (Z.of_nat (length buffer0)) (Z.of_nat (length content))); [lia|].
  unfold store.
  rewrite length_app, length_skipn.
  replace ((0 <=? Z.of_nat (length content))
           && (Z.of_nat (length content)
               <? Z.of_nat (length content + (length buffer0 - length content))))
    with true
    by (symmetry; apply andb_true_iff; split;
        [apply Z.leb_le | apply Z.ltb_lt]; lia).
  rewrite Nat2Z.id. rewrite firstn_exact.
  change (Datatypes.S (length content)) with (1 + length content)%nat.
  rewrite <- (skipn_skipn 1 (length content) (content ++ _)).
  rewrite skipn_exact, skipn_skipn.
  unfold consume. cbn [bits_read unread].
  rewrite <- length_bytes_bits. rewrite skipn_exact.
  apply f_equal. apply f_equal2; [reflexivity|].
  apply f_equal2; [|reflexivity]. rewrite length_bytes_bits. lia.
Qed.

Lemma read_string_too_long (buffer0 : list byte) (buffer_size n : Z)
      (p rest : list bool) :
  1 < buffer_size -> buffer_size <= 2 ^ 31 ->
  length p = Z.to_nat (bits_required 0 (buffer_size - 1)) ->
  buffer_size <= from_bits p ->
  serialize_string_internal R buffer0 buffer_size
    {| bits_read := n; unread := p ++ rest |} = Failed.
Proof.
  intros Hbs Hmax Hp Hge. rewrite pow2_31 in Hmax.
  unfold serialize_string_internal.
  cbn [IsWriting IsReading ReadStream]. rewrite bind_ret.
  unfold bind at 1. rewrite read_int by (first [exact Hp | lia]). cbv zeta.
  rewrite Z.add_0_l.
  pose proof (from_bits_bound p) as Hb. rewrite Hp in Hb.
  destruct (bits_required_bound 0 (buffer_size - 1) ltac:(lia)) as [Hpos Hreq].
  rewrite Z2Nat.id in Hb by lia.
  assert (2 ^ bits_required 0 (buffer_size - 1) <= 2 ^ 31).
  { unfold bits_required in *. destruct (0 =? buffer_size - 1); [lia|].
    apply Z.pow_le_mono_r; [lia|].
    assert (Z.log2 (buffer_size - 1 - 0) < 31); [|lia].
    apply Z.log2_lt_pow2; lia. }
  rewrite pow2_31 in *.
  rewrite (cast_in_type int32_t (from_bits p)) by side.
  rewrite (cast_in_type int32_t (from_bits p)) by side.
  rewrite Z.gtb_ltb.
  destruct (Z.ltb_spec (buffer_size - 1) (from_bits p)); [|lia].
  rewrite orb_true_r. reflexivity.
Qed.

End Strings.

Section StringSafety.

Variable check_pattern : list bool.

Local Abbreviation W := (WriteStream check_pattern).
Local Abbreviation R := (ReadStream check_pattern).

(** Whatever the stream holds, the read path of the string directive
    stays inside a buffer of [buffer_size] bytes and trips no assertion. *)
Lemma read_string_in_bounds (buffer0 : list byte) (buffer_size : Z) (r : reader) :
  1 < buffer_size -> buffer_size <= 2 ^ 31 ->
  Z.of_nat (length buffer0) = buffer_size ->
  match serialize_string_internal R buffer0 buffer_size r with
  | Done (buffer, _) => length buffer = length buffer0
  | Failed => True
  | Aborted => False
  | OutOfBounds => False
  end.
Proof.
  intros Hbs Hmax Hcap. destruct r as [n l].
  set (k := Z.to_nat (bits_required 0 (buffer_size - 1))).
  unfold serialize_string_internal.
  cbn [IsWriting IsReading ReadStream]. rewrite bind_ret. unfold bind at 1.
  destruct (Nat.lt_ge_cases (length l) k) as [Hshort|Hlong].
  { rewrite read_int_short by (first [exact Hshort | lia]). exact I. }
  rewrite <- (firstn_skipn k l).
  rewrite read_int by (first [apply firstn_length_le; exact Hlong | lia]).
  cbv zeta. set (v := cast int32_t (cast int32_t (0 + from_bits (firstn k l)))).
  rewrite Z.gtb_ltb.
  destruct (Z.ltb_spec v 0); [exact I|].
  destruct (Z.ltb_spec (buffer_size - 1) v); [exact I|]. cbn [orb].
  unfold serialize_bytes, serialize_bytes_internal, bind.
  cbn [SerializeBytes ReadStream unread].
  destruct (take_bytes (Z.to_nat v) (skipn k l)) as [[content rest]|] eqn:E;
    [|exact I].
  destruct (take_bytes_length _ _ _ _ E) as [Hlen _].
  rewrite Z.gtb_ltb. destruct (Z.ltb_spec (Z.of_nat (length buffer0)) v); [lia|].
  unfold store. rewrite length_app, length_skipn, Hlen.
  replace ((0 <=? v)
           && (v <? Z.of_nat (Z.to_nat v + (length buffer0 - Z.to_nat v))))
    with true
    by (symmetry; apply andb_true_iff; split;
        [apply Z.leb_le | apply Z.ltb_lt]; lia).
  rewrite length_app. cbn [length].
  rewrite length_firstn, length_skipn, length_app, length_skipn, Hlen. lia.
Qed.

(** C6: a buffer of [buffer_size] bytes that holds a text of exactly
    [buffer_size - 1] bytes and its terminator.  The write path does not
    take it: the assertion length < buffer_size - 1 fails.  The read path
    does: given the length [buffer_size - 1] and the bytes, it returns true
    and fills the buffer with the text and its terminator.  A stream that
    claims a length of [buffer_size] or more makes the read path return
    false, and on no stream does the read path leave the buffer. *)
Theorem string_length_bounds (string : list byte) (buffer_size : Z) :
  1 < buffer_size -> buffer_size <= 2 ^ 31 ->
  Z.of_nat (length string) = buffer_size ->
  strlen string = Some (buffer_size - 1) ->
  (forall s, serialize_string W string buffer_size s = Aborted)
  /\ (forall buffer0 n rest,
         Z.of_nat (length buffer0) = buffer_size ->
         serialize_string R buffer0 buffer_size
           {| bits_read := n; unread := string_bits string buffer_size ++ rest |} =
         Done (string,
               {| bits_read := n + Z.of_nat (length (string_bits string buffer_size));
                  unread := rest |}))
  /\ (forall buffer0 n p rest,
         length p = Z.to_nat (bits_required 0 (buffer_size - 1)) ->
         buffer_size <= from_bits p ->
         serialize_string R buffer0 buffer_size
           {| bits_read := n; unread := p ++ rest |} = Failed)
  /\ (forall buffer0 r,
         Z.of_nat (length buffer0) = buffer_size ->
         serialize_string R buffer0 buffer_size r <> OutOfBounds
         /\ serialize_string R buffer0 buffer_size r <> Aborted).
Proof.
  intros Hbs Hmax Hcap Hlen. split; [|split; [|split]].
  - intros s. apply (write_string_abort check_pattern string buffer_size
                                        (buffer_size - 1)); [exact Hlen | lia | lia].
  - intros buffer0 n rest Hcap0.
    destruct (strlen_c_string string _ Hlen) as (Hn & _ & Hb).
    destruct (bits_required_bound 0 (buffer_size - 1) ltac:(lia)) as [Hpos Hreq].
    unfold serialize_string, string_bits. rewrite <- app_assoc.
    rewrite (read_string check_pattern buffer0 buffer_size n);
      try assumption.
    + rewrite length_app, length_to_bits, length_bytes_bits.
      apply f_equal. apply f_equal2; [|reflexivity].
      rewrite Hb at 3. f_equal. f_equal.
      rewrite !skipn_all2; [reflexivity | lia | lia].
    + apply length_to_bits.
    + apply from_bits_to_bits_small. rewrite Z2Nat.id; lia.
    + rewrite from_bits_to_bits_small by (rewrite Z2Nat.id; lia). lia.
  - intros buffer0 n p rest Hp Hge.
    now apply read_string_too_long.
  - intros buffer0 r Hcap0.
    pose proof (read_string_in_bounds buffer0 buffer_size r Hbs Hmax Hcap0) as Hsafe.
    unfold serialize_string.
    destruct (serialize_string_internal R buffer0 buffer_size r) as [[b r']| | |];
      split; try discriminate; contradiction.
Qed.

End StringSafety.

(** C6 at a buffer of four bytes that holds "abc" and its terminator: the
    write path aborts, and the read path accepts the same text. *)
Lemma string_length_bounds_witness :
  serialize_string (WriteStream []) [x61; x62; x63; x00] 4 [] = Aborted
  /\ serialize_string (ReadStream []) [x00; x00; x00; x00] 4
       {| bits_read := 0; unread := string_bits [x61; x62; x63; x00] 4 ++ [] |} =
     Done ([x61; x62; x63; x00],
           {| bits_read := 0 + Z.of_nat (length (string_bits [x61; x62; x63; x00] 4));
              unread := [] |}).
Proof.
  destruct (string_length_bounds [] [x61; x62; x63; x00] 4) as (Hw & Hr & _);
    [lia | cbn; lia | reflexivity | reflexivity |].
  split; [exact (Hw []) | exact (Hr [x00; x00; x00; x00] 0 [] eq_refl)].
Defined.

(** ** The remaining directives, write then read *)

Lemma cast_cast_uint32 (T : ctype) (v : Z) :
  in_type T v -> cast T (cast uint32_t v) = v.
Proof.
  intros H. destruct T.
  - unfold_types.
    destruct (Z.neg_nonneg_cases v) as [Hneg|Hpos].
    + replace (v mod 4294967296) with (v + 4294967296)
        by (apply Z.mod_unique with (q := -1); lia).
      replace ((v + 4294967296 + 2147483648) mod 4294967296) with (v + 2147483648)
        by (apply Z.mod_unique with (q := 1); lia).
      lia.
    + rewrite (Z.mod_small v) by lia. rewrite Z.mod_small by lia. lia.
  - unfold_types. rewrite (Z.mod_small v) by lia. apply Z.mod_small; lia.
  - unfold_types. rewrite (Z.mod_small v) by lia. apply Z.mod_small; lia.
Qed.

Lemma uint64_halves (v : Z) :
  0 <= v < 2 ^ 64 ->
  0 <= Z.land v 0xFFFFFFFF < 2 ^ 32
  /\ 0 <= Z.shiftr v 32 < 2 ^ 32
  /\ Z.lor (Z.shiftl (Z.shiftr v 32) 32) (Z.land v 0xFFFFFFFF) = v.
Proof.
  intros Hv. change 0xFFFFFFFF with (Z.ones 32).
  rewrite Z.land_ones by lia. rewrite Z.shiftr_div_pow2 by lia.
  assert (0 <= v mod 2 ^ 32 < 2 ^ 32) as Hlo by (apply Z.mod_pos_bound; lia).
  assert (0 <= v / 2 ^ 32 < 2 ^ 32) as Hhi.
  { split; [apply Z.div_pos; lia|].
    apply Z.div_lt_upper_bound; [lia|].
    change (2 ^ 32 * 2 ^ 32) with (2 ^ 64). lia. }
  split; [exact Hlo|]. split; [exact Hhi|].
  apply Z.bits_inj'. intros n Hn.
  rewrite Z.lor_spec.
  destruct (Z.lt_ge_cases n 32) as [Hlow|Hhigh].
  - rewrite Z.shiftl_spec_low by lia.
    rewrite Z.mod_pow2_bits_low by lia. reflexivity.
  - rewrite Z.shiftl_spec by lia.
    rewrite Z.mod_pow2_bits_high by lia.
    rewrite <- Z.shiftr_div_pow2 by lia.
    rewrite Z.shiftr_spec by lia.
    rewrite orb_false_r. f_equal. lia.
Qed.

Lemma starts_with_app (pattern rest : list bool) :
  starts_with pattern (pattern ++ rest) = true.
Proof.
  induction pattern as [|b p IH]; [reflexivity|].
  cbn [app starts_with]. rewrite IH. now destruct b.
Qed.

Lemma align_bits_range (n : Z) : 0 <= align_bits n < 8.
Proof. unfold align_bits. apply Z.mod_pos_bound. lia. Qed.

Section Primitives.

Variable check_pattern : list bool.

Local Abbreviation W := (WriteStream check_pattern).
Local Abbreviation R := (ReadStream check_pattern).

Lemma read_bits_written (T : ctype) (value value0 bits n : Z) (rest : list bool) :
  0 < bits <= 32 -> in_type T value ->
  0 <= value < 2 ^ bits \/ bits = 32 ->
  serialize_bits R T value0 bits
    {| bits_read := n;
       unread := to_bits (Z.to_nat bits) (cast uint32_t value) ++ rest |} =
  Done (value, {| bits_read := n + bits; unread := rest |}).
Proof.
  intros Hb HT Hfit.
  rewrite read_bits by (first [apply length_to_bits | lia]).
  rewrite length_to_bits, from_bits_to_bits, Z2Nat.id by lia.
  apply f_equal. apply f_equal2; [|reflexivity].
  destruct Hfit as [Hfit| ->].
  - assert (2 ^ bits <= 2 ^ 32) by (apply Z.pow_le_mono_r; lia).
    rewrite pow2_32 in *.
    rewrite (cast_in_type uint32_t value) by side.
    rewrite Z.mod_small by lia. now apply cast_in_type.
  - change (cast uint32_t value mod 2 ^ 32) with (cast uint32_t (cast uint32_t value)).
    rewrite (cast_in_type uint32_t (cast uint32_t value)) by apply cast_range.
    now apply cast_cast_uint32.
Qed.

Lemma write_float (value : Z) (s : list bool) :
  serialize_float_internal W value s = Done (value, s ++ to_bits 32 value).
Proof. reflexivity. Qed.

Lemma read_float_written (value value0 n : Z) (rest : list bool) :
  in_type uint32_t value ->
  serialize_float_internal R value0
    {| bits_read := n; unread := to_bits 32 value ++ rest |} =
  Done (value, {| bits_read := n + 32; unread := rest |}).
Proof.
  intros Hv. unfold serialize_float_internal.
  cbn [IsWriting IsReading ReadStream]. unfold bind.
  cbn [SerializeBits ReadStream unread].
  change (Z.to_nat 32) with (length (to_bits 32 value)) at 1.
  rewrite length_app.
  replace (length (to_bits 32 value) + length rest <? length (to_bits 32 value))%nat
    with false by (symmetry; apply Nat.ltb_ge; lia).
  change (Z.to_nat 32) with (length (to_bits 32 value)).
  rewrite firstn_exact. unfold consume. cbn [bits_read unread].
  rewrite skipn_exact. rewrite from_bits_to_bits_small by exact Hv.
  reflexivity.
Qed.

Lemma write_uint64 (value : Z) (s : list bool) :
  0 <= value < 2 ^ 64 ->
  serialize_uint64_internal W value s =
  Done (value, s ++ to_bits 32 (Z.land value 0xFFFFFFFF)
                 ++ to_bits 32 (Z.shiftr value 32)).
Proof.
  intros Hv. destruct (uint64_halves value Hv) as (Hlo & Hhi & _).
  unfold serialize_uint64_internal. cbn [IsWriting IsReading WriteStream].
  unfold bind. rewrite !write_bits by lia.
  rewrite !cast_in_type by exact Hlo || exact Hhi.
  rewrite <- app_assoc. reflexivity.
Qed.

Lemma read_uint64_written (value value0 n : Z) (rest : list bool) :
  0 <= value < 2 ^ 64 ->
  serialize_uint64_internal R value0
    {| bits_read := n;
       unread := (to_bits 32 (Z.land value 0xFFFFFFFF)
                  ++ to_bits 32 (Z.shiftr value 32)) ++ rest |} =
  Done (value, {| bits_read := n + 64; unread := rest |}).
Proof.
  intros Hv. destruct (uint64_halves value Hv) as (Hlo & Hhi & Hjoin).
  unfold serialize_uint64_internal. cbn [IsWriting IsReading ReadStream].
  unfold bind. rewrite <- app_assoc.
  rewrite <- (cast_in_type uint32_t (Z.land value 0xFFFFFFFF)) at 1 by exact Hlo.
  rewrite read_bits_written by (first [exact Hlo | lia | right; reflexivity]).
  rewrite <- (cast_in_type uint32_t (Z.shiftr value 32)) at 1 by exact Hhi.
  rewrite read_bits_written by (first [exact Hhi | lia | right; reflexivity]).
  unfold ret. rewrite Hjoin. same_reader.
Qed.

Lemma write_bytes (data : list byte) (bytes : Z) (s : list bool) :
  0 <= bytes <= Z.of_nat (length data) ->
  serialize_bytes W data bytes s =
  Done (data, s ++ bytes_bits (firstn (Z.to_nat bytes) data)).
Proof.
  intros Hb. unfold serialize_bytes, serialize_bytes_internal.
  cbn [SerializeBytes WriteStream]. rewrite Z.gtb_ltb.
  destruct (Z.ltb_spec (Z.of_nat (length data)) bytes); [lia|]. reflexivity.
Qed.

Lemma read_bytes_written (data data0 : list byte) (bytes n : Z) (rest : list bool) :
  0 <= bytes <= Z.of_nat (length data) ->
  bytes <= Z.of_nat (length data0) ->
  serialize_bytes R data0 bytes
    {| bits_read := n; unread := bytes_bits (firstn (Z.to_nat bytes) data) ++ rest |} =
  Done (firstn (Z.to_nat bytes) data ++ skipn (Z.to_nat bytes) data0,
        {| bits_read := n + 8 * bytes; unread := rest |}).
Proof.
  intros Hb Hb0. unfold serialize_bytes, serialize_bytes_internal.
  cbn [SerializeBytes ReadStream unread].
  assert (length (firstn (Z.to_nat bytes) data) = Z.to_nat bytes) as Hlen
      by (apply firstn_length_le; lia).
  rewrite <- Hlen at 1. rewrite take_bytes_bytes_bits.
  rewrite Z.gtb_ltb.
  destruct (Z.ltb_spec (Z.of_nat (length data0)) bytes); [lia|].
  unfold consume. cbn [bits_read unread].
  replace (8 * Z.to_nat bytes)%nat
    with (length (bytes_bits (firstn (Z.to_nat bytes) data)))
    by (rewrite length_bytes_bits, Hlen; reflexivity).
  rewrite skipn_exact. rewrite length_bytes_bits, Hlen. same_reader.
Qed.

Lemma read_string_written (string buffer0 : list byte) (buffer_size len n : Z)
      (rest : list bool) :
  strlen string = Some len -> len <= buffer_size - 1 -> 1 < buffer_size ->
  buffer_size <= 2 ^ 31 ->
  Z.of_nat (length buffer0) = buffer_size ->
  serialize_string_internal R buffer0 buffer_size
    {| bits_read := n; unread := string_bits string buffer_size ++ rest |} =
  Done (c_string string ++ x00 :: skipn (Datatypes.S (length (c_string string))) buffer0,
        {| bits_read := n + Z.of_nat (length (string_bits string buffer_size));
           unread := rest |}).
Proof.
  intros Hlen Hle Hbs Hmax Hcap.
  destruct (strlen_c_string string _ Hlen) as (Hn & _ & _).
  destruct (bits_required_bound 0 (buffer_size - 1) ltac:(lia)) as [Hpos Hreq].
  assert (from_bits (to_bits (Z.to_nat (bits_required 0 (buffer_size - 1)))
                             (Z.of_nat (length (c_string string))))
          = Z.of_nat (length (c_string string))) as Hval
      by (apply from_bits_to_bits_small; rewrite Z2Nat.id; lia).
  unfold string_bits. rewrite <- app_assoc.
  rewrite (read_string check_pattern buffer0 buffer_size n); try assumption.
  - rewrite length_app, length_to_bits, length_bytes_bits. reflexivity.
  - apply length_to_bits.
  - rewrite Hval. lia.
Qed.

Lemma write_align (s : list bool) :
  serialize_align W s =
  Done (tt, s ++ repeat false (Z.to_nat (align_bits (Z.of_nat (length s))))).
Proof. reflexivity. Qed.

Lemma read_align_written (n : Z) (rest : list bool) :
  serialize_align R
    {| bits_read := n; unread := repeat false (Z.to_nat (align_bits n)) ++ rest |} =
  Done (tt, {| bits_read := n + align_bits n; unread := rest |}).
Proof.
  pose proof (align_bits_range n) as Hr.
  unfold serialize_align. cbn [SerializeAlign ReadStream bits_read unread].
  rewrite length_app, repeat_length.
  replace (Z.to_nat (align_bits n) + length rest <? Z.to_nat (align_bits n))%nat
    with false by (symmetry; apply Nat.ltb_ge; lia).
  unfold consume. cbn [bits_read unread].
  assert (forall k, skipn k (repeat false k ++ rest) = rest) as Hskip.
  { intros k. rewrite <- (repeat_length false k) at 1. apply skipn_exact. }
  rewrite Hskip. rewrite Z2Nat.id by lia. reflexivity.
Qed.

Lemma write_check (s : list bool) :
  serialize_check W s = Done (tt, s ++ check_pattern).
Proof. reflexivity. Qed.

Lemma read_check_written (n : Z) (rest : list bool) :
  serialize_check R {| bits_read := n; unread := check_pattern ++ rest |} =
  Done (tt, {| bits_read := n + Z.of_nat (length check_pattern); unread := rest |}).
Proof.
  unfold serialize_check. cbn [SerializeCheck ReadStream unread].
  rewrite starts_with_app. unfold consume. cbn [bits_read unread].
  rewrite skipn_exact. reflexivity.
Qed.

End Primitives.

(** ** Directive calls, write then read *)

Section FieldCodec.

Variable check_pattern : list bool.
Variable Address : Type.
Variable IsValid : Address -> bool.
Variable ToString : Address -> list byte -> Z -> list byte.
Variable Parse : list byte -> Address.
Variable MaxAddressLength : Z.
Variable stack_buffer : list byte.

Local Abbreviation W := (WriteStream check_pattern).
Local Abbreviation R := (ReadStream check_pattern).
Local Abbreviation valid :=
  (valid_field Address IsValid ToString MaxAddressLength stack_buffer).
Local Abbreviation can_decode :=
  (decodable Address ToString Parse MaxAddressLength stack_buffer).
Local Abbreviation run :=
  (serialize_field Address IsValid ToString Parse MaxAddressLength stack_buffer).
Local Abbreviation address_text a := (ToString a stack_buffer MaxAddressLength).

Lemma write_address (a : Address) (s : list bool) :
  valid (f_address a) ->
  serialize_address_internal Address IsValid ToString Parse MaxAddressLength
                             stack_buffer W a s =
  Done (a, s ++ string_bits (address_text a) MaxAddressLength).
Proof.
  intros (Hv & Hmax & n & Hn & Hlt).
  unfold serialize_address_internal. cbn [IsWriting IsReading WriteStream].
  unfold bind at 1. rewrite assert_true by exact Hv. cbn [ret].
  unfold serialize_string, bind.
  rewrite (write_string check_pattern _ _ n) by assumption. reflexivity.
Qed.

Lemma read_address_written (a a0 : Address) (n : Z) (rest : list bool) :
  valid (f_address a) -> can_decode (f_address a) ->
  serialize_address_internal Address IsValid ToString Parse MaxAddressLength
                             stack_buffer R a0
    {| bits_read := n;
       unread := string_bits (address_text a) MaxAddressLength ++ rest |} =
  Done (a, {| bits_read :=
                n + Z.of_nat (length (string_bits (address_text a) MaxAddressLength));
              unread := rest |}).
Proof.
  intros (Hv & Hmax & len & Hlen & Hlt) (Hcap & Hparse).
  pose proof (strlen_bound _ _ Hlen) as Hb.
  unfold serialize_address_internal. cbn [IsWriting IsReading ReadStream].
  rewrite bind_ret. unfold serialize_string, bind.
  rewrite (read_string_written check_pattern (address_text a) stack_buffer
                               MaxAddressLength len) by (assumption || lia).
  rewrite Hparse by apply c_string_no_nul.
  rewrite Hv. reflexivity.
Qed.

(** A valid directive call writes some bits after the stream and leaves
    its value alone; a reader at the same position, making the same call
    with buffers of the right size and whatever values, takes exactly those
    bits off its stream and ends with the value written. *)
Lemma field_codec (f : field Address) (s : list bool) :
  valid f ->
  exists bits,
    run W f s = Done (f, s ++ bits)
    /\ (can_decode f ->
        forall f0 rest,
          directive_of Address f0 = directive_of Address f ->
          reader_ready Address f0 ->
          exists f',
            run R f0 {| bits_read := Z.of_nat (length s); unread := bits ++ rest |} =
            Done (f', {| bits_read := Z.of_nat (length s) + Z.of_nat (length bits);
                         unread := rest |})
            /\ directive_of Address f' = directive_of Address f
            /\ value_of Address f' = value_of Address f).
Proof.
  intros Hvalid.
  destruct f as [T v min max|T v bits|b|v|T v|v|v|data bytes|string bs| | |a|p c|sq ak|s1 s2];
    cbn [valid_field] in Hvalid.
  - (* bounded integer *)
    destruct Hvalid as (Hlt & Hv & Hmin & Hmax & HT).
    destruct (bits_required_bound min max Hlt) as [Hpos Hreq].
    eexists. split.
    { cbn [serialize_field]. unfold bind. rewrite write_int by assumption.
      reflexivity. }
    intros _ f0 rest Hd _. destruct f0; try discriminate Hd.
    cbn [directive_of] in Hd. injection Hd as -> -> ->.
    eexists. split; [|split; reflexivity].
    cbn [serialize_field]. unfold bind.
    rewrite read_int by (first [apply length_to_bits | lia]). cbv zeta.
    rewrite from_bits_to_bits_small by (rewrite Z2Nat.id; lia).
    replace (min + (v - min)) with v by lia.
    rewrite (cast_in_type int32_t v) by side.
    rewrite (cast_in_type T v) by assumption.
    rewrite Z.gtb_ltb.
    destruct (Z.ltb_spec v min); [lia|]. destruct (Z.ltb_spec max v); [lia|].
    reflexivity.
  - (* bit-run *)
    destruct Hvalid as (Hb & HT).
    eexists. split.
    { cbn [serialize_field]. unfold bind. rewrite write_bits by assumption.
      reflexivity. }
    intros Hfit f0 rest Hd _. destruct f0; try discriminate Hd.
    cbn [directive_of] in Hd. injection Hd as -> ->.
    cbn [decodable] in Hfit.
    eexists. split; [|split; reflexivity].
    cbn [serialize_field]. unfold bind.
    rewrite read_bits_written by assumption.
    rewrite length_to_bits, Z2Nat.id by lia. reflexivity.
  - (* boolean *)
    eexists. split.
    { cbn [serialize_field]. unfold bind. rewrite write_bool. reflexivity. }
    intros _ f0 rest Hd _. destruct f0; try discriminate Hd.
    eexists. split; [|split; reflexivity].
    cbn [serialize_field app]. unfold bind. rewrite read_bool. reflexivity.
  - (* float *)
    eexists. split.
    { cbn [serialize_field]. unfold serialize_float, bind.
      rewrite write_float. reflexivity. }
    intros _ f0 rest Hd _. destruct f0; try discriminate Hd.
    eexists. split; [|split; reflexivity].
    cbn [serialize_field]. unfold serialize_float, bind.
    rewrite read_float_written by assumption. reflexivity.
  - (* 32-bit unsigned *)
    eexists. split.
    { cbn [serialize_field]. unfold serialize_uint32, bind.
      rewrite write_bits by lia. reflexivity. }
    intros _ f0 rest Hd _. destruct f0; try discriminate Hd.
    cbn [directive_of] in Hd. injection Hd as ->.
    eexists. split; [|split; reflexivity].
    cbn [serialize_field]. unfold serialize_uint32, bind.
    rewrite read_bits_written by (first [assumption | lia | right; reflexivity]).
    reflexivity.
  - (* 64-bit unsigned *)
    eexists. split.
    { cbn [serialize_field]. unfold serialize_uint64, bind.
      rewrite write_uint64 by assumption. reflexivity. }
    intros _ f0 rest Hd _. destruct f0; try discriminate Hd.
    eexists. split; [|split; reflexivity].
    cbn [serialize_field]. unfold serialize_uint64, bind.
    rewrite read_uint64_written by assumption.
    rewrite length_app, !length_to_bits. reflexivity.
  - (* double *)
    eexists. split.
    { cbn [serialize_field].
      unfold serialize_double, serialize_double_internal, serialize_uint64.
      cbn [IsWriting IsReading WriteStream]. unfold bind.
      rewrite write_uint64 by assumption. reflexivity. }
    intros _ f0 rest Hd _. destruct f0; try discriminate Hd.
    eexists. split; [|split; reflexivity].
    cbn [serialize_field].
    unfold serialize_double, serialize_double_internal, serialize_uint64.
    cbn [IsWriting IsReading ReadStream]. unfold bind.
    rewrite read_uint64_written by assumption.
    rewrite length_app, !length_to_bits. reflexivity.
  - (* byte-run *)
    eexists. split.
    { cbn [serialize_field]. unfold bind. rewrite write_bytes by assumption.
      reflexivity. }
    intros _ f0 rest Hd Hready. destruct f0; try discriminate Hd.
    cbn [directive_of] in Hd. injection Hd as ->. cbn [reader_ready] in Hready.
    assert (length (firstn (Z.to_nat bytes) data) = Z.to_nat bytes) as Hlen
        by (apply firstn_length_le; lia).
    eexists. split.
    { cbn [serialize_field]. unfold bind.
      rewrite (read_bytes_written check_pattern data) by assumption.
      rewrite length_bytes_bits, Hlen. unfold ret. same_reader. }
    split; [reflexivity|].
    cbn [value_of]. rewrite <- Hlen at 1. now rewrite firstn_exact.
  - (* string *)
    destruct Hvalid as (Hmax & n & Hn & Hlt).
    pose proof (strlen_bound _ _ Hn) as Hb.
    eexists. split.
    { cbn [serialize_field]. unfold serialize_string, bind.
      rewrite (write_string check_pattern _ _ n) by assumption. reflexivity. }
    intros _ f0 rest Hd Hready. destruct f0; try discriminate Hd.
    cbn [directive_of] in Hd. injection Hd as ->. cbn [reader_ready] in Hready.
    eexists. split.
    { cbn [serialize_field]. unfold serialize_string, bind.
      rewrite (read_string_written check_pattern string _ bs n)
        by (assumption || lia).
      reflexivity. }
    split; [reflexivity|].
    cbn [value_of]. now rewrite c_string_no_nul.
  - (* alignment *)
    eexists. split.
    { cbn [serialize_field]. unfold bind. rewrite write_align. reflexivity. }
    intros _ f0 rest Hd _. destruct f0; try discriminate Hd.
    eexists. split; [|split; reflexivity].
    cbn [serialize_field]. unfold bind. rewrite read_align_written.
    pose proof (align_bits_range (Z.of_nat (length s))).
    rewrite repeat_length, Z2Nat.id by lia. reflexivity.
  - (* integrity check *)
    eexists. split.
    { cbn [serialize_field]. unfold bind. rewrite write_check. reflexivity. }
    intros _ f0 rest Hd _. destruct f0; try discriminate Hd.
    eexists. split; [|split; reflexivity].
    cbn [serialize_field]. unfold bind. rewrite read_check_written. reflexivity.
  - (* address *)
    eexists. split.
    { cbn [serialize_field]. unfold serialize_address, bind.
      rewrite write_address by exact Hvalid. reflexivity. }
    intros Hdec f0 rest Hd _. destruct f0; try discriminate Hd.
    eexists. split; [|split; reflexivity].
    cbn [serialize_field]. unfold serialize_address, bind.
    rewrite (read_address_written a) by assumption. reflexivity.
  - (* delta codec *)
    destruct Hvalid as (H0 & H1 & H2).
    eexists. split.
    { cbn [serialize_field]. unfold serialize_int_relative, bind.
      rewrite write_int_relative by assumption. reflexivity. }
    intros _ f0 rest Hd _. destruct f0; try discriminate Hd.
    cbn [directive_of] in Hd. injection Hd as ->.
    eexists. split; [|split; reflexivity].
    cbn [serialize_field]. unfold serialize_int_relative, bind.
    rewrite read_int_relative_roundtrip by assumption. reflexivity.
  - (* ack-relative codec *)
    destruct Hvalid as (Hs & Ha).
    eexists. split.
    { cbn [serialize_field]. unfold serialize_ack_relative, bind.
      rewrite write_ack_relative by assumption. reflexivity. }
    intros _ f0 rest Hd _. destruct f0; try discriminate Hd.
    cbn [directive_of] in Hd. injection Hd as ->.
    eexists. split; [|split; reflexivity].
    cbn [serialize_field]. unfold serialize_ack_relative, bind.
    rewrite read_ack_relative_roundtrip by assumption. reflexivity.
  - (* sequence-relative codec *)
    destruct Hvalid as (Hs1 & Hs2 & Hne).
    eexists. split.
    { cbn [serialize_field]. unfold serialize_sequence_relative, bind.
      rewrite write_sequence_relative by assumption. reflexivity. }
    intros _ f0 rest Hd _. destruct f0; try discriminate Hd.
    cbn [directive_of] in Hd. injection Hd as ->.
    eexists. split; [|split; reflexivity].
    cbn [serialize_field]. unfold serialize_sequence_relative, bind.
    rewrite read_sequence_relative_roundtrip by assumption. reflexivity.
Qed.

End FieldCodec.

(** ** Measuring with the is-writing flag set *)

Lemma agree_ret {X : Type} (x : X) : agree (ret x) (ret x).
Proof. intros s y s' H. inversion H; subst. reflexivity. Qed.

Lemma agree_bind {X Y : Type} (cw : M (list bool) X) (cm : M Z X)
      (kw : X -> M (list bool) Y) (km : X -> M Z Y) :
  agree cw cm -> (forall x, agree (kw x) (km x)) ->
  agree (bind cw kw) (bind cm km).
Proof.
  intros Hc Hk s y s' H. unfold bind in *.
  destruct (cw s) as [[a s1]| | |] eqn:E; try discriminate.
  rewrite (Hc _ _ _ E). now apply Hk.
Qed.

Lemma agree_assert (cond : bool) : agree (yojimbo_assert cond) (yojimbo_assert cond).
Proof.
  intros s x s' H. unfold yojimbo_assert in *.
  destruct cond; [|discriminate]. inversion H; subst. reflexivity.
Qed.

Lemma agree_c_strlen (string : list byte) : agree (c_strlen string) (c_strlen string).
Proof.
  intros s x s' H. unfold c_strlen in *.
  destruct (strlen string); [|discriminate]. inversion H; subst. reflexivity.
Qed.

Section Agreement.

Variable check_pattern : list bool.

Local Abbreviation W := (WriteStream check_pattern).
Local Abbreviation MW := (MeasureStreamWith check_pattern true).

Lemma agree_SerializeInteger (value min max : Z) :
  agree (SerializeInteger W value min max) (SerializeInteger MW value min max).
Proof.
  intros s x s' H. cbn [SerializeInteger WriteStream MeasureStreamWith] in *.
  inversion H; subst. rewrite length_app, length_to_bits.
  rewrite Nat2Z.inj_add. reflexivity.
Qed.

Lemma agree_SerializeBits (value bits : Z) :
  agree (SerializeBits W value bits) (SerializeBits MW value bits).
Proof.
  intros s x s' H. cbn [SerializeBits WriteStream MeasureStreamWith] in *.
  inversion H; subst. rewrite length_app, length_to_bits.
  rewrite Nat2Z.inj_add. reflexivity.
Qed.

Lemma agree_SerializeBytes (data : list byte) (bytes : Z) :
  agree (SerializeBytes W data bytes) (SerializeBytes MW data bytes).
Proof.
  intros s x s' H. cbn [SerializeBytes WriteStream MeasureStreamWith] in *.
  rewrite Z.gtb_ltb in H.
  destruct (Z.ltb_spec (Z.of_nat (length data)) bytes); [discriminate|].
  inversion H; subst. rewrite length_app, length_bytes_bits.
  rewrite length_firstn. apply f_equal. apply f_equal2; [reflexivity|]. lia.
Qed.

Lemma agree_SerializeAlign : agree (SerializeAlign W) (SerializeAlign MW).
Proof.
  intros s x s' H. cbn [SerializeAlign WriteStream MeasureStreamWith] in *.
  inversion H; subst. rewrite length_app, repeat_length.
  pose proof (align_bits_range (Z.of_nat (length s))).
  apply f_equal. apply f_equal2; [reflexivity|]. lia.
Qed.

Lemma agree_SerializeCheck : agree (SerializeCheck W) (SerializeCheck MW).
Proof.
  intros s x s' H. cbn [SerializeCheck WriteStream MeasureStreamWith] in *.
  inversion H; subst. rewrite length_app. rewrite Nat2Z.inj_add. reflexivity.
Qed.

(** One step of a proof that a directive measures what it writes: the two
    modes have the same flags, so the routines have the same shape. *)
Ltac agree_step :=
  cbv zeta;
  lazymatch goal with
  | |- agree (bind _ _) (bind _ _) => apply agree_bind; [|intro]
  | |- agree (ret _) (ret _) => apply agree_ret
  | |- agree (yojimbo_assert _) (yojimbo_assert _) => apply agree_assert
  | |- agree (c_strlen _) (c_strlen _) => apply agree_c_strlen
  | |- agree (SerializeInteger _ _ _ _) _ => apply agree_SerializeInteger
  | |- agree (SerializeBits _ _ _) _ => apply agree_SerializeBits
  | |- agree (SerializeBytes _ _ _) _ => apply agree_SerializeBytes
  | |- agree (SerializeAlign _) _ => apply agree_SerializeAlign
  | |- agree (SerializeCheck _) _ => apply agree_SerializeCheck
  | |- agree (if ?b then _ else _) (if ?b then _ else _) => destruct b
  end.

Ltac agree_flags :=
  cbn [IsWriting IsReading WriteStream MeasureStreamWith].

Lemma agree_int (T : ctype) (value min max : Z) :
  agree (serialize_int W T value min max) (serialize_int MW T value min max).
Proof. unfold serialize_int. agree_flags. repeat agree_step. Qed.

Lemma agree_bits (T : ctype) (value bits : Z) :
  agree (serialize_bits W T value bits) (serialize_bits MW T value bits).
Proof. unfold serialize_bits. agree_flags. repeat agree_step. Qed.

Lemma agree_bool (value : bool) :
  agree (serialize_bool W value) (serialize_bool MW value).
Proof.
  unfold serialize_bool. agree_flags.
  apply agree_bind; [apply agree_bits | intro; apply agree_ret].
Qed.

Lemma agree_float (value : Z) :
  agree (serialize_float W value) (serialize_float MW value).
Proof.
  unfold serialize_float, serialize_float_internal. agree_flags.
  repeat agree_step.
Qed.

Lemma agree_uint64 (value : Z) :
  agree (serialize_uint64 W value) (serialize_uint64 MW value).
Proof.
  unfold serialize_uint64, serialize_uint64_internal. agree_flags.
  repeat (apply agree_bind; [apply agree_bits | intro]). apply agree_ret.
Qed.

Lemma agree_double (value : Z) :
  agree (serialize_double W value) (serialize_double MW value).
Proof.
  unfold serialize_double, serialize_double_internal. agree_flags.
  apply agree_bind; [apply agree_uint64 | intro; apply agree_ret].
Qed.

Lemma agree_string (string : list byte) (buffer_size : Z) :
  agree (serialize_string W string buffer_size)
        (serialize_string MW string buffer_size).
Proof.
  unfold serialize_string, serialize_string_internal. agree_flags.
  apply agree_bind; [repeat agree_step | intro].
  apply agree_bind; [apply agree_int | intro].
  apply agree_bind; [apply agree_SerializeBytes | intro; apply agree_ret].
Qed.

Lemma agree_int_relative (previous current : Z) :
  agree (serialize_int_relative W previous current)
        (serialize_int_relative MW previous current).
Proof.
  unfold serialize_int_relative, serialize_int_relative_internal, serialize_uint32.
  agree_flags.
  apply agree_bind; [repeat agree_step | intro].
  repeat first [ apply agree_ret
               | apply agree_bits
               | apply agree_bind; [first [apply agree_bool | apply agree_int
                                           | apply agree_bits] | intro]
               | lazymatch goal with
                 | |- agree (if ?b then _ else _) (if ?b then _ else _) => destruct b
                 end
               | progress cbv zeta ].
Qed.

Lemma agree_ack_relative (sequence ack : Z) :
  agree (serialize_ack_relative W sequence ack)
        (serialize_ack_relative MW sequence ack).
Proof.
  unfold serialize_ack_relative, serialize_ack_relative_internal. agree_flags.
  apply agree_bind; [repeat agree_step | intro].
  cbv zeta. apply agree_bind; [apply agree_bool | intro].
  lazymatch goal with
  | |- agree (if ?b then _ else _) (if ?b then _ else _) => destruct b
  end.
  - apply agree_bind; [apply agree_int | intro; apply agree_ret].
  - apply agree_bits.
Qed.

Lemma agree_sequence_relative (sequence1 sequence2 : Z) :
  agree (serialize_sequence_relative W sequence1 sequence2)
        (serialize_sequence_relative MW sequence1 sequence2).
Proof.
  unfold serialize_sequence_relative, serialize_sequence_relative_internal.
  agree_flags. cbv zeta.
  apply agree_bind; [apply agree_int_relative | intro; apply agree_ret].
Qed.

End Agreement.

(** ** Objects: writing, and measuring what is written *)

Section ObjectAgreement.

Variable check_pattern : list bool.
Variable Address : Type.
Variable IsValid : Address -> bool.
Variable ToString : Address -> list byte -> Z -> list byte.
Variable Parse : list byte -> Address.
Variable MaxAddressLength : Z.
Variable stack_buffer : list byte.

Local Abbreviation W := (WriteStream check_pattern).
Local Abbreviation MW := (MeasureStreamWith check_pattern true).
Local Abbreviation M0 := (MeasureStream check_pattern).
Local Abbreviation valid :=
  (valid_field Address IsValid ToString MaxAddressLength stack_buffer).
Local Abbreviation valid_o :=
  (valid_object Address IsValid ToString MaxAddressLength stack_buffer).
Local Abbreviation run :=
  (serialize_field Address IsValid ToString Parse MaxAddressLength stack_buffer).
Local Abbreviation run_o :=
  (Serialize Address IsValid ToString Parse MaxAddressLength stack_buffer).

Lemma agree_address (a : Address) :
  agree (serialize_address Address IsValid ToString Parse MaxAddressLength
                           stack_buffer W a)
        (serialize_address Address IsValid ToString Parse MaxAddressLength
                           stack_buffer MW a).
Proof.
  unfold serialize_address, serialize_address_internal.
  cbn [IsWriting IsReading WriteStream MeasureStreamWith].
  apply agree_bind.
  - apply agree_bind; [apply agree_assert | intro; apply agree_ret].
  - intro. apply agree_bind; [apply agree_string | intro; apply agree_ret].
Qed.

Lemma agree_field (f : field Address) : agree (run W f) (run MW f).
Proof.
  destruct f; cbn [serialize_field];
    (apply agree_bind; [|intro; apply agree_ret]).
  - apply agree_int.
  - apply agree_bits.
  - apply agree_bool.
  - apply agree_float.
  - apply agree_bits.
  - apply agree_uint64.
  - apply agree_double.
  - apply agree_SerializeBytes.
  - apply agree_string.
  - apply agree_SerializeAlign.
  - apply agree_SerializeCheck.
  - apply agree_address.
  - apply agree_int_relative.
  - apply agree_ack_relative.
  - apply agree_sequence_relative.
Qed.

Lemma agree_object (o : object Address) : agree (run_o W o) (run_o MW o).
Proof.
  induction o as [|f rest IH|inner IHinner rest IHrest]; cbn [Serialize].
  - apply agree_ret.
  - apply agree_bind; [apply agree_field | intro].
    apply agree_bind; [apply IH | intro; apply agree_ret].
  - apply agree_bind; [apply IHinner | intro].
    apply agree_bind; [apply IHrest | intro; apply agree_ret].
Qed.

(** A valid object is written: every assertion of the write path holds. *)
Lemma write_object (o : object Address) :
  valid_o o -> forall s, exists bits, run_o W o s = Done (o, s ++ bits).
Proof.
  induction o as [|f rest IH|inner IHinner rest IHrest];
    cbn [valid_object Serialize]; intros Hv s.
  - exists []. rewrite app_nil_r. reflexivity.
  - destruct Hv as [Hf Hrest].
    destruct (field_codec check_pattern Address IsValid ToString Parse
                          MaxAddressLength stack_buffer f s Hf) as (b1 & Hw & _).
    destruct (IH Hrest (s ++ b1)) as (b2 & Hw2).
    exists (b1 ++ b2). unfold bind. rewrite Hw, Hw2.
    rewrite app_assoc. reflexivity.
  - destruct Hv as [Hinner Hrest].
    destruct (IHinner Hinner s) as (b1 & Hw).
    destruct (IHrest Hrest (s ++ b1)) as (b2 & Hw2).
    exists (b1 ++ b2). unfold bind. rewrite Hw, Hw2.
    rewrite app_assoc. reflexivity.
Qed.

(** On a static directive the two flags of the measuring engine change
    nothing, once the assertions of the write path hold. *)
Lemma static_field_measure (f : field Address) (n : Z) :
  valid f -> static_field Address f = true -> run M0 f n = run MW f n.
Proof.
  intros Hv Hs.
  destruct f as [T v min max|T v bits|b|v|T v|v|v|data bytes|string bs| | |a|p c|sq ak|s1 s2];
    try discriminate Hs; cbn [valid_field] in Hv; cbn [serialize_field];
    apply bind_same_first; try reflexivity.
  destruct Hv as (Hlt & Hr & _).
  unfold serialize_int.
  cbn [IsWriting IsReading MeasureStream MeasureStreamWith].
  rewrite !assert_true by lia. rewrite bind_ret. unfold bind at 2.
  rewrite !assert_true by lia. reflexivity.
Qed.

Lemma static_object_measure (o : object Address) :
  valid_o o -> static_object Address o = true ->
  forall n, run_o M0 o n = run_o MW o n.
Proof.
  induction o as [|f rest IH|inner IHinner rest IHrest];
    cbn [valid_object static_object Serialize]; intros Hv Hs n.
  - reflexivity.
  - destruct Hv as [Hf Hrest]. apply andb_true_iff in Hs as [Hsf Hsr].
    unfold bind at 1 3.
    rewrite (static_field_measure f n Hf Hsf).
    destruct (run MW f n) as [[f' n']| | |]; try reflexivity.
    unfold bind. rewrite (IH Hrest Hsr). reflexivity.
  - destruct Hv as [Hinner Hrest]. apply andb_true_iff in Hs as [Hsi Hsr].
    unfold bind at 1 3.
    rewrite (IHinner Hinner Hsi).
    destruct (run_o MW inner n) as [[o' n']| | |]; try reflexivity.
    unfold bind. rewrite (IHrest Hrest Hsr). reflexivity.
Qed.

End ObjectAgreement.

(** ** Measuring with both flags false *)

Section DefaultPath.

Variable check_pattern : list bool.

Local Abbreviation M0 := (MeasureStream check_pattern).

(** With neither flag set every test of the delta codec is skipped: the
    six flags and the 32-bit fallback are counted whatever the values. *)
Lemma measure_int_relative_default (previous current n : Z) :
  serialize_int_relative M0 previous current n = Done (current, n + 38).
Proof.
  unfold serialize_int_relative, serialize_int_relative_internal.
  cbn. unfold ret. apply f_equal. apply f_equal2; [reflexivity | lia].
Qed.

(** With neither flag set the length of a string is never taken: only
    the bounded integer of an empty string is counted. *)
Lemma measure_string_default (string : list byte) (buffer_size n : Z) :
  1 < buffer_size ->
  serialize_string M0 string buffer_size n =
  Done (string, n + bits_required 0 (buffer_size - 1)).
Proof.
  intros Hbs.
  destruct (bits_required_bound 0 (buffer_size - 1) ltac:(lia)) as [Hpos _].
  unfold serialize_string, serialize_string_internal.
  cbn [IsWriting IsReading MeasureStream MeasureStreamWith].
  rewrite bind_ret. unfold bind at 1. unfold serialize_int.
  rewrite assert_true by lia.
  cbn [IsWriting IsReading MeasureStream MeasureStreamWith].
  rewrite bind_ret. cbn. unfold ret.
  apply f_equal. apply f_equal2; [reflexivity|].
  rewrite Z2Nat.id by lia. lia.
Qed.

End DefaultPath.

(** ** Round trip of every directive, and measure against write *)

Section ObjectProperties.

Variable check_pattern : list bool.
Variable Address : Type.
Variable IsValid : Address -> bool.
Variable ToString : Address -> list byte -> Z -> list byte.
Variable Parse : list byte -> Address.
Variable MaxAddressLength : Z.
Variable stack_buffer : list byte.

Local Abbreviation W := (WriteStream check_pattern).
Local Abbreviation R := (ReadStream check_pattern).
Local Abbreviation valid :=
  (valid_field Address IsValid ToString MaxAddressLength stack_buffer).
Local Abbreviation valid_o :=
  (valid_object Address IsValid ToString MaxAddressLength stack_buffer).
Local Abbreviation can_decode :=
  (decodable Address ToString Parse MaxAddressLength stack_buffer).
Local Abbreviation run :=
  (serialize_field Address IsValid ToString Parse MaxAddressLength stack_buffer).
Local Abbreviation run_o :=
  (Serialize Address IsValid ToString Parse MaxAddressLength stack_buffer).

(** C2, amended: for every directive and every value that meets the
    write-side preconditions of the code (an integer within [min,max], a
    bit-run of width in [1,32], a string whose length is below
    buffer_size - 1, previous < current for the delta codec, distinct
    sequence numbers for the sequence-relative codec, a valid address whose
    text fits) and, for a bit-run narrower than 32 bits, fits the width, the
    write path returns true and the read path, making the same call on the
    bits written, returns true with the value written: the same integer,
    boolean or bit pattern of a float or double, the same bytes, the same
    text, the same address. *)
Theorem directive_roundtrip (f f0 : field Address) (s rest : list bool) :
  valid f -> can_decode f ->
  directive_of Address f0 = directive_of Address f ->
  reader_ready Address f0 ->
  exists bits f',
    run W f s = Done (f, s ++ bits)
    /\ run R f0 {| bits_read := Z.of_nat (length s); unread := bits ++ rest |} =
       Done (f', {| bits_read := Z.of_nat (length s) + Z.of_nat (length bits);
                    unread := rest |})
    /\ value_of Address f' = value_of Address f.
Proof.
  intros Hv Hd Hshape Hready.
  destruct (field_codec check_pattern Address IsValid ToString Parse
                        MaxAddressLength stack_buffer f s Hv) as (bits & Hw & Hr).
  destruct (Hr Hd f0 rest Hshape Hready) as (f' & Hread & _ & Hval).
  exists bits, f'. auto.
Qed.

(** C1, amended: for every valid object the write path returns true, and
    the bit count of a measuring engine whose is-writing flag is true (and
    is-reading flag false) is the number of bits written; with both flags
    false, as the contract of the bit stream has them, the same holds for
    the objects made of bounded integers, bit-runs, booleans, floats,
    doubles, 32- and 64-bit integers, byte-runs, alignments and integrity
    checks. *)
Theorem measure_write_agreement (o : object Address) (s : list bool) :
  valid_o o ->
  exists bits,
    run_o W o s = Done (o, s ++ bits)
    /\ run_o (MeasureStreamWith check_pattern true) o (Z.of_nat (length s)) =
       Done (o, Z.of_nat (length s) + Z.of_nat (length bits))
    /\ (static_object Address o = true ->
        run_o (MeasureStream check_pattern) o (Z.of_nat (length s)) =
        Done (o, Z.of_nat (length s) + Z.of_nat (length bits))).
Proof.
  intros Hv.
  destruct (write_object check_pattern Address IsValid ToString Parse
                         MaxAddressLength stack_buffer o Hv s) as (bits & Hw).
  pose proof (agree_object check_pattern Address IsValid ToString Parse
                           MaxAddressLength stack_buffer o s o (s ++ bits) Hw) as Hm.
  rewrite length_app, Nat2Z.inj_add in Hm.
  exists bits. split; [exact Hw|]. split; [exact Hm|].
  intros Hs.
  rewrite (static_object_measure check_pattern Address IsValid ToString Parse
                                 MaxAddressLength stack_buffer o Hv Hs).
  exact Hm.
Qed.

End ObjectProperties.

(** C2 as stated fails on a bit-run: the width 2 is in [1,32], yet the value
    5 is written on its two low bits and read back as 1. *)
Lemma bit_run_value_not_reproduced :
  serialize_bits (WriteStream []) uint32_t 5 2 [] = Done (5, [true; false])
  /\ serialize_bits (ReadStream []) uint32_t 0 2
       {| bits_read := 0; unread := [true; false] |} =
     Done (1, {| bits_read := 2; unread := [] |}).
Proof. split; reflexivity. Qed.

(** C2, amended, at the address "A" of the example collaborator, sent as
    a string through a buffer of four bytes. *)
Lemma directive_roundtrip_witness :
  exists bits f',
    serialize_field byte example_IsValid example_ToString example_Parse 4
                    [x00; x00; x00; x00] (WriteStream [])
                    (f_address x41) [] =
      Done (f_address x41, [] ++ bits)
    /\ serialize_field byte example_IsValid example_ToString example_Parse 4
                       [x00; x00; x00; x00] (ReadStream [])
                       (f_address x00)
                       {| bits_read := 0; unread := bits ++ [] |} =
       Done (f', {| bits_read := 0 + Z.of_nat (length bits); unread := [] |})
    /\ value_of byte f' = v_address x41.
Proof.
  apply (directive_roundtrip [] byte example_IsValid example_ToString example_Parse 4
                             [x00; x00; x00; x00]
                             (f_address x41) (f_address x00) [] []).
  - cbn. split; [reflexivity|]. split; [lia|].
    exists 1. split; [reflexivity | lia].
  - cbn. split; [reflexivity|].
    intros buffer H. destruct buffer as [|c r]; [discriminate H|].
    cbn in H. destruct (Byte.eqb c x00); [discriminate H|].
    injection H as Hc _. exact Hc.
  - reflexivity.
  - exact I.
Defined.

(** C1 as stated fails on the delta codec: with both flags false the
    measuring engine counts the six flags and the 32-bit fallback, 38 bits,
    for an object whose only member is a delta of 1, which is written on one
    bit. *)
Lemma measure_differs_from_write :
  let o := o_field (f_int_relative 0 1) o_end in
  valid_object byte example_IsValid example_ToString 4 [x00; x00; x00; x00] o
  /\ Serialize byte example_IsValid example_ToString example_Parse 4
               [x00; x00; x00; x00] (WriteStream []) o [] = Done (o, [true])
  /\ Serialize byte example_IsValid example_ToString example_Parse 4
               [x00; x00; x00; x00] (MeasureStream []) o 0 = Done (o, 38)
  /\ 38 <> Z.of_nat (length [true]).
Proof.
  cbv zeta. split; [|split; [|split]].
  - cbn. repeat split; lia.
  - reflexivity.
  - reflexivity.
  - cbn. lia.
Qed.

(** C1, amended, at an object with a bounded integer, a nested object that
    holds a delta of 1, and a boolean. *)
Lemma measure_write_agreement_witness :
  let o := o_field (f_int int32_t 5 0 10)
             (o_object (o_field (f_int_relative 0 1) o_end)
                (o_field (f_bool true) o_end)) in
  exists bits,
    Serialize byte example_IsValid example_ToString example_Parse 4
              [x00; x00; x00; x00] (WriteStream []) o [] = Done (o, [] ++ bits)
    /\ Serialize byte example_IsValid example_ToString example_Parse 4
                 [x00; x00; x00; x00] (MeasureStreamWith [] true) o 0 =
       Done (o, 0 + Z.of_nat (length bits)).
Proof.
  cbv zeta.
  destruct (measure_write_agreement [] byte example_IsValid example_ToString
              example_Parse 4 [x00; x00; x00; x00]
              (o_field (f_int int32_t 5 0 10)
                 (o_object (o_field (f_int_relative 0 1) o_end)
                    (o_field (f_bool true) o_end))) [])
    as (bits & Hw & Hm & _).
  - cbn. repeat split; lia.
  - exists bits. split; [exact Hw | exact Hm].
Defined.

(** * Further properties *)

(** ** Whole objects, write then read *)

Section ObjectRoundTrip.

Variable check_pattern : list bool.
Variable Address : Type.
Variable IsValid : Address -> bool.
Variable ToString : Address -> list byte -> Z -> list byte.
Variable Parse : list byte -> Address.
Variable MaxAddressLength : Z.
Variable stack_buffer : list byte.

Local Abbreviation W := (WriteStream check_pattern).
Local Abbreviation R := (ReadStream check_pattern).
Local Abbreviation valid_o :=
  (valid_object Address IsValid ToString MaxAddressLength stack_buffer).
Local Abbreviation decodable_o :=
  (decodable_object Address ToString Parse MaxAddressLength stack_buffer).
Local Abbreviation run_o :=
  (Serialize Address IsValid ToString Parse MaxAddressLength stack_buffer).
Local Abbreviation write_o :=
  (SerializeInternal_write check_pattern Address IsValid ToString Parse
                           MaxAddressLength stack_buffer).
Local Abbreviation read_o :=
  (SerializeInternal_read check_pattern Address IsValid ToString Parse
                          MaxAddressLength stack_buffer).

Lemma object_codec (o : object Address) :
  valid_o o ->
  forall s, exists bits,
    run_o W o s = Done (o, s ++ bits)
    /\ (decodable_o o ->
        forall o0 rest,
          same_shape Address o o0 -> reader_ready_object Address o0 ->
          exists o',
            run_o R o0 {| bits_read := Z.of_nat (length s); unread := bits ++ rest |} =
            Done (o', {| bits_read := Z.of_nat (length s) + Z.of_nat (length bits);
                         unread := rest |})
            /\ same_shape Address o o'
            /\ values_of Address o' = values_of Address o).
Proof.
  induction o as [|f tail IH|inner IHinner tail IHtail];
    cbn [valid_object]; intros Hv s.
  - exists []. split; [cbn [Serialize]; unfold ret; now rewrite app_nil_r|].
    intros _ o0 rest Hshape _. destruct o0; try contradiction.
    exists o_end. cbn [Serialize app length]. unfold ret.
    split; [|split; [exact I | reflexivity]].
    apply f_equal. apply f_equal2; [reflexivity|].
    apply f_equal2; [lia | reflexivity].
  - destruct Hv as [Hf Htail].
    destruct (field_codec check_pattern Address IsValid ToString Parse
                          MaxAddressLength stack_buffer f s Hf) as (b1 & Hw1 & Hr1).
    destruct (IH Htail (s ++ b1)) as (b2 & Hw2 & Hr2).
    exists (b1 ++ b2). split.
    { cbn [Serialize]. unfold bind. rewrite Hw1, Hw2.
      unfold ret. now rewrite app_assoc. }
    cbn [decodable_object]. intros [Hdf Hdt] o0 rest Hshape Hready.
    destruct o0 as [|f0 tail0|]; try contradiction.
    cbn [same_shape] in Hshape. destruct Hshape as [Hsf Hst].
    cbn [reader_ready_object] in Hready. destruct Hready as [Hrf Hrt].
    destruct (Hr1 Hdf f0 (b2 ++ rest) Hsf Hrf) as (f' & Hread1 & Hd1 & Hv1).
    destruct (Hr2 Hdt tail0 rest Hst Hrt) as (tail' & Hread2 & Hs2 & Hv2).
    exists (o_field f' tail'). split; [|split].
    + cbn [Serialize]. unfold bind. rewrite <- app_assoc, Hread1.
      rewrite length_app, Nat2Z.inj_add in Hread2. rewrite Hread2.
      unfold ret. apply f_equal. apply f_equal2; [reflexivity|].
      apply f_equal2; [|reflexivity]. rewrite length_app. lia.
    + cbn [same_shape]. split; [exact Hd1 | exact Hs2].
    + cbn [values_of]. now rewrite Hv1, Hv2.
  - destruct Hv as [Hinner Htail].
    destruct (IHinner Hinner s) as (b1 & Hw1 & Hr1).
    destruct (IHtail Htail (s ++ b1)) as (b2 & Hw2 & Hr2).
    exists (b1 ++ b2). split.
    { cbn [Serialize]. unfold bind. rewrite Hw1, Hw2.
      unfold ret. now rewrite app_assoc. }
    cbn [decodable_object]. intros [Hdi Hdt] o0 rest Hshape Hready.
    destruct o0 as [| |inner0 tail0]; try contradiction.
    cbn [same_shape] in Hshape. destruct Hshape as [Hsi Hst].
    cbn [reader_ready_object] in Hready. destruct Hready as [Hri Hrt].
    destruct (Hr1 Hdi inner0 (b2 ++ rest) Hsi Hri) as (inner' & Hread1 & Hs1 & Hv1).
    destruct (Hr2 Hdt tail0 rest Hst Hrt) as (tail' & Hread2 & Hs2 & Hv2).
    exists (o_object inner' tail'). split; [|split].
    + cbn [Serialize]. unfold bind. rewrite <- app_assoc, Hread1.
      rewrite length_app, Nat2Z.inj_add in Hread2. rewrite Hread2.
      unfold ret. apply f_equal. apply f_equal2; [reflexivity|].
      apply f_equal2; [|reflexivity]. rewrite length_app. lia.
    + cbn [same_shape]. split; [exact Hs1 | exact Hs2].
    + cbn [values_of]. now rewrite Hv1, Hv2.
Qed.

(** X1: a valid object whose values can be decoded is written, and an
    object of the same shape, read through its own virtual serialize
    function from the bits written (at the same bit position, with buffers
    of the right size), ends with the values written, member by member, and
    has taken exactly those bits. *)
Theorem object_roundtrip (o o0 : object Address) (s rest : list bool) :
  valid_o o -> decodable_o o ->
  same_shape Address o o0 -> reader_ready_object Address o0 ->
  exists bits o',
    write_o o s = Done (o, s ++ bits)
    /\ read_o o0 {| bits_read := Z.of_nat (length s); unread := bits ++ rest |} =
       Done (o', {| bits_read := Z.of_nat (length s) + Z.of_nat (length bits);
                    unread := rest |})
    /\ values_of Address o' = values_of Address o.
Proof.
  intros Hv Hd Hs Hr.
  destruct (object_codec o Hv s) as (bits & Hw & Hread).
  destruct (Hread Hd o0 rest Hs Hr) as (o' & Hread' & _ & Hval).
  exists bits, o'. unfold SerializeInternal_write, SerializeInternal_read. auto.
Qed.

(** X2: writing is one-to-one on values: two valid, decodable objects of the
    same shape that are written, from the same position, to the same bits
    hold the same values. *)
Theorem write_injective (o1 o2 : object Address) (s out : list bool) :
  valid_o o1 -> decodable_o o1 -> valid_o o2 -> decodable_o o2 ->
  same_shape Address o1 o2 -> reader_ready_object Address o2 ->
  write_o o1 s = Done (o1, out) ->
  write_o o2 s = Done (o2, out) ->
  values_of Address o1 = values_of Address o2.
Proof.
  intros Hv1 Hd1 Hv2 Hd2 Hshape Hready Hw1 Hw2.
  destruct (object_codec o1 Hv1 s) as (b1 & Hb1 & Hr1).
  destruct (object_codec o2 Hv2 s) as (b2 & Hb2 & Hr2).
  unfold SerializeInternal_write in *.
  rewrite Hb1 in Hw1. rewrite Hb2 in Hw2.
  injection Hw1 as Hw1. injection Hw2 as Hw2.
  assert (b1 = b2) as <- by (apply (app_inv_head s); congruence).
  assert (same_shape Address o2 o2) as Hrefl.
  { clear. induction o2; cbn [same_shape]; auto. }
  destruct (Hr1 Hd1 o2 [] Hshape Hready) as (o1' & Hread1 & _ & Hval1).
  destruct (Hr2 Hd2 o2 [] Hrefl Hready) as (o2' & Hread2 & _ & Hval2).
  rewrite Hread1 in Hread2. injection Hread2 as <-.
  now rewrite <- Hval1, Hval2.
Qed.

End ObjectRoundTrip.

(** ** Reading a stream cut short *)

Lemma firstn_app_le {A : Type} (n : nat) (u q : list A) :
  (n <= length u)%nat -> firstn n (u ++ q) = firstn n u.
Proof.
  intros H. rewrite firstn_app.
  replace (n - length u)%nat with 0%nat by lia. cbn [firstn]. apply app_nil_r.
Qed.

Lemma skipn_app_le {A : Type} (n : nat) (u q : list A) :
  (n <= length u)%nat -> skipn n (u ++ q) = skipn n u ++ q.
Proof.
  intros H. rewrite skipn_app.
  replace (n - length u)%nat with 0%nat by lia. reflexivity.
Qed.

Lemma starts_with_length (pattern l : list bool) :
  starts_with pattern l = true -> (length pattern <= length l)%nat.
Proof.
  revert l; induction pattern as [|p ps IH]; intros l H; [cbn; lia|].
  destruct l as [|b r]; [discriminate|]. cbn [starts_with] in H.
  apply andb_true_iff in H as [_ H]. specialize (IH r H). cbn [length]. lia.
Qed.

Lemma starts_with_app_left (pattern l q : list bool) :
  (length pattern <= length l)%nat ->
  starts_with pattern (l ++ q) = starts_with pattern l.
Proof.
  revert l; induction pattern as [|p ps IH]; intros l H; [reflexivity|].
  destruct l as [|b r]; [cbn [length] in H; lia|].
  cbn [app starts_with]. rewrite IH by (cbn [length] in H; lia). reflexivity.
Qed.

Lemma starts_with_short (pattern l : list bool) :
  (length l < length pattern)%nat -> starts_with pattern l = false.
Proof.
  intros H. destruct (starts_with pattern l) eqn:E; [|reflexivity].
  apply starts_with_length in E. lia.
Qed.

Lemma take_bytes_app (n : nat) (u q : list bool) content rest :
  take_bytes n u = Some (content, rest) ->
  take_bytes n (u ++ q) = Some (content, rest ++ q).
Proof.
  intros H. destruct (take_bytes_length n u content rest H) as [Hlen Hu].
  subst u. rewrite <- Hlen, <- app_assoc. apply take_bytes_bytes_bits.
Qed.

Lemma cut_ret {A : Type} (q : list bool) (a : A) : cut_ok q (ret a).
Proof.
  intros full short x full' Hs H. unfold ret in *. injection H as <- <-.
  right. exists short. auto.
Qed.

Lemma cut_bind {A B : Type} (q : list bool) (c : M reader A) (k : A -> M reader B) :
  cut_ok q c -> (forall a, cut_ok q (k a)) -> cut_ok q (bind c k).
Proof.
  intros Hc Hk full short b full' Hs H. unfold bind in *.
  destruct (c full) as [[a full1]| | |] eqn:E; try discriminate.
  destruct (Hc full short a full1 Hs E) as [Hf|(short1 & Hd & Hs1)].
  - left. now rewrite Hf.
  - rewrite Hd. exact (Hk a full1 short1 b full' Hs1 H).
Qed.

Lemma cut_assert (q : list bool) (cond : bool) : cut_ok q (yojimbo_assert cond).
Proof.
  intros full short x full' Hs H. unfold yojimbo_assert in *.
  destruct cond; [|discriminate]. injection H as <- <-.
  right. exists short. auto.
Qed.

Lemma cut_return_false {A : Type} (q : list bool) : cut_ok q (@return_false reader A).
Proof. intros full short x full' Hs H. discriminate. Qed.

Lemma cut_store (q : list bool) (string : list byte) (index : Z) (c : byte) :
  cut_ok q (store string index c).
Proof.
  intros full short x full' Hs H. unfold store in *.
  destruct ((0 <=? index) && (index <? Z.of_nat (length string))); [|discriminate].
  injection H as <- <-. right. exists short. auto.
Qed.

Section CutShort.

Variable check_pattern : list bool.
Variable q : list bool.

Local Abbreviation R := (ReadStream check_pattern).

Lemma cut_consume (n : nat) (full short : reader) :
  shortened q full short -> (n <= length (unread short))%nat ->
  shortened q (consume n full) (consume n short).
Proof.
  intros [Hp Hu] Hn. unfold shortened, consume. cbn [bits_read unread].
  rewrite Hp, Hu. split; [reflexivity|]. now apply skipn_app_le.
Qed.

Lemma cut_SerializeInteger (value min max : Z) :
  cut_ok q (SerializeInteger R value min max).
Proof.
  intros full short x full' Hs H. pose proof Hs as [Hp Hu].
  cbn [SerializeInteger ReadStream] in *.
  set (n := Z.to_nat (bits_required min max)) in *.
  destruct (length (unread full) <? n)%nat; [discriminate|].
  injection H as <- <-.
  destruct (Nat.ltb_spec (length (unread short)) n) as [Hshort|Hlong]; [now left|].
  right. exists (consume n short). split.
  - rewrite Hu, firstn_app_le by exact Hlong. reflexivity.
  - now apply cut_consume.
Qed.

Lemma cut_SerializeBits (value bits : Z) : cut_ok q (SerializeBits R value bits).
Proof.
  intros full short x full' Hs H. pose proof Hs as [Hp Hu].
  cbn [SerializeBits ReadStream] in *.
  set (n := Z.to_nat bits) in *.
  destruct (length (unread full) <? n)%nat; [discriminate|].
  injection H as <- <-.
  destruct (Nat.ltb_spec (length (unread short)) n) as [Hshort|Hlong]; [now left|].
  right. exists (consume n short). split.
  - rewrite Hu, firstn_app_le by exact Hlong. reflexivity.
  - now apply cut_consume.
Qed.

Lemma cut_SerializeBytes (data : list byte) (bytes : Z) :
  cut_ok q (SerializeBytes R data bytes).
Proof.
  intros full short x full' Hs H. pose proof Hs as [Hp Hu].
  cbn [SerializeBytes ReadStream] in *.
  destruct (take_bytes (Z.to_nat bytes) (unread short)) as [[content rest]|] eqn:E;
    [|now left].
  rewrite Hu, (take_bytes_app _ _ q _ _ E) in H.
  destruct (bytes >? Z.of_nat (length data)); [discriminate|].
  injection H as <- <-. right. eexists. split; [reflexivity|].
  apply (cut_consume (8 * Z.to_nat bytes) full short Hs).
  destruct (take_bytes_length _ _ _ _ E) as [Hlen Hbits].
  rewrite Hbits, length_app, length_bytes_bits, Hlen. lia.
Qed.

Lemma cut_SerializeAlign : cut_ok q (SerializeAlign R).
Proof.
  intros full short x full' Hs H. pose proof Hs as [Hp Hu].
  cbn [SerializeAlign ReadStream] in *. rewrite Hp in H.
  set (n := Z.to_nat (align_bits (bits_read short))) in *.
  destruct (length (unread full) <? n)%nat; [discriminate|].
  injection H as <- <-.
  destruct (Nat.ltb_spec (length (unread short)) n) as [Hshort|Hlong]; [now left|].
  right. exists (consume n short). split; [reflexivity|]. now apply cut_consume.
Qed.

Lemma cut_SerializeCheck : cut_ok q (SerializeCheck R).
Proof.
  intros full short x full' Hs H. pose proof Hs as [Hp Hu].
  cbn [SerializeCheck ReadStream] in *.
  destruct (starts_with check_pattern (unread full)) eqn:E; [|discriminate].
  injection H as <- <-.
  destruct (Nat.lt_ge_cases (length (unread short)) (length check_pattern))
    as [Hshort|Hlong].
  - left. now rewrite starts_with_short.
  - right. rewrite Hu, starts_with_app_left in E by exact Hlong. rewrite E.
    eexists. split; [reflexivity|]. now apply cut_consume.
Qed.

(** One step of a proof that a directive, in read mode, fails or goes on
    when the stream is cut short. *)
Ltac cut_step :=
  cbv zeta;
  lazymatch goal with
  | |- cut_ok _ (bind _ _) => apply cut_bind; [|intro]
  | |- cut_ok _ (ret _) => apply cut_ret
  | |- cut_ok _ return_false => apply cut_return_false
  | |- cut_ok _ (yojimbo_assert _) => apply cut_assert
  | |- cut_ok _ (store _ _ _) => apply cut_store
  | |- cut_ok _ (SerializeInteger _ _ _ _) => apply cut_SerializeInteger
  | |- cut_ok _ (SerializeBits _ _ _) => apply cut_SerializeBits
  | |- cut_ok _ (SerializeBytes _ _ _) => apply cut_SerializeBytes
  | |- cut_ok _ (SerializeAlign _) => apply cut_SerializeAlign
  | |- cut_ok _ (SerializeCheck _) => apply cut_SerializeCheck
  | |- cut_ok _ (if ?b then _ else _) => destruct b
  end.

Ltac read_flags := cbn [IsWriting IsReading ReadStream].

Lemma cut_int (T : ctype) (value min max : Z) :
  cut_ok q (serialize_int R T value min max).
Proof. unfold serialize_int. read_flags. repeat cut_step. Qed.

Lemma cut_bits (T : ctype) (value bits : Z) :
  cut_ok q (serialize_bits R T value bits).
Proof. unfold serialize_bits. read_flags. repeat cut_step. Qed.

Lemma cut_bool (value : bool) : cut_ok q (serialize_bool R value).
Proof.
  unfold serialize_bool. read_flags.
  apply cut_bind; [apply cut_bits | intro; apply cut_ret].
Qed.

Lemma cut_float (value : Z) : cut_ok q (serialize_float R value).
Proof.
  unfold serialize_float, serialize_float_internal. read_flags. repeat cut_step.
Qed.

Lemma cut_uint64 (value : Z) : cut_ok q (serialize_uint64 R value).
Proof.
  unfold serialize_uint64, serialize_uint64_internal. read_flags.
  repeat (apply cut_bind; [apply cut_bits | intro]). apply cut_ret.
Qed.

Lemma cut_double (value : Z) : cut_ok q (serialize_double R value).
Proof.
  unfold serialize_double, serialize_double_internal. read_flags.
  apply cut_bind; [apply cut_uint64 | intro; apply cut_ret].
Qed.

Lemma cut_string (string : list byte) (buffer_size : Z) :
  cut_ok q (serialize_string R string buffer_size).
Proof.
  unfold serialize_string, serialize_string_internal. read_flags.
  apply cut_bind; [apply cut_ret | intro].
  apply cut_bind; [apply cut_int | intro].
  apply cut_bind; [apply cut_SerializeBytes | intro; apply cut_store].
Qed.

Lemma cut_int_relative (previous current : Z) :
  cut_ok q (serialize_int_relative R previous current).
Proof.
  unfold serialize_int_relative, serialize_int_relative_internal, serialize_uint32.
  read_flags.
  apply cut_bind; [apply cut_ret | intro].
  repeat first [ apply cut_ret
               | apply cut_bits
               | apply cut_bind; [first [apply cut_bool | apply cut_int
                                         | apply cut_bits] | intro]
               | lazymatch goal with
                 | |- cut_ok _ (if ?b then _ else _) => destruct b
                 end
               | progress cbv zeta ].
Qed.

Lemma cut_ack_relative (sequence ack : Z) :
  cut_ok q (serialize_ack_relative R sequence ack).
Proof.
  unfold serialize_ack_relative, serialize_ack_relative_internal. read_flags.
  apply cut_bind; [apply cut_ret | intro].
  cbv zeta. apply cut_bind; [apply cut_bool | intro].
  lazymatch goal with
  | |- cut_ok _ (if ?b then _ else _) => destruct b
  end.
  - apply cut_bind; [apply cut_int | intro; apply cut_ret].
  - apply cut_bits.
Qed.

Lemma cut_sequence_relative (sequence1 sequence2 : Z) :
  cut_ok q (serialize_sequence_relative R sequence1 sequence2).
Proof.
  unfold serialize_sequence_relative, serialize_sequence_relative_internal.
  read_flags. cbv zeta.
  apply cut_bind; [apply cut_int_relative | intro; apply cut_ret].
Qed.

End CutShort.

Section CutShortObjects.

Variable check_pattern : list bool.
Variable Address : Type.
Variable IsValid : Address -> bool.
Variable ToString : Address -> list byte -> Z -> list byte.
Variable Parse : list byte -> Address.
Variable MaxAddressLength : Z.
Variable stack_buffer : list byte.

Local Abbreviation R := (ReadStream check_pattern).
Local Abbreviation valid_o :=
  (valid_object Address IsValid ToString MaxAddressLength stack_buffer).
Local Abbreviation decodable_o :=
  (decodable_object Address ToString Parse MaxAddressLength stack_buffer).
Local Abbreviation run :=
  (serialize_field Address IsValid ToString Parse MaxAddressLength stack_buffer).
Local Abbreviation run_o :=
  (Serialize Address IsValid ToString Parse MaxAddressLength stack_buffer).
Local Abbreviation write_o :=
  (SerializeInternal_write check_pattern Address IsValid ToString Parse
                           MaxAddressLength stack_buffer).
Local Abbreviation read_o :=
  (SerializeInternal_read check_pattern Address IsValid ToString Parse
                          MaxAddressLength stack_buffer).

Lemma cut_address (q : list bool) (a : Address) :
  cut_ok q (serialize_address Address IsValid ToString Parse MaxAddressLength
                              stack_buffer R a).
Proof.
  unfold serialize_address, serialize_address_internal.
  cbn [IsWriting IsReading ReadStream].
  apply cut_bind; [apply cut_ret | intro].
  apply cut_bind; [apply cut_string | intro].
  cbv zeta. destruct (negb _); [apply cut_return_false | apply cut_ret].
Qed.

Lemma cut_field (q : list bool) (f : field Address) : cut_ok q (run R f).
Proof.
  destruct f; cbn [serialize_field];
    (apply cut_bind; [|intro; apply cut_ret]).
  - apply cut_int.
  - apply cut_bits.
  - apply cut_bool.
  - apply cut_float.
  - apply cut_bits.
  - apply cut_uint64.
  - apply cut_double.
  - apply cut_SerializeBytes.
  - apply cut_string.
  - apply cut_SerializeAlign.
  - apply cut_SerializeCheck.
  - apply cut_address.
  - apply cut_int_relative.
  - apply cut_ack_relative.
  - apply cut_sequence_relative.
Qed.

Lemma cut_object (q : list bool) (o : object Address) : cut_ok q (run_o R o).
Proof.
  induction o as [|f tail IH|inner IHinner tail IHtail]; cbn [Serialize].
  - apply cut_ret.
  - apply cut_bind; [apply cut_field | intro].
    apply cut_bind; [apply IH | intro; apply cut_ret].
  - apply cut_bind; [apply IHinner | intro].
    apply cut_bind; [apply IHtail | intro; apply cut_ret].
Qed.

(** X3: a stream cut short is a decode failure.  When a valid, decodable
    object is written as the bits [p ++ q] with [q] not empty, an object of
    the same shape read from [p] alone returns false: it does not return
    true, trip an assertion or leave a buffer. *)
Theorem truncated_read_fails (o o0 : object Address) (s p q : list bool) :
  valid_o o -> decodable_o o ->
  same_shape Address o o0 -> reader_ready_object Address o0 ->
  write_o o s = Done (o, s ++ p ++ q) ->
  q <> [] ->
  read_o o0 {| bits_read := Z.of_nat (length s); unread := p |} = Failed.
Proof.
  intros Hv Hd Hshape Hready Hw Hq.
  destruct (object_codec check_pattern Address IsValid ToString Parse
                         MaxAddressLength stack_buffer o Hv s) as (bits & Hb & Hr).
  unfold SerializeInternal_write, SerializeInternal_read in *.
  rewrite Hb in Hw. injection Hw as Hw. apply app_inv_head in Hw. subst bits.
  destruct (Hr Hd o0 [] Hshape Hready) as (o' & Hread & _ & _).
  rewrite app_nil_r in Hread.
  assert (shortened q {| bits_read := Z.of_nat (length s); unread := p ++ q |}
                      {| bits_read := Z.of_nat (length s); unread := p |}) as Hs
      by (split; reflexivity).
  destruct (cut_object q o0 _ _ _ _ Hs Hread) as [Hf|(short' & _ & _ & Hu)];
    [exact Hf|].
  cbn [unread] in Hu. symmetry in Hu. apply app_eq_nil in Hu as [_ Hu].
  contradiction.
Qed.

End CutShortObjects.

(** ** Reading whatever a stream holds *)

Lemma returns_ret {S A : Type} (a : A) (s : S) (P : A -> S -> Prop) :
  P a s -> returns (ret a) s P.
Proof. intros H. exact H. Qed.

Lemma returns_bind {S A B : Type} (c : M S A) (k : A -> M S B) (s : S)
      (P : A -> S -> Prop) (Q : B -> S -> Prop) :
  returns c s P -> (forall a s', P a s' -> returns (k a) s' Q) ->
  returns (bind c k) s Q.
Proof.
  unfold returns, bind. intros Hc Hk.
  destruct (c s) as [[a s']| | |]; try contradiction; [|exact I].
  exact (Hk a s' Hc).
Qed.

Lemma returns_weaken {S A : Type} (c : M S A) (s : S) (P Q : A -> S -> Prop) :
  returns c s P -> (forall a s', P a s' -> Q a s') -> returns c s Q.
Proof.
  unfold returns. intros Hc HPQ.
  destruct (c s) as [[a s']| | |]; auto.
Qed.

Lemma returns_assert {S : Type} (cond : bool) (s : S) (P : unit -> S -> Prop) :
  cond = true -> P tt s -> returns (yojimbo_assert cond) s P.
Proof. intros -> H. exact H. Qed.

Lemma returns_assert_bind {S B : Type} (cond : bool) (k : unit -> M S B) (s : S)
      (Q : B -> S -> Prop) :
  cond = true -> returns (k tt) s Q -> returns (bind (yojimbo_assert cond) k) s Q.
Proof. intros -> H. exact H. Qed.

Lemma returns_ret_bind {S A B : Type} (a : A) (k : A -> M S B) (s : S)
      (Q : B -> S -> Prop) :
  returns (k a) s Q -> returns (bind (ret a) k) s Q.
Proof. intros H. exact H. Qed.

Lemma returns_done {S A : Type} (c : M S A) (s : S) (P : A -> S -> Prop) a s' :
  returns c s P -> c s = Done (a, s') -> P a s'.
Proof. unfold returns. intros H E. now rewrite E in H. Qed.

Lemma returns_safe {S A : Type} (c : M S A) (s : S) (P : A -> S -> Prop) :
  returns c s P -> c s <> Aborted /\ c s <> OutOfBounds.
Proof.
  unfold returns. destruct (c s) as [[a s']| | |]; intros H;
    try contradiction; split; discriminate.
Qed.

Lemma strlen_terminated_within (front tail : list byte) :
  exists m, strlen (front ++ x00 :: tail) = Some m /\ 0 <= m <= Z.of_nat (length front).
Proof.
  induction front as [|c r (m & Hm & Hr)].
  - exists 0. cbn. split; [reflexivity | lia].
  - cbn [app strlen]. destruct (Byte.eqb c x00).
    + exists 0. split; [reflexivity | cbn [length]; lia].
    + exists (m + 1). rewrite Hm. split; [reflexivity | cbn [length]; lia].
Qed.

Section ReadSafety.

Variable check_pattern : list bool.

Local Abbreviation R := (ReadStream check_pattern).

Lemma safe_SerializeInteger (value min max : Z) (r : reader) :
  returns (SerializeInteger R value min max) r (fun _ _ => True).
Proof.
  unfold returns. cbn [SerializeInteger ReadStream].
  destruct (_ <? _)%nat; exact I.
Qed.

Lemma safe_SerializeBits (value bits : Z) (r : reader) :
  returns (SerializeBits R value bits) r (fun _ _ => True).
Proof.
  unfold returns. cbn [SerializeBits ReadStream].
  destruct (_ <? _)%nat; exact I.
Qed.

Lemma safe_SerializeBytes (data : list byte) (bytes : Z) (r : reader) :
  bytes <= Z.of_nat (length data) ->
  returns (SerializeBytes R data bytes) r (fun d _ => length d = length data).
Proof.
  intros Hb. unfold returns. cbn [SerializeBytes ReadStream].
  destruct (take_bytes (Z.to_nat bytes) (unread r)) as [[content rest]|] eqn:E;
    [|exact I].
  destruct (take_bytes_length _ _ _ _ E) as [Hlen _].
  rewrite Z.gtb_ltb. destruct (Z.ltb_spec (Z.of_nat (length data)) bytes); [lia|].
  rewrite length_app, length_skipn, Hlen. lia.
Qed.

Lemma safe_int (T : ctype) (value min max : Z) (r : reader) :
  min < max ->
  returns (serialize_int R T value min max) r (fun v _ => min <= v <= max).
Proof.
  intros Hlt. unfold serialize_int. cbn [IsWriting IsReading ReadStream].
  apply returns_assert_bind; [lia|].
  apply returns_ret_bind.
  eapply returns_bind; [apply safe_SerializeInteger|].
  intros v r2 _. cbv zeta. rewrite Z.gtb_ltb.
  destruct (Z.ltb_spec (cast T v) min); [exact I|].
  destruct (Z.ltb_spec max (cast T v)); [exact I|].
  cbn [orb]. apply returns_ret. lia.
Qed.

Lemma safe_bits (T : ctype) (value bits : Z) (r : reader) :
  0 < bits <= 32 ->
  returns (serialize_bits R T value bits) r (fun _ _ => True).
Proof.
  intros Hb. unfold serialize_bits. cbn [IsWriting IsReading ReadStream].
  apply returns_assert_bind; [lia|]. apply returns_assert_bind; [lia|].
  cbv zeta. eapply returns_bind; [apply safe_SerializeBits|].
  intros v r3 _. exact I.
Qed.

Lemma safe_bool (value : bool) (r : reader) :
  returns (serialize_bool R value) r (fun _ _ => True).
Proof.
  unfold serialize_bool. cbn [IsWriting IsReading ReadStream]. cbv zeta.
  eapply returns_bind; [apply safe_bits; lia|]. intros v r1 _. exact I.
Qed.

Lemma safe_uint64 (value : Z) (r : reader) :
  returns (serialize_uint64 R value) r (fun _ _ => True).
Proof.
  unfold serialize_uint64, serialize_uint64_internal.
  cbn [IsWriting IsReading ReadStream]. cbv zeta.
  eapply returns_bind; [apply safe_bits; lia|]. intros lo r1 _.
  eapply returns_bind; [apply safe_bits; lia|]. intros hi r2 _. exact I.
Qed.

(** What the read path of the string directive leaves in the buffer,
    whatever the stream holds. *)
Lemma safe_string (string : list byte) (buffer_size : Z) (r : reader) :
  1 < buffer_size -> Z.of_nat (length string) = buffer_size ->
  returns (serialize_string R string buffer_size) r
          (fun buffer _ =>
             length buffer = length string
             /\ exists m, strlen buffer = Some m /\ 0 <= m < buffer_size).
Proof.
  intros Hbs Hcap. unfold serialize_string, serialize_string_internal.
  cbn [IsWriting IsReading ReadStream]. apply returns_ret_bind.
  eapply returns_bind; [apply safe_int; lia|]. intros len r1 Hlen.
  cbv beta in Hlen.
  eapply returns_bind; [apply safe_SerializeBytes; lia|]. intros data r2 Hdata.
  cbv beta in Hdata. unfold returns, store.
  replace ((0 <=? len) && (len <? Z.of_nat (length data))) with true
    by (symmetry; apply andb_true_iff; split;
        [apply Z.leb_le | apply Z.ltb_lt]; lia).
  split.
  - rewrite length_app. cbn [length]. rewrite length_firstn, length_skipn. lia.
  - destruct (strlen_terminated_within
                (firstn (Z.to_nat len) data)
                (skipn (Datatypes.S (Z.to_nat len)) data)) as (m & Hm & Hr).
    exists m. split; [exact Hm|]. rewrite length_firstn in Hr. lia.
Qed.

Lemma safe_int_relative (previous current : Z) (r : reader) :
  returns (serialize_int_relative R previous current) r (fun _ _ => True).
Proof.
  unfold serialize_int_relative, serialize_int_relative_internal, serialize_uint32.
  cbn [IsWriting IsReading ReadStream]. apply returns_ret_bind. cbv zeta.
  repeat first
    [ exact I
    | eapply returns_bind; [apply safe_bool | intros ? ? _]
    | eapply returns_bind; [apply safe_int; lia | intros ? ? _]
    | eapply returns_bind; [apply safe_bits; lia | intros ? ? _]
    | lazymatch goal with
      | |- returns (if ?b then _ else _) _ _ => destruct b
      end ].
Qed.

Lemma safe_ack_relative (sequence ack : Z) (r : reader) :
  returns (serialize_ack_relative R sequence ack) r (fun _ _ => True).
Proof.
  unfold serialize_ack_relative, serialize_ack_relative_internal.
  cbn [IsWriting IsReading ReadStream]. apply returns_ret_bind. cbv zeta. cbn [fst snd].
  eapply returns_bind; [apply safe_bool | intros b r1 _].
  destruct b.
  - eapply returns_bind; [apply safe_int; lia | intros ? ? _]. exact I.
  - apply safe_bits. lia.
Qed.

Lemma safe_sequence_relative (sequence1 sequence2 : Z) (r : reader) :
  returns (serialize_sequence_relative R sequence1 sequence2) r (fun _ _ => True).
Proof.
  unfold serialize_sequence_relative, serialize_sequence_relative_internal.
  cbn [IsWriting IsReading ReadStream]. cbv zeta.
  eapply returns_bind; [apply safe_int_relative | intros ? ? _]. exact I.
Qed.

(** X5: whatever the stream holds, when the read path of the string
    directive returns true on a buffer of [buffer_size] bytes, the buffer
    still has [buffer_size] bytes and holds a terminated text: its first
    zero byte is inside the buffer. *)
Theorem read_string_terminated
        (string buffer : list byte) (buffer_size : Z) (r r' : reader) :
  1 < buffer_size -> Z.of_nat (length string) = buffer_size ->
  serialize_string R string buffer_size r = Done (buffer, r') ->
  length buffer = length string
  /\ exists m, strlen buffer = Some m /\ 0 <= m < buffer_size.
Proof.
  intros Hbs Hcap Hdone.
  exact (returns_done _ _ _ _ _ (safe_string string buffer_size r Hbs Hcap) Hdone).
Qed.

End ReadSafety.

Section ReadSafetyObjects.

Variable check_pattern : list bool.
Variable Address : Type.
Variable IsValid : Address -> bool.
Variable ToString : Address -> list byte -> Z -> list byte.
Variable Parse : list byte -> Address.
Variable MaxAddressLength : Z.
Variable stack_buffer : list byte.

Local Abbreviation R := (ReadStream check_pattern).
Local Abbreviation run :=
  (serialize_field Address IsValid ToString Parse MaxAddressLength stack_buffer).
Local Abbreviation run_o :=
  (Serialize Address IsValid ToString Parse MaxAddressLength stack_buffer).
Local Abbreviation read_o :=
  (SerializeInternal_read check_pattern Address IsValid ToString Parse
                          MaxAddressLength stack_buffer).
Local Abbreviation readable :=
  (readable_field Address MaxAddressLength stack_buffer).
Local Abbreviation readable_o :=
  (readable_object Address MaxAddressLength stack_buffer).

Lemma safe_address (a : Address) (r : reader) :
  1 < MaxAddressLength -> Z.of_nat (length stack_buffer) = MaxAddressLength ->
  returns (serialize_address Address IsValid ToString Parse MaxAddressLength
                             stack_buffer R a) r
          (fun a' _ => IsValid a' = true).
Proof.
  intros Hmax Hcap. unfold serialize_address, serialize_address_internal.
  cbn [IsWriting IsReading ReadStream]. apply returns_ret_bind.
  eapply returns_bind; [apply safe_string; assumption|]. intros buffer r1 _.
  cbv zeta. destruct (IsValid (Parse buffer)) eqn:E; cbn [negb]; [exact E | exact I].
Qed.

Lemma safe_align (r : reader) :
  returns (serialize_align R) r (fun _ _ => True).
Proof.
  unfold returns, serialize_align. cbn [SerializeAlign ReadStream].
  destruct (_ <? _)%nat; exact I.
Qed.

Lemma safe_check (r : reader) :
  returns (serialize_check R) r (fun _ _ => True).
Proof.
  unfold returns, serialize_check. cbn [SerializeCheck ReadStream].
  destruct (starts_with _ _); exact I.
Qed.

Lemma safe_field (f : field Address) (r : reader) :
  readable f -> returns (run R f) r (fun _ _ => True).
Proof.
  intros Hr.
  destruct f; cbn [readable_field] in Hr; cbn [serialize_field];
    (eapply returns_bind; [|intros ? ? _; exact I]).
  - apply safe_int. exact Hr.
  - apply safe_bits. exact Hr.
  - apply safe_bool.
  - unfold serialize_float, serialize_float_internal.
    cbn [IsWriting IsReading ReadStream]. cbv zeta.
    eapply returns_bind; [apply safe_SerializeBits | intros ? ? _; exact I].
  - apply safe_bits. lia.
  - apply safe_uint64.
  - unfold serialize_double, serialize_double_internal.
    cbn [IsWriting IsReading ReadStream]. cbv zeta.
    eapply returns_bind; [apply safe_uint64 | intros ? ? _; exact I].
  - apply safe_SerializeBytes. exact Hr.
  - destruct Hr as [Hbs Hcap]. apply safe_string; assumption.
  - apply safe_align.
  - apply safe_check.
  - destruct Hr as [Hmax Hcap]. apply safe_address; assumption.
  - apply safe_int_relative.
  - apply safe_ack_relative.
  - apply safe_sequence_relative.
Qed.

Lemma safe_object (o : object Address) :
  readable_o o -> forall r, returns (run_o R o) r (fun _ _ => True).
Proof.
  induction o as [|f tail IH|inner IHinner tail IHtail];
    cbn [readable_object Serialize]; intros Hr r.
  - exact I.
  - destruct Hr as [Hf Ht].
    eapply returns_bind; [apply safe_field; exact Hf | intros ? ? _].
    eapply returns_bind; [apply IH; exact Ht | intros ? ? _; exact I].
  - destruct Hr as [Hi Ht].
    eapply returns_bind; [apply IHinner; exact Hi | intros ? ? _].
    eapply returns_bind; [apply IHtail; exact Ht | intros ? ? _; exact I].
Qed.

(** X4: the read path cannot be crashed from the stream.  For an object
    whose directive calls have sound parameters (min < max, a width in
    [1,32], buffers of the size the calls say), reading from any stream at
    all returns true or false: no assertion is tripped and no buffer is
    left, whatever bits arrive. *)
Theorem read_never_crashes (o : object Address) (r : reader) :
  readable_o o ->
  read_o o r <> Aborted /\ read_o o r <> OutOfBounds.
Proof.
  intros Hr. unfold SerializeInternal_read.
  exact (returns_safe _ _ _ (safe_object o Hr r)).
Qed.

End ReadSafetyObjects.

(** ** Addresses *)

Section AddressRead.

Variable Address : Type.
Variable IsValid : Address -> bool.
Variable ToString : Address -> list byte -> Z -> list byte.
Variable Parse : list byte -> Address.
Variable MaxAddressLength : Z.
Variable stack_buffer : list byte.

Context {S : Type} (stream : Stream S).

(** X6: in read mode, on any stream, the address directive reads one
    string into its stack buffer at the current position and parses it.  An
    address it returns true with is valid and is the one parsed from that
    string, with the stream left where the string ended; when the string is
    read, the directive returns the parsed address if it is valid and false
    if it is not; and when the string is a decode failure, so is the
    address.  The address passed in plays no part. *)
Theorem read_address_is_valid (address0 : Address) (s : S) :
  IsReading stream = true -> IsWriting stream = false ->
  (forall address s',
     serialize_address Address IsValid ToString Parse MaxAddressLength stack_buffer
                       stream address0 s = Done (address, s') ->
     IsValid address = true
     /\ exists buffer,
          serialize_string stream stack_buffer MaxAddressLength s = Done (buffer, s')
          /\ address = Parse buffer)
  /\ (forall buffer s',
        serialize_string stream stack_buffer MaxAddressLength s = Done (buffer, s') ->
        serialize_address Address IsValid ToString Parse MaxAddressLength stack_buffer
                          stream address0 s =
        if IsValid (Parse buffer) then Done (Parse buffer, s') else Failed)
  /\ (serialize_string stream stack_buffer MaxAddressLength s = Failed ->
      serialize_address Address IsValid ToString Parse MaxAddressLength stack_buffer
                        stream address0 s = Failed).
Proof.
  intros Hreading Hwriting.
  assert (serialize_address Address IsValid ToString Parse MaxAddressLength
                            stack_buffer stream address0 s =
          match serialize_string stream stack_buffer MaxAddressLength s with
          | Done (buffer, s') =>
              if IsValid (Parse buffer) then Done (Parse buffer, s') else Failed
          | Failed => Failed
          | Aborted => Aborted
          | OutOfBounds => OutOfBounds
          end) as Heq.
  { unfold serialize_address, serialize_address_internal.
    rewrite Hreading, Hwriting. rewrite bind_ret. unfold bind.
    destruct (serialize_string stream stack_buffer MaxAddressLength s)
      as [[buffer s1]| | |]; try reflexivity.
    cbv zeta. destruct (IsValid (Parse buffer)); reflexivity. }
  rewrite Heq. clear Heq.
  destruct (serialize_string stream stack_buffer MaxAddressLength s)
    as [[buffer s1]| | |].
  - split; [|split; [|discriminate]].
    + intros address s' H.
      destruct (IsValid (Parse buffer)) eqn:Ev; [|discriminate].
      assert (address = Parse buffer) as -> by congruence.
      split; [exact Ev|]. exists buffer. split; congruence.
    + intros buffer' s' H.
      assert (buffer' = buffer) as -> by congruence.
      assert (s' = s1) as -> by congruence. reflexivity.
  - split; [|split]; [discriminate | discriminate | reflexivity].
  - split; [|split]; discriminate.
  - split; [|split]; discriminate.
Qed.

End AddressRead.

(** ** What the relative codecs accept and what they cost *)

Lemma delta_bits_length (difference current : Z) :
  Z.of_nat (length (delta_bits difference current)) =
  if difference =? 1 then 1
  else if difference <=? 6 then 5
  else if difference <=? 23 then 8
  else if difference <=? 280 then 13
  else if difference <=? 4377 then 18
  else if difference <=? 69914 then 23
  else 38.
Proof.
  unfold delta_bits.
  repeat match goal with |- context [if ?c then _ else _] => destruct c end;
    rewrite ?length_app, ?length_to_bits; reflexivity.
Qed.

Section RelativeCodecFacts.

Variable check_pattern : list bool.

Local Abbreviation W := (WriteStream check_pattern).
Local Abbreviation R := (ReadStream check_pattern).

(** X7: whatever follows on the stream, an ack that the read path of the
    ack-relative codec returns after a true flag is a 16-bit value that lies
    1 to 64 behind the sequence number, modulo 65536. *)
Theorem read_ack_in_window (sequence ack0 ack n : Z) (rest : list bool) (r' : reader) :
  in_type uint16_t sequence ->
  serialize_ack_relative R sequence ack0 {| bits_read := n; unread := true :: rest |} =
    Done (ack, r') ->
  in_type uint16_t ack /\ 1 <= (sequence - ack) mod 65536 <= 64.
Proof.
  intros Hs H. unfold serialize_ack_relative in H.
  destruct (Nat.lt_ge_cases (length rest) 6) as [Hshort|Hlong].
  - exfalso. unfold serialize_ack_relative_internal in H.
    cbn [IsWriting IsReading ReadStream] in H. rewrite bind_ret in H.
    cbn [fst snd] in H. rewrite bind_read_bool in H. cbv iota in H.
    unfold bind in H. rewrite read_int_short in H; [discriminate | lia | exact Hshort].
  - rewrite <- (firstn_skipn 6 rest) in H.
    change (true :: firstn 6 rest ++ skipn 6 rest)
      with ([true] ++ firstn 6 rest ++ skipn 6 rest) in H.
    rewrite read_ack_relative_in_range in H by (apply firstn_length_le; exact Hlong).
    assert (ack = cast uint16_t (sequence - (1 + from_bits (firstn 6 rest)))) as ->
        by congruence.
    clear H.
    pose proof (from_bits_bound (firstn 6 rest)) as Hb.
    rewrite firstn_length_le in Hb by exact Hlong.
    change (2 ^ Z.of_nat 6) with 64 in Hb.
    set (d := 1 + from_bits (firstn 6 rest)) in *.
    assert (1 <= d <= 64) as Hd by (unfold d; lia).
    split; [apply cast_range|]. clearbody d. unfold_types.
    destruct (Z.lt_ge_cases (sequence - d) 0) as [Hneg|Hpos].
    + replace ((sequence - d) mod 65536) with (sequence - d + 65536)
        by (apply Z.mod_unique with (q := -1); lia).
      replace ((sequence - (sequence - d + 65536)) mod 65536) with d
        by (apply Z.mod_unique with (q := -1); lia).
      exact Hd.
    + rewrite (Z.mod_small (sequence - d)) by lia.
      replace (sequence - (sequence - d)) with d by lia.
      rewrite Z.mod_small by lia. exact Hd.
Qed.

(** X8: the read path of the delta codec does not ask that the value be
    above the previous one, nor that the shortest encoding be used: six
    false flags followed by any 32-bit value are read as that value, whatever
    the previous value; so a value that the writer puts in a bucket has a
    second encoding the reader takes as well. *)
Theorem delta_read_takes_any_fallback (previous current0 v n : Z) (rest : list bool) :
  0 <= v < 2 ^ 32 ->
  serialize_int_relative R previous current0
    {| bits_read := n; unread := repeat false 6 ++ to_bits 32 v ++ rest |} =
    Done (v, {| bits_read := n + 38; unread := rest |})
  /\ (0 <= previous -> previous < v -> v - previous <= 69914 ->
      exists bits,
        serialize_int_relative W previous v [] = Done (v, bits)
        /\ bits <> repeat false 6 ++ to_bits 32 v
        /\ serialize_int_relative R previous current0
             {| bits_read := n; unread := bits ++ rest |} =
           Done (v, {| bits_read := n + Z.of_nat (length bits); unread := rest |})).
Proof.
  intros Hv. split.
  - unfold serialize_int_relative.
    rewrite read_int_relative_fallback by apply length_to_bits.
    now rewrite from_bits_to_bits_small.
  - intros H0 H1 HD. exists (delta_bits (v - previous) v). split; [|split].
    + unfold serialize_int_relative.
      now rewrite write_int_relative by lia.
    + intros Heq. apply (f_equal (fun l => Z.of_nat (length l))) in Heq.
      rewrite delta_bits_length in Heq.
      rewrite length_app, repeat_length, length_to_bits in Heq.
      revert Heq. zbool; cbn; lia.
    + unfold serialize_int_relative. now apply read_int_relative_roundtrip; lia.
Qed.

(** X9: what a delta costs.  The writer emits at least 1 and at most 38
    bits, and a larger difference never costs fewer bits than a smaller
    one. *)
Theorem delta_cost_monotone (previous1 current1 previous2 current2 : Z) :
  0 <= previous1 -> previous1 < current1 -> current1 < 2 ^ 32 ->
  0 <= previous2 -> previous2 < current2 -> current2 < 2 ^ 32 ->
  current1 - previous1 <= current2 - previous2 ->
  exists bits1 bits2,
    serialize_int_relative W previous1 current1 [] = Done (current1, bits1)
    /\ serialize_int_relative W previous2 current2 [] = Done (current2, bits2)
    /\ (1 <= length bits1 <= length bits2)%nat
    /\ (length bits2 <= 38)%nat.
Proof.
  intros Ha1 Hb1 Hc1 Ha2 Hb2 Hc2 Hle.
  exists (delta_bits (current1 - previous1) current1),
         (delta_bits (current2 - previous2) current2).
  unfold serialize_int_relative.
  rewrite !write_int_relative by assumption.
  split; [reflexivity|]. split; [reflexivity|].
  pose proof (delta_bits_length (current1 - previous1) current1) as L1.
  pose proof (delta_bits_length (current2 - previous2) current2) as L2.
  revert L1 L2. zbool; intros L1 L2; lia.
Qed.

(** X10: the sequence-relative codec never needs the 32-bit fallback of the
    delta codec: for two different 16-bit sequence numbers the unwrapped
    difference is at most 65535, a bucket matches, and at most 23 bits are
    written. *)
Theorem sequence_relative_cost (sequence1 sequence2 : Z) (s : list bool) :
  in_type uint16_t sequence1 -> in_type uint16_t sequence2 ->
  sequence1 <> sequence2 ->
  1 <= lifted sequence1 sequence2 - sequence1 <= 65535
  /\ exists bits,
       serialize_sequence_relative W sequence1 sequence2 s = Done (sequence2, s ++ bits)
       /\ (1 <= length bits <= 23)%nat.
Proof.
  intros H1 H2 Hne.
  destruct (lifted_above sequence1 sequence2 H1 H2 Hne) as [Hl Hd].
  split; [lia|].
  exists (delta_bits (lifted sequence1 sequence2 - sequence1) (lifted sequence1 sequence2)).
  split; [now apply write_sequence_relative|].
  pose proof (delta_bits_length (lifted sequence1 sequence2 - sequence1)
                                (lifted sequence1 sequence2)) as L.
  revert L. zbool; intros L; lia.
Qed.

End RelativeCodecFacts.

(** ** The read and write macros against the unified ones *)

Lemma bind_ret_right {S A : Type} (c : M S A) (s : S) : bind c ret s = c s.
Proof. unfold bind, ret. destruct (c s) as [[a s']| | |]; reflexivity. Qed.

Lemma converted_bound (T : ctype) (bound : Z) :
  (T = uint32_t -> 0 <= bound) -> in_type int32_t bound -> ReadWrite.converted T bound = bound.
Proof.
  intros HT Hb. destruct T; try reflexivity.
  unfold ReadWrite.converted. apply cast_in_type. specialize (HT eq_refl). unfold_types. lia.
Qed.

Section MacroAgreement.

Context {S : Type} (stream : Stream S).

(** X11: on a stream in read mode the read macros do what the unified
    macros do: [read_bits] is [serialize_bits], [read_bool] is
    [serialize_bool], and [read_int] is [serialize_int] when the bounds are
    [int]s and the variable is signed or the range starts at 0 or above. *)
Theorem read_macros_agree (T : ctype) (value0 bits min max : Z) (flag0 : bool) (s : S) :
  IsReading stream = true -> IsWriting stream = false ->
  (T = uint32_t -> 0 <= min) -> in_type int32_t min -> in_type int32_t max ->
  ReadWrite.read_bits stream T bits s = serialize_bits stream T value0 bits s
  /\ ReadWrite.read_bool stream s = serialize_bool stream flag0 s
  /\ ReadWrite.read_int stream T min max s = serialize_int stream T value0 min max s.
Proof.
  intros Hr Hw HT Hmin Hmax. split; [|split].
  - unfold ReadWrite.read_bits, serialize_bits. rewrite Hr, Hw. reflexivity.
  - unfold ReadWrite.read_bool, serialize_bool, serialize_bits.
    rewrite Hr, Hw. unfold bind, yojimbo_assert.
    change (1 >? 0) with true. change (1 <=? 32) with true. cbv iota beta zeta.
    destruct (SerializeBits stream 0 1 s) as [[v s']| | |]; reflexivity.
  - unfold ReadWrite.read_int, serialize_int. rewrite Hr, Hw.
    destruct (Z.ltb_spec min max) as [Hlt|Hge];
      [|unfold bind, yojimbo_assert; reflexivity].
    rewrite !converted_bound by (assumption || (intros; specialize (HT H); lia)).
    rewrite !assert_true by reflexivity. rewrite bind_ret. reflexivity.
Qed.

(** X12: on a stream in write mode the write macros do what the unified
    macros do and leave the value alone: [write_bits] is [serialize_bits],
    and [write_int] is [serialize_int] when the bounds are [int]s and the
    variable is signed or the range starts at 0 or above. *)
Theorem write_macros_agree (T : ctype) (value bits min max : Z) (s : S) :
  IsWriting stream = true -> IsReading stream = false ->
  (T = uint32_t -> 0 <= min) -> in_type int32_t min -> in_type int32_t max ->
  ReadWrite.write_bits stream value bits s =
    bind (serialize_bits stream T value bits) (fun _ => ret tt) s
  /\ ReadWrite.write_int stream T value min max s =
       bind (serialize_int stream T value min max) (fun _ => ret tt) s.
Proof.
  intros Hw Hr HT Hmin Hmax. split.
  - unfold ReadWrite.write_bits, serialize_bits. rewrite Hr, Hw.
    unfold bind, yojimbo_assert.
    destruct (bits >? 0); [|reflexivity]. destruct (bits <=? 32); [|reflexivity].
    cbv zeta.
    destruct (SerializeBits stream (cast uint32_t value) bits s) as [[v s']| | |];
      reflexivity.
  - unfold ReadWrite.write_int, serialize_int. rewrite Hr, Hw.
    destruct (Z.ltb_spec min max) as [Hlt|Hge];
      [|unfold bind, yojimbo_assert; reflexivity].
    rewrite !converted_bound by (assumption || (intros; specialize (HT H); lia)).
    unfold bind, yojimbo_assert.
    destruct (value >=? min); [|reflexivity]. destruct (value <=? max); [|reflexivity].
    cbv zeta. unfold ret.
    destruct (SerializeInteger stream (cast int32_t value) min max s) as [[v s']| | |];
      reflexivity.
Qed.

(** X13: [read_int] into an unsigned 32-bit variable with a range that
    starts below zero and ends at zero or above never returns true: without
    the 64-bit casts of [serialize_int] the lower bound is compared as an
    unsigned number above every value the upper bound admits. *)
Theorem read_int_unsigned_negative_min (min max : Z) (s : S) :
  in_type int32_t min -> in_type int32_t max -> min < 0 -> 0 <= max ->
  forall value s', ReadWrite.read_int stream uint32_t min max s <> Done (value, s').
Proof.
  intros Hmin Hmax Hneg Hpos value s' H.
  unfold ReadWrite.read_int, bind, yojimbo_assert in H.
  destruct (min <? max); [|discriminate].
  destruct (SerializeInteger stream 0 min max s) as [[v s1]| | |]; try discriminate.
  cbv zeta in H. unfold ReadWrite.converted in H.
  pose proof (cast_range uint32_t v) as Hv.
  assert (cast uint32_t min = min + 4294967296) as Hcmin.
  { unfold_types. symmetry. apply Z.mod_unique with (q := -1); lia. }
  assert (cast uint32_t max = max) as Hcmax by (apply cast_in_type; unfold_types; lia).
  rewrite Hcmin, Hcmax, Z.gtb_ltb in H.
  destruct (Z.ltb_spec (cast uint32_t v) (min + 4294967296)); [discriminate|].
  destruct (Z.ltb_spec max (cast uint32_t v)); [discriminate|].
  unfold_types. lia.
Qed.

End MacroAgreement.

(** ** Modes that neither write nor read *)

Lemma yields_ret {S A : Type} (a : A) (P : A -> Prop) :
  P a -> yields (@ret S A a) P.
Proof. intros H s x s' E. unfold ret in E. injection E as <- _. exact H. Qed.

Lemma yields_bind {S A B : Type} (c : M S A) (k : A -> M S B)
      (P : A -> Prop) (Q : B -> Prop) :
  yields c P -> (forall a, P a -> yields (k a) Q) -> yields (bind c k) Q.
Proof.
  intros Hc Hk s b s' E. unfold bind in E.
  destruct (c s) as [[a s1]| | |] eqn:Ec; try discriminate.
  exact (Hk a (Hc _ _ _ Ec) _ _ _ E).
Qed.

Lemma yields_any {S A : Type} (c : M S A) : yields c (fun _ => True).
Proof. intros s a s' _. exact I. Qed.

Section NeitherMode.

Context {S : Type} (stream : Stream S).

Hypothesis not_writing : IsWriting stream = false.
Hypothesis not_reading : IsReading stream = false.

Lemma int_relative_neither_mode (previous current : Z) :
  yields (serialize_int_relative stream previous current) (fun x => x = current).
Proof.
  unfold serialize_int_relative, serialize_int_relative_internal.
  rewrite not_writing, not_reading.
  repeat first
    [ apply yields_ret; reflexivity
    | eapply yields_bind; [apply yields_any | intros ? _]
    | lazymatch goal with
      | |- yields (if ?b then _ else _) _ => destruct b
      end
    | progress cbv zeta ].
Qed.

(** X14: in a mode that neither writes nor reads, the sequence-relative
    codec does not leave [sequence2] alone: whenever it returns true,
    [sequence2] has been set to 0. *)
Theorem sequence_relative_neither_mode (sequence1 sequence2 result : Z) (s s' : S) :
  serialize_sequence_relative stream sequence1 sequence2 s = Done (result, s') ->
  result = 0.
Proof.
  revert s result s'.
  change (yields (serialize_sequence_relative stream sequence1 sequence2)
                 (fun x => x = 0)).
  unfold serialize_sequence_relative, serialize_sequence_relative_internal.
  rewrite not_writing. cbv zeta.
  eapply yields_bind; [apply int_relative_neither_mode|].
  intros b ->. apply yields_ret. reflexivity.
Qed.

End NeitherMode.

Section MeasureWithoutFlags.

Variable check_pattern : list bool.

Local Abbreviation M0 := (MeasureStream check_pattern).

(** X15: what the measuring engine counts with both flags false, whatever
    the values: 38 bits for the delta codec, 17 bits for the ack-relative
    codec, and for a string the bounded integer of its length alone. *)
Theorem measure_without_flags
        (previous current sequence ack buffer_size n : Z) (string : list byte) :
  1 < buffer_size ->
  serialize_int_relative M0 previous current n = Done (current, n + 38)
  /\ serialize_ack_relative M0 sequence ack n = Done (ack, n + 17)
  /\ serialize_string M0 string buffer_size n =
     Done (string, n + bits_required 0 (buffer_size - 1)).
Proof.
  intros Hbs. split; [apply measure_int_relative_default|].
  split; [|now apply measure_string_default].
  unfold serialize_ack_relative, serialize_ack_relative_internal.
  cbn. unfold ret. apply f_equal. apply f_equal2; [reflexivity | lia].
Qed.

End MeasureWithoutFlags.

(** ** One-byte string buffers *)

Section Delegation.

Context {S : Type} (stream : Stream S).

(** X16: the string directive needs a buffer of two bytes or more.  With
    [buffer_size] at most 1 the range of the length, [0, buffer_size - 1],
    fails the assertion min < max, in every mode and before the stream is
    touched; room for the empty string and its terminator is not enough. *)
Theorem string_needs_two_bytes (string : list byte) (buffer_size : Z) (s : S) :
  buffer_size <= 1 ->
  (IsWriting stream = true -> strlen string <> None) ->
  serialize_string stream string buffer_size s = Aborted.
Proof.
  intros Hbs Hterm. unfold serialize_string, serialize_string_internal.
  destruct (IsWriting stream) eqn:Hw.
  - destruct (strlen string) as [n|] eqn:Hn; [|now specialize (Hterm eq_refl)].
    unfold bind at 1. unfold bind at 1. unfold c_strlen at 1. rewrite Hn.
    cbv zeta. unfold yojimbo_assert at 1.
    destruct (cast int32_t n <? buffer_size - 1); [|reflexivity].
    unfold bind at 1. unfold ret at 1. unfold bind at 1, serialize_int.
    rewrite assert_false by lia. reflexivity.
  - rewrite bind_ret. unfold bind at 1, serialize_int.
    rewrite assert_false by lia. reflexivity.
Qed.

End Delegation.

(** ** The further properties at concrete inputs *)

(** X1 at an object with a bounded integer, a nested object that holds the
    text "ab", an alignment and a delta of 7, read into an object with other
    values. *)
Lemma object_roundtrip_witness :
  let o := o_field (f_int int32_t 5 0 10)
             (o_object (o_field (f_string [x61; x62; x00; x00] 4) o_end)
                (o_field f_align (o_field (f_int_relative 100 107) o_end))) in
  let o0 := o_field (f_int int32_t 0 0 10)
              (o_object (o_field (f_string [x01; x02; x03; x04] 4) o_end)
                 (o_field f_align (o_field (f_int_relative 100 0) o_end))) in
  exists bits o',
    SerializeInternal_write [] byte example_IsValid example_ToString example_Parse 4
                            [x00; x00; x00; x00] o [] = Done (o, [] ++ bits)
    /\ SerializeInternal_read [] byte example_IsValid example_ToString example_Parse 4
                              [x00; x00; x00; x00] o0
                              {| bits_read := 0; unread := bits ++ [] |} =
       Done (o', {| bits_read := 0 + Z.of_nat (length bits); unread := [] |})
    /\ values_of byte o' = [v_int 5; v_bytes [x61; x62]; v_none; v_int 107].
Proof.
  cbv zeta.
  apply (object_roundtrip [] byte example_IsValid example_ToString example_Parse 4
                          [x00; x00; x00; x00]).
  - cbn. repeat split; try lia. exists 2. split; [reflexivity | lia].
  - cbn. tauto.
  - cbn. tauto.
  - cbn. tauto.
Defined.

(** X2 at two buffers that hold the text "ab" and differ after its
    terminator. *)
Lemma write_injective_witness :
  values_of byte (o_field (f_string [x61; x62; x00; x00] 4) o_end) =
  values_of byte (o_field (f_string [x61; x62; x00; x07] 4) o_end).
Proof.
  apply (write_injective [] byte example_IsValid example_ToString example_Parse 4
                         [x00; x00; x00; x00] _ _ []
                         (string_bits [x61; x62; x00; x00] 4)).
  - cbn. repeat split; try lia. exists 2. split; [reflexivity | lia].
  - cbn. tauto.
  - cbn. repeat split; try lia. exists 2. split; [reflexivity | lia].
  - cbn. tauto.
  - cbn. tauto.
  - cbn. tauto.
  - reflexivity.
  - reflexivity.
Defined.

(** X3 at the integer 5 of the range [0,10], written on four bits, of which
    the reader gets two. *)
Lemma truncated_read_fails_witness :
  SerializeInternal_read [] byte example_IsValid example_ToString example_Parse 4
                         [x00; x00; x00; x00]
                         (o_field (f_int int32_t 0 0 10) o_end)
                         {| bits_read := Z.of_nat (length (@nil bool));
                            unread := [true; false] |} = Failed.
Proof.
  apply (truncated_read_fails [] byte example_IsValid example_ToString example_Parse 4
                              [x00; x00; x00; x00]
                              (o_field (f_int int32_t 5 0 10) o_end)
                              (o_field (f_int int32_t 0 0 10) o_end)
                              [] [true; false] [true; false]).
  - cbn. repeat split; lia.
  - cbn. tauto.
  - cbn. tauto.
  - cbn. tauto.
  - reflexivity.
  - discriminate.
Defined.

(** X4 at a string buffer of four bytes and a stream of set bits. *)
Lemma read_never_crashes_witness :
  let r := {| bits_read := 0; unread := repeat true 40 |} in
  let o := o_field (f_string [x00; x00; x00; x00] 4) o_end in
  SerializeInternal_read [] byte example_IsValid example_ToString example_Parse 4
                         [x00; x00; x00; x00] o r <> Aborted
  /\ SerializeInternal_read [] byte example_IsValid example_ToString example_Parse 4
                            [x00; x00; x00; x00] o r <> OutOfBounds.
Proof.
  cbv zeta.
  apply (read_never_crashes [] byte example_IsValid example_ToString example_Parse 4
                            [x00; x00; x00; x00]).
  cbn. repeat split; lia.
Defined.

(** X5 at a stream that announces two bytes, "a" and a zero byte. *)
Lemma read_string_terminated_witness :
  length [x61; x00; x00; x01] = length [x01; x01; x01; x01]
  /\ exists m, strlen [x61; x00; x00; x01] = Some m /\ 0 <= m < 4.
Proof.
  apply (read_string_terminated
           [] [x01; x01; x01; x01] [x61; x00; x00; x01] 4
           {| bits_read := 0; unread := to_bits 2 2 ++ bytes_bits [x61; x00] |}
           {| bits_read := 18; unread := [] |}).
  - lia.
  - reflexivity.
  - reflexivity.
Defined.

(** X6 on the read engine with the example collaborator: the text "A" is
    read as the address "A", and the empty text, which parses as the
    invalid address, is a decode failure. *)
Lemma read_address_is_valid_witness :
  (example_IsValid x41 = true
   /\ exists buffer,
        serialize_string (ReadStream []) [x00; x00; x00; x00] 4
          {| bits_read := 0; unread := string_bits [x41; x00; x00; x00] 4 |} =
        Done (buffer, {| bits_read := 10; unread := [] |})
        /\ x41 = example_Parse buffer)
  /\ serialize_address byte example_IsValid example_ToString example_Parse 4
                       [x00; x00; x00; x00] (ReadStream []) x07
                       {| bits_read := 0; unread := string_bits [x00; x00; x00; x00] 4 |} =
     Failed.
Proof.
  split.
  - apply (proj1 (read_address_is_valid byte example_IsValid example_ToString
                    example_Parse 4 [x00; x00; x00; x00] (ReadStream []) x07
                    {| bits_read := 0; unread := string_bits [x41; x00; x00; x00] 4 |}
                    eq_refl eq_refl)).
    reflexivity.
  - exact (proj1 (proj2 (read_address_is_valid byte example_IsValid example_ToString
                           example_Parse 4 [x00; x00; x00; x00] (ReadStream []) x07
                           {| bits_read := 0;
                              unread := string_bits [x00; x00; x00; x00] 4 |}
                           eq_refl eq_refl))
                 [x00; x00; x00; x00] {| bits_read := 2; unread := [] |} eq_refl).
Defined.

(** X7 at sequence 10 and a stream that holds a true flag and the delta 16. *)
Lemma read_ack_in_window_witness :
  in_type uint16_t 65530 /\ 1 <= (10 - 65530) mod 65536 <= 64.
Proof.
  apply (read_ack_in_window [] 10 0 65530 0 (to_bits 6 15)
                            {| bits_read := 7; unread := [] |}).
  - cbn. lia.
  - reflexivity.
Defined.

(** X8 at previous 100 and the value 105, which the writer puts in the
    second bucket. *)
Lemma delta_read_takes_any_fallback_witness :
  serialize_int_relative (ReadStream []) 100 0
    {| bits_read := 0; unread := repeat false 6 ++ to_bits 32 105 ++ [] |} =
    Done (105, {| bits_read := 0 + 38; unread := [] |})
  /\ exists bits,
       serialize_int_relative (WriteStream []) 100 105 [] = Done (105, bits)
       /\ bits <> repeat false 6 ++ to_bits 32 105
       /\ serialize_int_relative (ReadStream []) 100 0
            {| bits_read := 0; unread := bits ++ [] |} =
          Done (105, {| bits_read := 0 + Z.of_nat (length bits); unread := [] |}).
Proof.
  destruct (delta_read_takes_any_fallback [] 100 0 105 0 []) as [Hany Hboth];
    [cbn; lia|].
  split; [exact Hany|]. apply Hboth; lia.
Defined.

(** X9 at the differences 1 and 100000. *)
Lemma delta_cost_monotone_witness :
  exists bits1 bits2,
    serialize_int_relative (WriteStream []) 0 1 [] = Done (1, bits1)
    /\ serialize_int_relative (WriteStream []) 0 100000 [] = Done (100000, bits2)
    /\ (1 <= length bits1 <= length bits2)%nat
    /\ (length bits2 <= 38)%nat.
Proof.
  apply (delta_cost_monotone [] 0 1 0 100000); cbn; lia.
Defined.

(** X10 at the sequence numbers 65530 and 10. *)
Lemma sequence_relative_cost_witness :
  1 <= lifted 65530 10 - 65530 <= 65535
  /\ exists bits,
       serialize_sequence_relative (WriteStream []) 65530 10 [] = Done (10, [] ++ bits)
       /\ (1 <= length bits <= 23)%nat.
Proof.
  apply (sequence_relative_cost [] 65530 10 []); cbn; lia.
Defined.

(** X11 on the read engine, at three bits and the range [2,6]. *)
Lemma read_macros_agree_witness :
  let s := {| bits_read := 0; unread := [true; false; true] |} in
  ReadWrite.read_bits (ReadStream []) uint32_t 3 s =
    serialize_bits (ReadStream []) uint32_t 9 3 s
  /\ ReadWrite.read_bool (ReadStream []) s = serialize_bool (ReadStream []) false s
  /\ ReadWrite.read_int (ReadStream []) uint32_t 2 6 s =
       serialize_int (ReadStream []) uint32_t 9 2 6 s.
Proof.
  cbv zeta.
  apply (read_macros_agree (ReadStream []) uint32_t 9 3 2 6 false).
  - reflexivity.
  - reflexivity.
  - intros _. lia.
  - cbn. lia.
  - cbn. lia.
Defined.

(** X12 on the write engine, at the value 5, three bits and the range
    [2,6]. *)
Lemma write_macros_agree_witness :
  ReadWrite.write_bits (WriteStream []) 5 3 [] =
    bind (serialize_bits (WriteStream []) uint32_t 5 3) (fun _ => ret tt) []
  /\ ReadWrite.write_int (WriteStream []) uint32_t 5 2 6 [] =
       bind (serialize_int (WriteStream []) uint32_t 5 2 6) (fun _ => ret tt) [].
Proof.
  apply (write_macros_agree (WriteStream []) uint32_t 5 3 2 6 []).
  - reflexivity.
  - reflexivity.
  - intros _. lia.
  - cbn. lia.
  - cbn. lia.
Defined.

(** X13 on the read engine, at the range [-1,5]: the three bits 1,0,0 are
    the value 0, which [serialize_int] takes and [read_int] does not. *)
Lemma read_int_unsigned_negative_min_witness :
  let s := {| bits_read := 0; unread := [true; false; false] |} in
  (forall value s', ReadWrite.read_int (ReadStream []) uint32_t (-1) 5 s <> Done (value, s'))
  /\ serialize_int (ReadStream []) uint32_t 9 (-1) 5 s =
     Done (0, {| bits_read := 3; unread := [] |}).
Proof.
  cbv zeta. split; [|reflexivity].
  apply (read_int_unsigned_negative_min (ReadStream []) (-1) 5); cbn; lia.
Defined.

(** X14 on the measuring engine with both flags false, at the sequence
    numbers 5 and 9. *)
Lemma sequence_relative_neither_mode_witness :
  exists result n,
    serialize_sequence_relative (MeasureStream []) 5 9 0 = Done (result, n)
    /\ result = 0.
Proof.
  exists 0, 38. split; [reflexivity|].
  apply (sequence_relative_neither_mode (MeasureStream []) eq_refl eq_refl 5 9 0 0 38).
  reflexivity.
Defined.

(** X15 at a delta of 1, an ack one behind its sequence number and the text
    "ab" in a buffer of four bytes. *)
Lemma measure_without_flags_witness :
  serialize_int_relative (MeasureStream []) 0 1 0 = Done (1, 0 + 38)
  /\ serialize_ack_relative (MeasureStream []) 10 9 0 = Done (9, 0 + 17)
  /\ serialize_string (MeasureStream []) [x61; x62; x00; x00] 4 0 =
     Done ([x61; x62; x00; x00], 0 + bits_required 0 (4 - 1)).
Proof.
  apply (measure_without_flags [] 0 1 10 9 4 0 [x61; x62; x00; x00]). lia.
Defined.

(** X16 on the read engine, at a buffer of one byte. *)
Lemma string_needs_two_bytes_witness :
  serialize_string (ReadStream []) [x00] 1 {| bits_read := 0; unread := [] |} = Aborted.
Proof.
  apply (string_needs_two_bytes (ReadStream [])).
  - lia.
  - discriminate.
Defined.
